(** * Hybrid retrieval and evidence formatting of the HH RAG API

    A shallow embedding of [api/main.py]: the text utilities
    ([normalize_ws], [extract_query_keywords], [extract_tech_terms],
    [highlight]), the two SQL statements [SQL_V2_WITH_TRGM] and
    [SQL_V2_NO_TRGM], the grouping loop of [retrieve_vacancies] and the
    response built by [search].

    Conventions.
    - A Python [str] is the list of its characters, each a code point
      ([pystr]). White space is CPython's; what the regular expressions
      and [str.lower] take from the Unicode character database beyond
      ASCII (letters and digits, case) is a parameter, [Unicode], of which
      nothing is assumed.
    - Numbers of PostgreSQL and Python ([double precision], [float]) are
      the rationals they denote ([Q]); the two operations of the hybrid
      score round as the server does and belong to [SqlEngine].
    - What SQL leaves to the executor (the order of rows with equal sort
      keys, which input of a join is read first and whether the other is
      read at all when the first is empty) and what CPython leaves to the
      hash seed (the iteration order of a [set] of strings) are explicit
      parameters, [SqlEngine] and [SetOrder]; theorems quantify over all
      of them.
    - A fragment of [vacancy_chunks] has a text: [build_chunks.py], the
      only writer of the table, stores one with every fragment. *)

From Stdlib Require Import QArith Ascii String.
From stdpp Require Import base list gmap sorting strings.

Local Open Scope Z_scope.

(** ** Errors raised while serving a request *)

Inductive error :=
  | InvalidRowCountInLimitClause   (* PostgreSQL: LIMIT must not be negative *)
  | NumericValueOutOfRange         (* PostgreSQL: bigint out of range *)
  | KeyError.                      (* Python: missing dictionary key *)

Inductive result (A : Type) :=
  | Ok (a : A)
  | Err (e : error).
Arguments Ok {A} a.
Arguments Err {A} e.

Global Instance result_ret : MRet result := λ A a, Ok a.

Global Instance result_bind : MBind result := λ A B f m,
  match m with
  | Ok a => f a
  | Err e => Err e
  end.

(** ** Text utilities *)

Module Text.

(** A character is its code point; a Python [str] is the list of its
    characters. *)
Abbreviation char := N.
Abbreviation pystr := (list N).

(** The character written as an ASCII literal. *)
Definition ch (a : ascii) : char := N_of_ascii a.
Arguments ch : simpl never.

(** Reads the UTF-8 bytes of a literal: [acc] holds the bits read of the
    current character and [more] the number of its bytes still to come. *)
Fixpoint utf8_decode (acc : N) (more : nat) (bytes : list N) : pystr :=
  match bytes with
  | [] => []
  | b :: bytes' =>
      match more with
      | S m =>
          let acc := (acc * 64 + b mod 64)%N in
          match m with
          | O => acc :: utf8_decode 0 0 bytes'
          | S _ => utf8_decode acc m bytes'
          end
      | O =>
          if (b <? 0x80)%N then b :: utf8_decode 0 0 bytes'
          else if (b <? 0xE0)%N then utf8_decode (b mod 32) 1 bytes'
          else if (b <? 0xF0)%N then utf8_decode (b mod 16) 2 bytes'
          else utf8_decode (b mod 8) 3 bytes'
      end
  end.

(** A string literal of the source. *)
Definition str (s : string) : pystr :=
  utf8_decode 0 0 (map N_of_ascii (list_ascii_of_string s)).

Definition in_range (lo hi : N) (c : char) : bool :=
  ((lo <=? c) && (c <=? hi))%N.

(** [\s] of a [str] pattern and the characters [str.strip()] removes:
    the characters for which CPython's [Py_UNICODE_ISSPACE] holds. *)
Definition is_space (c : char) : bool :=
  in_range 0x09 0x0D c || in_range 0x1C 0x20 c
  || (c =? 0x85)%N || (c =? 0xA0)%N || (c =? 0x1680)%N
  || in_range 0x2000 0x200A c || in_range 0x2028 0x2029 c
  || (c =? 0x202F)%N || (c =? 0x205F)%N || (c =? 0x3000)%N.

Definition is_ascii (c : char) : bool := (c <? 0x80)%N.

Definition is_upper (c : char) : bool := in_range 65 90 c.
Definition is_lower (c : char) : bool := in_range 97 122 c.
Definition is_digit (c : char) : bool := in_range 48 57 c.

(** Lower case of an ASCII character. *)
Definition ascii_lower (c : char) : char :=
  if is_upper c then (c + 32)%N else c.

(** What the functions below take from the Unicode character database of
    the interpreter beyond ASCII, where they are written out: which
    characters are letters or digits, [str.lower], which character a
    literal of a pattern matches under [re.IGNORECASE], and which
    characters the class of [extract_query_keywords] matches under that
    flag. Nothing is assumed of these tables. *)
Record Unicode := {
  isalnum : char → bool;
  str_lower : pystr → pystr;
  ignorecase_eq : char → char → bool;
  ignorecase_token : char → bool;
}.

(** [\w] of a [str] pattern: letters, digits and the underscore. *)
Definition is_word (U : Unicode) (c : char) : bool :=
  if is_ascii c
  then is_upper c || is_lower c || is_digit c || (c =? 95)%N
  else isalnum U c.

(** [str.lower]: on an ASCII text the capitals A to Z are replaced. *)
Definition lower (U : Unicode) (s : pystr) : pystr :=
  if forallb is_ascii s then map ascii_lower s else str_lower U s.

(** *** A fragment of [re]: sequences of literals and [\b] *)

Inductive atom :=
  | Bnd                 (* \b *)
  | Lit (c : char).     (* a literal character, escaped or not *)

(** Reads a raw pattern such as [\bci\/cd\b]: backslash-b is the word
    boundary, a backslash before any other character quotes it. [esc]
    records that the previous character was the backslash. *)
Fixpoint parse_pattern (esc : bool) (p : pystr) : list atom :=
  match p with
  | [] => []
  | c :: p' =>
      if esc then
        (if decide (c = ch "b") then Bnd else Lit c) :: parse_pattern false p'
      else if decide (c = ch "\") then parse_pattern true p'
      else Lit c :: parse_pattern false p'
  end.

Definition opt_word (U : Unicode) (c : option char) : bool :=
  match c with
  | Some c => is_word U c
  | None => false
  end.

(** [\b] holds between [prev] and [next] when exactly one of them is a
    word character; the ends of the string count as non-word. *)
Definition at_boundary (U : Unicode) (prev next : option char) : bool :=
  xorb (opt_word U prev) (opt_word U next).

(** The literal [p] of a pattern against the character [x] under
    [re.IGNORECASE]: two ASCII characters match when they are the same
    letter in either case. *)
Definition char_eq_ic (U : Unicode) (p x : char) : bool :=
  if is_ascii p && is_ascii x then (ascii_lower p =? ascii_lower x)%N
  else ignorecase_eq U p x.

(** Tries the pattern at the current position; [prev] is the character
    just before it. Returns the number of characters consumed. *)
Fixpoint match_here (U : Unicode) (pat : list atom) (prev : option char)
    (s : pystr) : option nat :=
  match pat with
  | [] => Some 0%nat
  | Bnd :: pat' =>
      if at_boundary U prev (head s) then match_here U pat' prev s else None
  | Lit c :: pat' =>
      match s with
      | x :: s' =>
          if char_eq_ic U c x then S <$> match_here U pat' (Some x) s' else None
      | [] => None
      end
  end.

(** [re.search(pat, s, flags=re.IGNORECASE) is not None] *)
Fixpoint search_from (U : Unicode) (pat : list atom) (prev : option char)
    (s : pystr) : bool :=
  match match_here U pat prev s with
  | Some _ => true
  | None =>
      match s with
      | [] => false
      | c :: s' => search_from U pat (Some c) s'
      end
  end.

Definition re_search (U : Unicode) (pat : list atom) (s : pystr) : bool :=
  search_from U pat None s.

(** [re.sub(pat, r"[\1]", s)] for a pattern whose only group spans the
    whole match: every leftmost non-overlapping match is wrapped in
    brackets. [inside] counts the characters of the current match still to
    be copied; an empty match is not retried at the same position. *)
Fixpoint sub_wrap (U : Unicode) (pat : list atom) (prev : option char)
    (inside : nat) (s : pystr) : pystr :=
  match s with
  | [] =>
      match inside with
      | O => match match_here U pat prev [] with
             | Some _ => [ch "["; ch "]"]
             | None => []
             end
      | S _ => []
      end
  | c :: s' =>
      let copy (m : nat) : pystr :=
        c :: match m with
             | O => ch "]" :: sub_wrap U pat (Some c) 0 s'
             | S _ => sub_wrap U pat (Some c) m s'
             end in
      match inside with
      | S m => copy m
      | O =>
          match match_here U pat prev s with
          | Some (S m) => ch "[" :: copy m
          | Some O => ch "[" :: ch "]" :: c :: sub_wrap U pat (Some c) 0 s'
          | None => c :: sub_wrap U pat (Some c) 0 s'
          end
      end
  end.

Definition re_sub_wrap (U : Unicode) (pat : list atom) (s : pystr) : pystr :=
  sub_wrap U pat None 0 s.

(** *** [normalize_ws] *)

(** [re.sub(r"\s+", " ", s)]: each maximal run of white space becomes one
    space; [in_run] records that the run has already been replaced. *)
Fixpoint collapse_ws (in_run : bool) (s : pystr) : pystr :=
  match s with
  | [] => []
  | c :: s' =>
      if is_space c then
        if in_run then collapse_ws true s' else ch " " :: collapse_ws true s'
      else c :: collapse_ws false s'
  end.

Fixpoint lstrip (s : pystr) : pystr :=
  match s with
  | [] => []
  | c :: s' => if is_space c then lstrip s' else s
  end.

(** [str.strip()] *)
Definition strip (s : pystr) : pystr := rev (lstrip (rev (lstrip s))).

(** [(s or "")]: [None] counts as the empty string. *)
Definition or_empty (s : option pystr) : pystr := default [] s.

Definition normalize_ws (s : option pystr) : pystr :=
  strip (collapse_ws false (or_empty s)).

(** *** [extract_tech_terms] *)

Fixpoint is_prefix (p s : pystr) : bool :=
  match p, s with
  | [], _ => true
  | a :: p', b :: s' => bool_decide (a = b) && is_prefix p' s'
  | _ :: _, [] => false
  end.

(** [str.replace(old, new)]: occurrences are replaced from left to right
    and do not overlap; [skip] counts the characters of the occurrence
    just replaced that are still to be dropped. *)
Fixpoint replace_from (old new : pystr) (skip : nat) (s : pystr) : pystr :=
  match s with
  | [] => match old with [] => new | _ => [] end
  | c :: s' =>
      match skip with
      | S n => replace_from old new n s'
      | O =>
          if is_prefix old s then
            new ++ match old with
                   | [] => c :: replace_from old new 0 s'
                   | _ :: old' => replace_from old new (length old') s'
                   end
          else c :: replace_from old new 0 s'
      end
  end.

Definition replace (old new s : pystr) : pystr := replace_from old new 0 s.

Definition TECH_PATTERNS : list pystr := map str
  [ "\bjava\b"; "\bspring\b"; "\bspring boot\b"; "\bpython\b"; "\bgo\b";
    "\bjavascript\b"; "\btypescript\b";
    "\bsql\b"; "\bpostgres\b"; "\bpostgresql\b"; "\bclickhouse\b";
    "\bmysql\b"; "\bmongodb\b";
    "\bairflow\b"; "\bkafka\b"; "\bredis\b"; "\bkubernetes\b"; "\bdocker\b";
    "\bterraform\b";
    "\bhadoop\b"; "\bspark\b"; "\bflink\b"; "\bdatabricks\b";
    "\betl\b"; "\belt\b"; "\bdwh\b"; "\bmlops\b"; "\bci\/cd\b" ]%string.

(** [p.replace(r"\b", "").replace("\\", "").strip()] *)
Definition term_of (p : pystr) : pystr :=
  strip (replace (str "\") [] (replace (str "\b") [] p)).

(** [list(dict.fromkeys(found))]: the first occurrence of each key, in
    order. *)
Fixpoint fromkeys (seen : gset pystr) (l : list pystr) : list pystr :=
  match l with
  | [] => []
  | x :: l' =>
      if decide (x ∈ seen) then fromkeys seen l'
      else x :: fromkeys ({[x]} ∪ seen) l'
  end.

Definition extract_tech_terms (U : Unicode) (t : option pystr) : list pystr :=
  let t := lower U (or_empty t) in
  let found :=
    map term_of
        (filter (λ p, re_search U (parse_pattern false p) t = true)
                TECH_PATTERNS) in
  fromkeys ∅ found.

(** *** [highlight] *)

(** The iteration order of [set(keywords)]: some duplicate-free
    enumeration of the keywords, fixed by the interpreter's hash seed. *)
Record SetOrder := {
  set_elements : list pystr → list pystr;
  set_elements_NoDup : ∀ l, NoDup (set_elements l);
  set_elements_spec : ∀ l x, x ∈ set_elements l ↔ x ∈ l;
}.

(** [rf"(?i)\b({re.escape(kw)})\b"] *)
Definition kw_pattern (kw : pystr) : list atom := Bnd :: map Lit kw ++ [Bnd].

(** [sorted(.., key=len, reverse=True)] is stable: among keywords of equal
    length the earlier one stays first. *)
Fixpoint insert_by_len (x : pystr) (l : list pystr) : list pystr :=
  match l with
  | [] => [x]
  | y :: l' =>
      if (length y <=? length x)%nat then x :: l else y :: insert_by_len x l'
  end.

Definition sorted_by_len_desc (l : list pystr) : list pystr :=
  foldr insert_by_len [] l.

Definition highlight (U : Unicode) (so : SetOrder) (t : pystr)
    (keywords : list pystr) : pystr :=
  match keywords with
  | [] => t
  | _ =>
      foldl (λ out kw, re_sub_wrap U (kw_pattern kw) out) t
            (sorted_by_len_desc (set_elements so keywords))
  end.

(** *** [extract_query_keywords] *)

(** The stop words. *)
Definition RU_STOP : list pystr := map str
  [ "и"; "в"; "во"; "на"; "по"; "к"; "ко"; "из"; "у"; "за"; "для"; "про"; "под";
    "над"; "с"; "со"; "о"; "об"; "от"; "до"; "при"; "как"; "а"; "но"; "или"; "что";
    "это"; "мы"; "вы"; "они"; "он"; "она"; "оно"; "я"; "ты"; "его"; "ее"; "их";
    "наш"; "ваш"; "требуется"; "нужен"; "нужна"; "нужны"; "ищем";
    "работа"; "вакансия"; "стажировка"; "intern"; "internship"; "junior"; "middle";
    "senior" ]%string.

Definition EN_STOP : list pystr := map str
  [ "and"; "or"; "the"; "a"; "an"; "to"; "for"; "of"; "in"; "on"; "with"; "from"; "as"; "is"; "are"; "be";
    "this"; "that"; "job"; "vacancy"; "needed"; "looking" ]%string.

(** The class [[a-zа-я0-9\+\#\.]] under [re.IGNORECASE]: of the ASCII
    characters the letters, the digits and the three signs; the Cyrillic
    letters from а to я. *)
Definition is_token_char (U : Unicode) (c : char) : bool :=
  if is_ascii c then
    is_lower (ascii_lower c) || is_digit c
    || bool_decide (c = ch "+") || bool_decide (c = ch "#")
    || bool_decide (c = ch ".")
  else if in_range 0x430 0x44F c then true
  else ignorecase_token U c.

Definition close_run (cur : pystr) : list pystr :=
  if (3 <=? length cur)%nat then [rev cur] else [].

(** [re.findall(r"[...]{3,}", q)]: the maximal runs of token characters of
    length at least three; [cur] is the current run, reversed. *)
Fixpoint findall_tokens (U : Unicode) (cur : pystr) (s : pystr) : list pystr :=
  match s with
  | [] => close_run cur
  | c :: s' =>
      if is_token_char U c then findall_tokens U (c :: cur) s'
      else close_run cur ++ findall_tokens U [] s'
  end.

(** [Counter(tokens)]: counts in first-insertion order. *)
Fixpoint counter_add (x : pystr) (cnt : list (pystr * nat)) : list (pystr * nat) :=
  match cnt with
  | [] => [(x, 1%nat)]
  | (y, n) :: cnt' =>
      if decide (x = y) then (y, S n) :: cnt' else (y, n) :: counter_add x cnt'
  end.

Definition Counter (tokens : list pystr) : list (pystr * nat) :=
  foldl (λ cnt x, counter_add x cnt) [] tokens.

Fixpoint insert_by_count (x : pystr * nat) (l : list (pystr * nat))
  : list (pystr * nat) :=
  match l with
  | [] => [x]
  | y :: l' =>
      if (y.2 <=? x.2)%nat then x :: l else y :: insert_by_count x l'
  end.

(** [cnt.most_common(n)]: by count, largest first, ties in insertion
    order; the first [n], none when [n] is not positive. *)
Definition most_common (n : Z) (cnt : list (pystr * nat)) : list (pystr * nat) :=
  take (Z.to_nat n) (foldr insert_by_count [] cnt).

Definition extract_query_keywords (U : Unicode) (query : option pystr)
    (max_words : Z) : list pystr :=
  let q := lower U (or_empty query) in
  let tokens := findall_tokens U [] q in
  let tokens :=
    filter (λ t, (t ∉ RU_STOP) ∧ (t ∉ EN_STOP)) tokens in
  map fst (most_common max_words (Counter tokens)).

(** *** Quote formatting (the body of the evidence loop of [search]) *)

(** [txt[:n]]; a negative [n] counts from the end. *)
Definition slice_to (n : Z) (t : pystr) : pystr :=
  if n <? 0 then take (length t - Z.to_nat (- n)) t
  else take (Z.to_nat n) t.

Definition format_quote (U : Unicode) (so : SetOrder) (keywords : list pystr)
    (max_quote : Z) (do_highlight : bool) (raw : pystr) : pystr :=
  let txt := normalize_ws (Some raw) in
  let txt := if do_highlight then highlight U so txt keywords else txt in
  if Z.of_nat (length txt) >? max_quote then slice_to max_quote txt ++ str "..."
  else txt.

(** What the specification calls removing the highlight markers. *)
Definition is_marker (c : char) : bool :=
  bool_decide (c = ch "[") || bool_decide (c = ch "]").

Definition strip_markers (t : pystr) : pystr :=
  filter (λ c, is_marker c = false) t.

(** What the specification calls the normalized, truncated source text:
    the cut of [search] applied to the text without highlighting. *)
Definition truncate (max_quote : Z) (t : pystr) : pystr :=
  if Z.of_nat (length t) >? max_quote then slice_to max_quote t ++ str "..."
  else t.

(** A concrete [set] order: first occurrences, in order. *)
Fixpoint first_occurrences (seen : list pystr) (l : list pystr) : list pystr :=
  match l with
  | [] => []
  | x :: l' =>
      if decide (x ∈ seen) then first_occurrences seen l'
      else x :: first_occurrences (x :: seen) l'
  end.

(** Tables that know no letter, digit or case outside ASCII; the
    functions above do not consult the tables on ASCII text. *)
Definition ascii_tables : Unicode :=
  {| isalnum := λ _, false;
     str_lower := map ascii_lower;
     ignorecase_eq := λ p x, (p =? x)%N;
     ignorecase_token := λ _, false |}.

End Text.


Import Text.

(** ** The store, as seen by one query *)

(** A row of [vacancies]; [vacancy_id] is its key (the fetch scripts
    upsert [on conflict (vacancy_id)]), so the table is a finite map from
    ids. *)
Record vacancy := {
  v_name : string;
  v_employer_name : string;
  v_area_name : string;
  v_url : string;
}.

(** A row of [vacancy_chunks]. For the query being served, [c_dist] is
    [c.embedding <=> q_vec] ([None] when the embedding is null) and
    [c_sim] is [similarity(lower(c.text), lower(query))]. The text is
    the one [build_chunks.py] stored with the fragment. *)
Record chunk := {
  c_vacancy_id : Z;
  c_chunk_no : Z;
  c_text : pystr;
  c_dist : option Q;
  c_sim : Q;
}.

Record store := {
  vacancies : gmap Z vacancy;
  vacancy_chunks : list chunk;
  pg_trgm : bool;        (* is the extension installed *)
}.

(** [has_pg_trgm(conn)] *)
Definition has_pg_trgm (db : store) : bool := pg_trgm db.

(** ** The SQL statements *)

(** The final select of both statements joins [ranked] with [top_vacs].
    The executor reads one of the two inputs first and, when that input
    has no row, may answer without running the other. *)
Inductive join_plan :=
  | RankedFirst (stop_when_empty : bool)
  | TopVacsFirst (stop_when_empty : bool).

(** The freedom SQL leaves to the executor: [ORDER BY] returns some
    arrangement of its input that is ordered by the key; the join is run
    by some plan. With it come the product and the difference of the
    server's floating-point numbers, which round: [float_mul w s] is
    [w * similarity(...)] and [float_sub d p] is [dist - p] as the server
    computes them. *)
Record SqlEngine := {
  order_by : ∀ A : Type, (A → A → bool) → list A → list A;
  order_by_perm : ∀ A (le : A → A → bool) l, order_by A le l ≡ₚ l;
  order_by_sorted : ∀ A (le : A → A → bool) l,
    (∀ x y, le x y = true ∨ le y x = true) →
    (∀ x y z, le x y = true → le y z = true → le x z = true) →
    Sorted (λ x y, le x y = true) (order_by A le l);
  plan : join_plan;
  float_mul : Q → Q → Q;
  float_sub : Q → Q → Q;
}.
Arguments order_by _ {A} _ _.

(** One executor: a stable insertion sort, which keeps rows with equal keys
    in their input order. *)
Fixpoint insert_sorted {A} (le : A → A → bool) (x : A) (l : list A) : list A :=
  match l with
  | [] => [x]
  | y :: l' => if le x y then x :: l else y :: insert_sorted le x l'
  end.

Definition stable_sort {A} (le : A → A → bool) (l : list A) : list A :=
  foldr (insert_sorted le) [] l.

(** No row is followed by one that may come before it: the keys are
    strictly ascending. *)
Fixpoint strictly_sorted {A} (le : A → A → bool) (l : list A) : bool :=
  match l with
  | [] => true
  | x :: l' => forallb (λ y, negb (le y x)) l' && strictly_sorted le l'
  end.

Definition int8_max : Z := 2 ^ 63 - 1.

(** A [LIMIT n] node that runs: a negative count is refused by the
    server, and so is one that does not fit [bigint]. The count is
    computed when the node first runs, before any row is asked of its
    input; a node that never runs refuses nothing. *)
Definition sql_limit {A} (n : Z) (l : list A) : result (list A) :=
  if n <? 0 then Err InvalidRowCountInLimitClause
  else if int8_max <? n then Err NumericValueOutOfRange
  else Ok (take (Z.to_nat n) l).

(** A row of the CTE [scored]. *)
Record scored_row := {
  vacancy_id : Z;
  name : string;
  employer_name : string;
  area_name : string;
  url : string;
  chunk_no : Z;
  text : pystr;
  dist : Q;
  kw_sim : Q;
  score : Q;
}.

(** [vacancy_chunks c join vacancies v on v.vacancy_id = c.vacancy_id
    where c.embedding is not null] *)
Definition joined (db : store) : list (chunk * vacancy * Q) :=
  omap (λ c, v ← vacancies db !! c_vacancy_id c;
             d ← c_dist c;
             Some (c, v, d))
       (vacancy_chunks db).

Definition le_dist (a b : scored_row) : bool := Qle_bool (dist a) (dist b).

(** [scored] of [SQL_V2_WITH_TRGM] *)
Definition scored_with_trgm (E : SqlEngine) (db : store) (kw_weight : Q)
    (candidates : Z) : result (list scored_row) :=
  sql_limit candidates
    (order_by E le_dist
       (map (λ '(c, v, d),
               {| vacancy_id := c_vacancy_id c;
                  name := v_name v; employer_name := v_employer_name v;
                  area_name := v_area_name v; url := v_url v;
                  chunk_no := c_chunk_no c; text := c_text c;
                  dist := d;
                  kw_sim := c_sim c;
                  score := float_sub E d (float_mul E kw_weight (c_sim c)) |})
            (joined db))).

(** [scored] of [SQL_V2_NO_TRGM] *)
Definition scored_no_trgm (E : SqlEngine) (db : store) (candidates : Z)
  : result (list scored_row) :=
  sql_limit candidates
    (order_by E le_dist
       (map (λ '(c, v, d),
               {| vacancy_id := c_vacancy_id c;
                  name := v_name v; employer_name := v_employer_name v;
                  area_name := v_area_name v; url := v_url v;
                  chunk_no := c_chunk_no c; text := c_text c;
                  dist := d;
                  kw_sim := 0%Q;
                  score := d |})
            (joined db))).

(** A row of the CTE [ranked]: a [scored] row with its two window
    columns. *)
Record ranked_row := {
  r_row : scored_row;
  rn : Z;
  best_score : Q;
}.

(** The ordering the window needs: [partition by vacancy_id order by score
    asc]. *)
Definition le_partition (a b : scored_row) : bool :=
  (vacancy_id a <? vacancy_id b)
  || ((vacancy_id a =? vacancy_id b) && Qle_bool (score a) (score b)).

Definition partition_of (v : Z) (rows : list scored_row) : list scored_row :=
  filter (λ r, vacancy_id r = v) rows.

Definition qmin (a b : Q) : Q := if Qle_bool a b then a else b.

(** SQL [min]; it is NULL for an empty group only. *)
Definition sql_min (l : list Q) : option Q :=
  match l with
  | [] => None
  | x :: l' => Some (foldl qmin x l')
  end.

(** [ranked]: the rows in window order; [row_number()] counts the rows of
    the same partition up to the current one, [min(score)] ranges over the
    whole partition, which holds the current row and so is not empty. *)
Definition ranked (E : SqlEngine) (scored : list scored_row) : list ranked_row :=
  let sorted := order_by E le_partition scored in
  imap (λ i r,
          {| r_row := r;
             rn := 1 + Z.of_nat (length (partition_of (vacancy_id r) (take i sorted)));
             best_score :=
               default (score r)
                       (sql_min (map score (partition_of (vacancy_id r) sorted))) |})
       sorted.

(** A row of the CTE [top_vacs]. *)
Record vac_row := {
  t_vacancy_id : Z;
  t_name : string;
  t_employer_name : string;
  t_area_name : string;
  t_url : string;
  t_best_score : Q;
}.

Definition vac_row_of (r : ranked_row) : vac_row :=
  {| t_vacancy_id := vacancy_id (r_row r);
     t_name := name (r_row r);
     t_employer_name := employer_name (r_row r);
     t_area_name := area_name (r_row r);
     t_url := url (r_row r);
     t_best_score := best_score r |}.

(** Row equality of [select distinct]; numbers are compared by value. *)
Definition vac_row_eqb (a b : vac_row) : bool :=
  (t_vacancy_id a =? t_vacancy_id b)
  && bool_decide (t_name a = t_name b)
  && bool_decide (t_employer_name a = t_employer_name b)
  && bool_decide (t_area_name a = t_area_name b)
  && bool_decide (t_url a = t_url b)
  && Qeq_bool (t_best_score a) (t_best_score b).

Fixpoint distinct_from (seen : list vac_row) (l : list vac_row) : list vac_row :=
  match l with
  | [] => []
  | x :: l' =>
      if existsb (vac_row_eqb x) seen then distinct_from seen l'
      else x :: distinct_from (x :: seen) l'
  end.

Definition distinct (l : list vac_row) : list vac_row := distinct_from [] l.

Definition le_best (a b : vac_row) : bool :=
  Qle_bool (t_best_score a) (t_best_score b).

(** [top_vacs] *)
Definition top_vacs (E : SqlEngine) (k : Z) (rk : list ranked_row)
  : result (list vac_row) :=
  sql_limit k (order_by E le_best (distinct (map vac_row_of rk))).

(** A row of the final select: the columns of [r] and [t.best_score]. *)
Record out_row := {
  o_r : ranked_row;
  o_best_score : Q;
}.

(** [ranked r join top_vacs t using (vacancy_id)] *)
Definition join_top (rk : list ranked_row) (top : list vac_row) : list out_row :=
  r ← rk;
  t ← filter (λ t, t_vacancy_id t = vacancy_id (r_row r)) top;
  [ {| o_r := r; o_best_score := t_best_score t |} ].

(** [order by t.best_score asc, r.rn asc] *)
Definition le_final (a b : out_row) : bool :=
  if Qle_bool (o_best_score a) (o_best_score b) then
    if Qle_bool (o_best_score b) (o_best_score a)
    then rn (o_r a) <=? rn (o_r b)
    else true
  else false.

(** Everything after [scored], common to both statements, when every
    node runs. *)
Definition select_ranked (E : SqlEngine) (scored : list scored_row)
    (k per_vac : Z) : result (list out_row) :=
  let rk := ranked E scored in
  top ← top_vacs E k rk;
  mret (order_by E le_final
          (filter (λ o, rn (o_r o) ≤ per_vac) (join_top rk top))).

(** A statement as the executor runs it; [scored] is what running the CTE
    [scored] gives, rows or the refusal of its [LIMIT].
    - With [ranked] read first, [scored] runs; when no ranked row passes
      [rn <= per_vac] the executor may stop there, and [top_vacs] with
      its [LIMIT k] never runs.
    - With [top_vacs] read first, the count of its [LIMIT k] is computed
      first; a count of 0 ends [top_vacs] before its input is asked for a
      row, and the executor may then stop without reading [ranked], so
      that [scored] never runs.
    In every other case all nodes run. *)
Definition run_select (E : SqlEngine) (scored : result (list scored_row))
    (k per_vac : Z) : result (list out_row) :=
  match plan E with
  | RankedFirst stop =>
      rows ← scored;
      if stop && forallb (λ r, per_vac <? rn r) (ranked E rows) then Ok []
      else select_ranked E rows k per_vac
  | TopVacsFirst stop =>
      _ ← sql_limit k ([] : list vac_row);
      if stop && (k =? 0) then Ok []
      else rows ← scored; select_ranked E rows k per_vac
  end.

Definition SQL_V2_WITH_TRGM (E : SqlEngine) (db : store) (kw_weight : Q)
    (candidates k per_vac : Z) : result (list out_row) :=
  run_select E (scored_with_trgm E db kw_weight candidates) k per_vac.

Definition SQL_V2_NO_TRGM (E : SqlEngine) (db : store)
    (candidates k per_vac : Z) : result (list out_row) :=
  run_select E (scored_no_trgm E db candidates) k per_vac.

(** ** [retrieve_vacancies] *)

Record evidence := {
  ev_chunk_no : Z;
  ev_text : pystr;
  ev_dist : Q;
  ev_kw_sim : Q;
  ev_score : Q;
  ev_rank_in_vacancy : Z;
}.

(** A value of [vac_map]. *)
Record vac_item := {
  item_vacancy_id : Z;
  item_name : string;
  item_employer_name : string;
  item_area_name : string;
  item_url : string;
  item_best_score : Q;
  item_evidence : list evidence;
}.

Definition new_item (r : out_row) : vac_item :=
  {| item_vacancy_id := vacancy_id (r_row (o_r r));
     item_name := name (r_row (o_r r));
     item_employer_name := employer_name (r_row (o_r r));
     item_area_name := area_name (r_row (o_r r));
     item_url := url (r_row (o_r r));
     item_best_score := o_best_score r;
     item_evidence := [] |}.

Definition evidence_of (r : out_row) : evidence :=
  {| ev_chunk_no := chunk_no (r_row (o_r r));
     ev_text := text (r_row (o_r r));
     ev_dist := dist (r_row (o_r r));
     ev_kw_sim := kw_sim (r_row (o_r r));
     ev_score := score (r_row (o_r r));
     ev_rank_in_vacancy := rn (o_r r) |}.

Definition append_evidence (e : evidence) (it : vac_item) : vac_item :=
  {| item_vacancy_id := item_vacancy_id it;
     item_name := item_name it;
     item_employer_name := item_employer_name it;
     item_area_name := item_area_name it;
     item_url := item_url it;
     item_best_score := item_best_score it;
     item_evidence := item_evidence it ++ [e] |}.

(** One turn of [for r in rows]. *)
Definition add_row (st : gmap Z vac_item * list Z) (r : out_row)
  : gmap Z vac_item * list Z :=
  let vac_id := vacancy_id (r_row (o_r r)) in
  let '(vac_map, vac_order) := st in
  let '(vac_map, vac_order) :=
    match vac_map !! vac_id with
    | None => (<[vac_id := new_item r]> vac_map, vac_order ++ [vac_id])
    | Some _ => (vac_map, vac_order)
    end in
  (alter (append_evidence (evidence_of r)) vac_id vac_map, vac_order).

(** [[x for x in vac_order if not (x in seen or seen.add(x))]] *)
Fixpoint unique_order (seen : gset Z) (l : list Z) : list Z :=
  match l with
  | [] => []
  | x :: l' =>
      if decide (x ∈ seen) then unique_order seen l'
      else x :: unique_order ({[x]} ∪ seen) l'
  end.

(** [x > 0] on numbers *)
Definition is_positive (x : Q) : bool := negb (Qle_bool x 0).

(** The query enters through the store view ([c_dist], [c_sim]). *)
Definition retrieve_vacancies (E : SqlEngine) (db : store)
    (k per_vac candidates : Z) (kw_weight : Q)
  : result (list Z * gmap Z vac_item * bool * Q) :=
  let trgm := has_pg_trgm db in
  let kw_weight := if negb trgm then 0%Q else kw_weight in
  rows ← (if trgm && is_positive kw_weight
          then SQL_V2_WITH_TRGM E db kw_weight candidates k per_vac
          else SQL_V2_NO_TRGM E db candidates k per_vac);
  let '(vac_map, vac_order) := foldl add_row (∅, []) rows in
  let vac_order := unique_order ∅ vac_order in
  mret (vac_order, vac_map, trgm, kw_weight).

(** ** [search] *)

Record response := {
  resp_query : pystr;
  hybrid_used : bool;
  kw_weight_used : Q;
  resp_k : Z;
  resp_per_vac : Z;
  results : list vac_item;
}.

Definition format_evidence (U : Unicode) (so : SetOrder) (keywords : list pystr)
    (max_quote : Z) (do_highlight : bool) (ev : evidence) : evidence :=
  {| ev_chunk_no := ev_chunk_no ev;
     ev_text := format_quote U so keywords max_quote do_highlight (ev_text ev);
     ev_dist := ev_dist ev;
     ev_kw_sim := ev_kw_sim ev;
     ev_score := ev_score ev;
     ev_rank_in_vacancy := ev_rank_in_vacancy ev |}.

Definition format_item (U : Unicode) (so : SetOrder) (keywords : list pystr)
    (max_quote : Z) (do_highlight : bool) (item : vac_item) : vac_item :=
  {| item_vacancy_id := item_vacancy_id item;
     item_name := item_name item;
     item_employer_name := item_employer_name item;
     item_area_name := item_area_name item;
     item_url := item_url item;
     item_best_score := item_best_score item;
     item_evidence :=
       map (format_evidence U so keywords max_quote do_highlight)
           (item_evidence item) |}.

(** The body of the endpoint; the framework has validated the request
    before it runs. *)
Definition search (E : SqlEngine) (U : Unicode) (so : SetOrder) (db : store) (q : pystr)
    (k per_vac candidates : Z) (kw_weight : Q) (max_quote : Z)
    (do_highlight : bool) : result response :=
  '(vac_order, vac_map, trgm, kw_used) ←
    retrieve_vacancies E db k per_vac candidates kw_weight;
  let keywords := extract_query_keywords U (Some q) 12 in
  results ← mapM (λ vid,
                    match vac_map !! vid with
                    | Some item =>
                        Ok (format_item U so keywords max_quote do_highlight item)
                    | None => Err KeyError
                    end) vac_order;
  mret {| resp_query := q;
          hybrid_used := trgm && is_positive kw_used;
          kw_weight_used := kw_used;
          resp_k := k;
          resp_per_vac := per_vac;
          results := results |}.

(** ** Notions used to state the properties *)

Definition row_vid (o : out_row) : Z := vacancy_id (r_row (o_r o)).

(** The rows of one vacancy, in result order. *)
Definition rows_of (v : Z) (rows : list out_row) : list out_row :=
  filter (λ o, row_vid o = v) rows.

(** The rows that introduce a vacancy id not met before. *)
Fixpoint first_rows (seen : list Z) (rows : list out_row) : list out_row :=
  match rows with
  | [] => []
  | r :: rows' =>
      if decide (row_vid r ∈ seen) then first_rows seen rows'
      else r :: first_rows (row_vid r :: seen) rows'
  end.

(** The dictionary entry the loop of [retrieve_vacancies] ends with for the
    vacancy introduced by row [r0]. *)
Definition built (rows : list out_row) (r0 : out_row) : vac_item :=
  {| item_vacancy_id := vacancy_id (r_row (o_r r0));
     item_name := name (r_row (o_r r0));
     item_employer_name := employer_name (r_row (o_r r0));
     item_area_name := area_name (r_row (o_r r0));
     item_url := url (r_row (o_r r0));
     item_best_score := o_best_score r0;
     item_evidence := map evidence_of (rows_of (row_vid r0) rows) |}.

(** The weight after [if not trgm: kw_weight = 0.0]. *)
Definition effective_weight (db : store) (kw_weight : Q) : Q :=
  if negb (has_pg_trgm db) then 0%Q else kw_weight.

(** The dictionary entry of a vacancy, from its rows in result order. *)
Definition item_of (rows_v : list out_row) : option vac_item :=
  match rows_v with
  | [] => None
  | r0 :: _ =>
      Some {| item_vacancy_id := vacancy_id (r_row (o_r r0));
              item_name := name (r_row (o_r r0));
              item_employer_name := employer_name (r_row (o_r r0));
              item_area_name := area_name (r_row (o_r r0));
              item_url := url (r_row (o_r r0));
              item_best_score := o_best_score r0;
              item_evidence := map evidence_of rows_v |}
  end.

(** The best score of a partition. *)
Definition best_of (rows : list scored_row) (v : Z) : option Q :=
  sql_min (map score (partition_of v rows)).

(** The response [search] builds from the rows of the statement. *)
Definition response_of (U : Unicode) (so : SetOrder) (db : store) (q : pystr)
    (k per_vac : Z) (kw_weight : Q) (max_quote : Z) (do_highlight : bool)
    (rows : list out_row) : response :=
  {| resp_query := q;
     hybrid_used := has_pg_trgm db && is_positive (effective_weight db kw_weight);
     kw_weight_used := effective_weight db kw_weight;
     resp_k := k;
     resp_per_vac := per_vac;
     results :=
       map (λ r0, format_item U so (extract_query_keywords U (Some q) 12)
                              max_quote do_highlight (built rows r0))
           (first_rows [] rows) |}.

(** The statement [retrieve_vacancies] sends. *)
Definition statement (E : SqlEngine) (db : store) (k per_vac candidates : Z)
    (kw_weight : Q) : result (list out_row) :=
  if has_pg_trgm db && is_positive kw_weight
  then SQL_V2_WITH_TRGM E db kw_weight candidates k per_vac
  else SQL_V2_NO_TRGM E db candidates k per_vac.

(** The candidate stream [scored] of that statement. *)
Definition candidate_stream (E : SqlEngine) (db : store) (candidates : Z)
    (kw_weight : Q) : result (list scored_row) :=
  if has_pg_trgm db && is_positive kw_weight
  then scored_with_trgm E db kw_weight candidates
  else scored_no_trgm E db candidates.

(** The columns copied from [vacancies] depend on the vacancy id only. *)
Definition meta_functional (scored : list scored_row) : Prop :=
  ∀ a b, a ∈ scored → b ∈ scored → vacancy_id a = vacancy_id b →
         name a = name b ∧ employer_name a = employer_name b
         ∧ area_name a = area_name b ∧ url a = url b.

(** ** Stores of the scenarios *)

Definition mk_vacancy (n : string) : vacancy :=
  {| v_name := n; v_employer_name := "employer"; v_area_name := "area";
     v_url := "url" |}.

Definition mk_chunk (v no : Z) (t : string) (d sim : Q) : chunk :=
  {| c_vacancy_id := v; c_chunk_no := no; c_text := str t;
     c_dist := Some d; c_sim := sim |}.

(** Document A is vacancy 1 with fragments at distances 0.10 and 0.30;
    document B is vacancy 2 with one fragment at distance 0.05. *)
Definition scenario_db (trgm : bool) : store :=
  {| vacancies := <[1 := mk_vacancy "A"]> (<[2 := mk_vacancy "B"]> ∅);
     vacancy_chunks :=
       [ mk_chunk 1 0 "Senior Python developer, backend" (10 # 100) (3 # 10);
         mk_chunk 1 1 "We offer remote work" (30 # 100) 0;
         mk_chunk 2 0 "Python developer wanted" (5 # 100) (6 # 10) ];
     pg_trgm := trgm |}.

(** Its candidate stream in the distance-only statement, nearest first,
    and the rows that statement returns for [k = 2] and [per_vac = 1]. *)
Definition scenario_row (v : Z) (n : string) (no : Z) (t : string) (d : Q)
  : scored_row :=
  {| vacancy_id := v; name := n; employer_name := "employer";
     area_name := "area"; url := "url"; chunk_no := no; text := str t;
     dist := d; kw_sim := 0%Q; score := d |}.

Definition scenario_stream : list scored_row :=
  [ scenario_row 2 "B" 0 "Python developer wanted" (5 # 100);
    scenario_row 1 "A" 0 "Senior Python developer, backend" (10 # 100);
    scenario_row 1 "A" 1 "We offer remote work" (30 # 100) ].

Definition scenario_out : list out_row :=
  [ {| o_r := {| r_row := scenario_row 2 "B" 0 "Python developer wanted" (5 # 100);
                 rn := 1; best_score := (5 # 100)%Q |};
       o_best_score := (5 # 100)%Q |};
    {| o_r := {| r_row := scenario_row 1 "A" 0 "Senior Python developer, backend"
                                       (10 # 100);
                 rn := 1; best_score := (10 # 100)%Q |};
       o_best_score := (10 # 100)%Q |} ].

(** Two vacancies whose best combined scores coincide at weight 1, for
    the query "pytho x": vacancy 2 is nearer (0.25, no trigram in
    common), vacancy 1 is farther (0.5) with lexical similarity 0.25
    (5 trigrams in common out of 20). *)
Definition tie_db : store :=
  {| vacancies := <[1 := mk_vacancy "first"]> (<[2 := mk_vacancy "second"]> ∅);
     vacancy_chunks :=
       [ mk_chunk 2 0 "data engineer" (1 # 4) 0;
         mk_chunk 1 0 "python developer" (1 # 2) (1 # 4) ];
     pg_trgm := true |}.

(** The position at which an id is first met. *)
Fixpoint first_index (x : Z) (l : list Z) : option nat :=
  match l with
  | [] => None
  | y :: l' => if decide (x = y) then Some O else S <$> first_index x l'
  end.

(** [a] is met in [l], and before [b] is. *)
Definition seen_before (l : list Z) (a b : Z) : Prop :=
  match first_index a l, first_index b l with
  | Some i, Some j => (i < j)%nat
  | Some _, None => True
  | None, _ => False
  end.

(** * Further code of the repository *)

(** How often a character occurs in a text. *)
Definition occurrences (x : char) (t : pystr) : nat :=
  length (filter (λ c, c = x) t).

(** [l.count(x)] on a list of tokens. *)
Definition count_of (x : pystr) (l : list pystr) : nat :=
  length (filter (λ y, y = x) l).

(** The local [tokens] of [extract_query_keywords] after the stop-word
    filter: what the [Counter] is built from. *)
Definition query_tokens (U : Unicode) (query : option pystr) : list pystr :=
  filter (λ t, (t ∉ RU_STOP) ∧ (t ∉ EN_STOP))
         (findall_tokens U [] (lower U (or_empty query))).

(** ** [ask] *)

(** [sub in s] on strings *)
Fixpoint contains (sub s : pystr) : bool :=
  is_prefix sub s
  || match s with
     | [] => false
     | _ :: s' => contains sub s'
     end.

(** [sep.join(l)] *)
Fixpoint str_join (sep : pystr) (l : list pystr) : pystr :=
  match l with
  | [] => []
  | [x] => x
  | x :: l' => x ++ sep ++ str_join sep l'
  end.

(** An entry of [why]. *)
Record why_block := {
  why_type : pystr;
  why_items : list pystr;
}.

(** An entry of the results of [ask]: the vacancy with its formatted
    evidence, and the reasons. *)
Record ask_item := {
  ask_vacancy : vac_item;
  why : list why_block;
}.

Record summary := {
  summary_text : pystr;
  query_keywords : list pystr;
  tech_signals : list pystr;
  notes : list pystr;
}.

Record ask_response := {
  ask_query : pystr;
  ask_hybrid_used : bool;
  ask_kw_weight_used : Q;
  ask_k : Z;
  ask_per_vac : Z;
  ask_summary : summary;
  ask_results : list ask_item;
}.

(** The reasons of one vacancy, from its evidence as retrieved. *)
Definition why_of (U : Unicode) (keywords : list pystr) (item : vac_item)
  : list why_block :=
  let joined := lower U (str_join (str " ") (map ev_text (item_evidence item))) in
  let hit_kw := take 10 (filter (λ kw, contains kw joined = true) keywords) in
  let hit_tech := take 12 (extract_tech_terms U (Some joined)) in
  (if bool_decide (hit_kw = []) then []
   else [ {| why_type := str "query_match"; why_items := hit_kw |} ])
  ++ (if bool_decide (hit_tech = []) then []
      else [ {| why_type := str "tech_terms"; why_items := hit_tech |} ]).

(** One turn of the loop that builds [results]. *)
Definition ask_item_of (U : Unicode) (so : SetOrder) (keywords : list pystr)
    (max_quote : Z) (do_highlight : bool) (item : vac_item) : ask_item :=
  {| ask_vacancy := format_item U so keywords max_quote do_highlight item;
     why := why_of U keywords item |}.

(** The terms one vacancy adds to [tech_counter], in order. *)
Definition tech_terms_of (U : Unicode) (item : vac_item) : list pystr :=
  ev ← item_evidence item; extract_tech_terms U (Some (ev_text ev)).

Definition summary_of (keywords tech_signals : list pystr) : summary :=
  let summary_parts :=
    (if bool_decide (tech_signals = []) then []
     else [ str "Технологии/сигналы: " ++ str_join (str ", ") tech_signals ])
    ++ (if bool_decide (keywords = []) then []
        else [ str "Ключевые слова запроса: "
                 ++ str_join (str ", ") keywords ]) in
  {| summary_text :=
       if bool_decide (summary_parts = [])
       then str "Результаты сформированы по семантической близости и цитатам."
       else str_join (str " | ") summary_parts;
     query_keywords := keywords;
     tech_signals := tech_signals;
     notes :=
       [ str "Результаты сгруппированы по вакансиям (не по чанкам).";
         str "Цитаты — фрагменты текста вакансий, которые служат доказательствами релевантности (retrieval evidence)." ] |}.

(** The body of the endpoint. *)
Definition ask (E : SqlEngine) (U : Unicode) (so : SetOrder) (db : store) (q : pystr)
    (k per_vac candidates : Z) (kw_weight : Q) (max_quote : Z)
    (do_highlight : bool) : result ask_response :=
  '(vac_order, vac_map, trgm, kw_used) ←
    retrieve_vacancies E db k per_vac candidates kw_weight;
  let keywords := extract_query_keywords U (Some q) 12 in
  terms ← mapM (λ vid,
                  match vac_map !! vid with
                  | Some item => Ok (tech_terms_of U item)
                  | None => Err KeyError
                  end) vac_order;
  let tech_counter := Counter (concat terms) in
  let tech_signals := map fst (most_common 10 tech_counter) in
  results ← mapM (λ vid,
                    match vac_map !! vid with
                    | Some item =>
                        Ok (ask_item_of U so keywords max_quote do_highlight item)
                    | None => Err KeyError
                    end) vac_order;
  mret {| ask_query := q;
          ask_hybrid_used := trgm && is_positive kw_used;
          ask_kw_weight_used := kw_used;
          ask_k := k;
          ask_per_vac := per_vac;
          ask_summary := summary_of keywords tech_signals;
          ask_results := results |}.

(** The dictionary entries in the order of [vac_order], as the loops of
    [search] and [ask] read them. *)
Definition retrieved_items (E : SqlEngine) (db : store)
    (k per_vac candidates : Z) (kw_weight : Q)
  : result (list vac_item * bool * Q) :=
  '(vac_order, vac_map, trgm, kw_used) ←
    retrieve_vacancies E db k per_vac candidates kw_weight;
  items ← mapM (λ vid,
                  match vac_map !! vid with
                  | Some item => Ok item
                  | None => Err KeyError
                  end) vac_order;
  mret (items, trgm, kw_used).

(** The text [ask] searches for reasons: the evidence as retrieved, joined
    and lower-cased. *)
Definition joined_evidence (U : Unicode) (item : vac_item) : pystr :=
  lower U (str_join (str " ") (map ev_text (item_evidence item))).

(** ** [src/scripts/build_chunks.py] *)

(** An index of a slice brought into the text: a negative index counts
    from the end, and both ends are clipped. *)
Definition slice_index (i : Z) (n : nat) : nat :=
  Z.to_nat (if i <? 0 then Z.max 0 (i + Z.of_nat n) else Z.min i (Z.of_nat n)).

(** [t[i:j]] *)
Definition slice (i j : Z) (t : pystr) : pystr :=
  drop (slice_index i (length t)) (take (slice_index j (length t)) t).

(** The [while] loop of [chunk_text]; [fuel] bounds the number of turns,
    and [None] says that it did not suffice. *)
Fixpoint chunk_loop (fuel : nat) (text : pystr) (max_chars overlap : Z)
    (start : Z) (chunks : list pystr) : option (list pystr) :=
  match fuel with
  | O => None
  | S fuel' =>
      let n := Z.of_nat (length text) in
      if start <? n then
        let end_ := Z.min n (start + max_chars) in
        let chunks := chunks ++ [strip (slice start end_ text)] in
        if end_ =? n then Some chunks
        else chunk_loop fuel' text max_chars overlap
                        (Z.max 0 (end_ - overlap)) chunks
      else Some chunks
  end.

Definition chunk_text (fuel : nat) (text : pystr) (max_chars overlap : Z)
  : option (list pystr) :=
  let text := strip text in
  if bool_decide (text = []) then Some []
  else chunk_loop fuel text max_chars overlap 0 [].

(** What holds of every chunk of [text] when [max_chars] is not negative:
    it fits the window, has no white space at either end and is a
    contiguous part of the text. *)
Definition chunk_ok (text : pystr) (max_chars : Z) (ch : pystr) : Prop :=
  Z.of_nat (length ch) ≤ max_chars
  ∧ strip ch = ch
  ∧ ∃ a b, text = a ++ ch ++ b.

(** ** [src/scripts/ask_cli.py] *)

(** The console script carries its own copies of the helpers and of the
    two statements; the statements are those of the API word for word. *)
Module Cli.

(** The script's stop words. *)
Definition RU_STOP : list pystr := map str
  [ "и"; "в"; "во"; "на"; "по"; "к"; "ко"; "из"; "у"; "за"; "для"; "про"; "под";
    "над"; "с"; "со"; "о"; "об"; "от"; "до"; "при"; "как"; "а"; "но"; "или"; "что";
    "это"; "мы"; "вы"; "они"; "он"; "она"; "оно"; "я"; "ты"; "его"; "ее"; "их";
    "наш"; "ваш"; "требуется"; "нужен"; "нужна"; "нужны"; "ищем";
    "работа"; "вакансия"; "стажировка"; "junior"; "middle"; "senior" ]%string.

Definition EN_STOP : list pystr := map str
  [ "and"; "or"; "the"; "a"; "an"; "to"; "for"; "of"; "in"; "on"; "with"; "from"; "as"; "is"; "are"; "be";
    "this"; "that"; "job"; "vacancy"; "intern"; "internship"; "needed"; "looking" ]%string.

(** [query.lower()]: the query is a [str] here. *)
Definition extract_query_keywords (U : Unicode) (query : pystr)
    (max_words : Z) : list pystr :=
  let q := lower U query in
  let tokens := findall_tokens U [] q in
  let tokens :=
    filter (λ t, (t ∉ RU_STOP) ∧ (t ∉ EN_STOP)) tokens in
  map fst (most_common max_words (Counter tokens)).

Definition TECH_PATTERNS : list pystr := map str
  [ "\bjava\b"; "\bspring\b"; "\bspring boot\b"; "\bpython\b"; "\bgo\b";
    "\bjavascript\b"; "\btypescript\b";
    "\bsql\b"; "\bpostgres\b"; "\bpostgresql\b"; "\bclickhouse\b";
    "\bmysql\b"; "\bmongodb\b";
    "\bairflow\b"; "\bkafka\b"; "\bredis\b"; "\bkubernetes\b"; "\bdocker\b";
    "\bterraform\b";
    "\bhadoop\b"; "\bspark\b"; "\bflink\b"; "\bdatabricks\b";
    "\betl\b"; "\belt\b"; "\bdwh\b"; "\bmlops\b"; "\bci\/cd\b" ]%string.

(** The script returns [found] as it is. *)
Definition extract_tech_terms (U : Unicode) (text : option pystr)
  : list pystr :=
  let t := lower U (or_empty text) in
  map term_of
      (filter (λ p, re_search U (parse_pattern false p) t = true)
              TECH_PATTERNS).

(** A value of the script's [vac_map]: [meta] is (name, employer, area,
    url, best_score), a member of [chunks] is (chunk_no, text, dist,
    kw_sim, score). *)
Record entry := {
  meta : option (string * string * string * string * Q);
  chunks : list (Z * pystr * Q * Q * Q);
}.

(** What the [defaultdict] makes for a key it does not hold. *)
Definition default_entry : entry := {| meta := None; chunks := [] |}.

(** One turn of [for r in rows]. *)
Definition add_row (st : gmap Z entry * list Z) (r : out_row)
  : gmap Z entry * list Z :=
  let vac_id := vacancy_id (r_row (o_r r)) in
  let '(vac_map, vac_order) := st in
  let e := default default_entry (vac_map !! vac_id) in
  let '(e, vac_order) :=
    match meta e with
    | None =>
        ({| meta := Some (name (r_row (o_r r)), employer_name (r_row (o_r r)),
                          area_name (r_row (o_r r)), url (r_row (o_r r)),
                          o_best_score r);
            chunks := chunks e |},
         vac_order ++ [vac_id])
    | Some _ => (e, vac_order)
    end in
  (<[vac_id :=
       {| meta := meta e;
          chunks := chunks e ++ [ (chunk_no (r_row (o_r r)), text (r_row (o_r r)),
                                   dist (r_row (o_r r)), kw_sim (r_row (o_r r)),
                                   score (r_row (o_r r))) ] |}]> vac_map,
   vac_order).

(** The hybrid statement is sent whenever [pg_trgm] is installed, whatever
    the weight. *)
Definition retrieve (E : SqlEngine) (db : store)
    (k per_vac candidates : Z) (kw_weight : Q)
  : result (list Z * gmap Z entry * bool) :=
  let trgm := has_pg_trgm db in
  let kw_weight := if negb trgm then 0%Q else kw_weight in
  rows ← (if trgm
          then SQL_V2_WITH_TRGM E db kw_weight candidates k per_vac
          else SQL_V2_NO_TRGM E db candidates k per_vac);
  let '(vac_map, vac_order) := foldl add_row (∅, []) rows in
  let vac_order := unique_order ∅ vac_order in
  mret (vac_order, vac_map, trgm).

End Cli.

(** The script's entry for a dictionary entry of the API. *)
Definition entry_of (item : vac_item) : Cli.entry :=
  {| Cli.meta := Some (item_name item, item_employer_name item,
                       item_area_name item, item_url item,
                       item_best_score item);
     Cli.chunks :=
       map (λ ev, (ev_chunk_no ev, ev_text ev, ev_dist ev, ev_kw_sim ev,
                   ev_score ev)) (item_evidence item) |}.

(** ** [market_tech_top] *)

(** [select text from vacancy_chunks where text is not null]: the
    statement asks for no order, so the executor chooses one. *)
Definition chunk_texts (E : SqlEngine) (db : store) : list pystr :=
  map c_text (order_by E (λ _ _, true) (vacancy_chunks db)).

(** The pairs of [top] and [unique_terms]. *)
Definition market_tech_top (E : SqlEngine) (U : Unicode) (db : store)
    (limit : Z)
  : list (pystr * nat) * nat :=
  let rows := chunk_texts E db in
  let counter :=
    Counter (concat (map (λ txt, extract_tech_terms U (Some txt)) rows)) in
  (most_common limit counter, length counter).

(** ** Notions used to state the further properties *)

(** White space is a single space after a non-space; [in_run] tells that
    the previous character was a space. *)
Fixpoint single_spaced (in_run : bool) (t : pystr) : bool :=
  match t with
  | [] => true
  | c :: t' =>
      if is_space c then
        bool_decide (c = (ch " ")) && negb in_run && single_spaced true t'
      else single_spaced false t'
  end.

(** The literal characters of a pattern. *)
Definition literal (pat : list atom) : pystr :=
  omap (λ a, match a with Lit c => Some c | Bnd => None end) pat.

(** The order of [most_common]: counts do not increase. *)
Definition by_count (a b : pystr * nat) : Prop := (b.2 ≤ a.2)%nat.

(** * Properties *)

(** ** The text utilities on sample inputs *)

Example normalize_ws_sample :
  normalize_ws
    (Some (map ch [" "; " "; "a"; " "; " "; "b"; "010"; " "; "c"; "009"; " "]%char))
  = str "a b c".
Proof. by vm_compute. Qed.

(** The no-break space, the em space and the next-line control are white
    space as well. *)
Example normalize_ws_unicode_spaces :
  normalize_ws (Some ([0xA0; 97; 0xA0; 0x2003; 98; 0x85; 99; 0x3000]%N))
  = str "a b c".
Proof. by vm_compute. Qed.

Example normalize_ws_none : normalize_ws None = [].
Proof. by vm_compute. Qed.

Example extract_tech_terms_sample :
  extract_tech_terms ascii_tables (Some (str "Go developer: CI/CD, PostgreSQL, go"))
  = [str "go"; str "postgresql"; str "ci/cd"].
Proof. by vm_compute. Qed.

Example extract_query_keywords_sample :
  extract_query_keywords ascii_tables
    (Some (str "Python developer and python C++ .NET junior go sql sql")) 12
  = [str "python"; str "sql"; str "developer"; str "c++"; str ".net"].
Proof. by vm_compute. Qed.

(** The Cyrillic letters from а to я are token characters, whatever the
    tables. *)
Example findall_tokens_cyrillic (U : Unicode) :
  findall_tokens U [] (str "опыт sql, go") = [str "опыт"; str "sql"].
Proof. by vm_compute. Qed.

Example re_sub_wrap_sample :
  re_sub_wrap ascii_tables (kw_pattern (str "spring")) (str "Spring Boot, springs, spring")
  = str "[Spring] Boot, springs, [spring]".
Proof. by vm_compute. Qed.

Example re_sub_wrap_empty_keyword :
  re_sub_wrap ascii_tables (kw_pattern []) (str "ab cd!") = str "[]ab[] []cd[]!".
Proof. by vm_compute. Qed.

Example sorted_by_len_desc_sample :
  sorted_by_len_desc [str "ab"; str "cd"; str "abc"; str "x"; str "xyz"]
  = [str "abc"; str "xyz"; str "ab"; str "cd"; str "x"].
Proof. by vm_compute. Qed.

(** ** Highlighting only adds markers *)

Section markers.

Lemma strip_markers_app (a b : pystr) :
  strip_markers (a ++ b) = strip_markers a ++ strip_markers b.
Proof. apply filter_app. Qed.

Lemma strip_markers_cons_marker (c : char) (s : pystr) :
  is_marker c = true → strip_markers (c :: s) = strip_markers s.
Proof.
  intros Hc. unfold strip_markers. rewrite filter_cons_False; [done|].
  rewrite Hc. discriminate.
Qed.

Lemma strip_markers_cons (c : char) (s : pystr) :
  strip_markers (c :: s) =
  if is_marker c then strip_markers s else c :: strip_markers s.
Proof.
  unfold strip_markers. destruct (is_marker c) eqn:Hc.
  - rewrite filter_cons_False; [done|]. rewrite Hc. discriminate.
  - rewrite filter_cons_True; done.
Qed.

Lemma sub_wrap_strip (U : Unicode) (pat : list atom) (s : pystr) :
  ∀ prev inside,
    strip_markers (sub_wrap U pat prev inside s) = strip_markers s.
Proof.
  induction s as [|c s IH]; intros prev inside; simpl.
  - destruct inside; [|done]. by destruct (match_here U pat prev []).
  - assert (Hcopy : ∀ m,
      strip_markers
        (c :: match m with
              | O => (ch "]") :: sub_wrap U pat (Some c) 0 s
              | S _ => sub_wrap U pat (Some c) m s
              end) = strip_markers (c :: s)).
    { intros m. rewrite !(strip_markers_cons c).
      destruct m as [|m].
      - rewrite (strip_markers_cons_marker (ch "]")) by done.
        by rewrite IH.
      - by rewrite IH. }
    destruct inside as [|m]; [|apply Hcopy].
    destruct (match_here U pat prev (c :: s)) as [[|m]|].
    + rewrite !(strip_markers_cons_marker (ch "[")) by done.
      rewrite !(strip_markers_cons_marker (ch "]")) by done.
      rewrite !(strip_markers_cons c). by rewrite IH.
    + rewrite (strip_markers_cons_marker (ch "[")) by done. apply Hcopy.
    + rewrite !(strip_markers_cons c). by rewrite IH.
Qed.

Lemma highlight_strip (U : Unicode) (so : SetOrder) (t : pystr) (keywords : list pystr) :
  strip_markers (highlight U so t keywords) = strip_markers t.
Proof.
  unfold highlight. destruct keywords as [|kw0 kws]; [done|].
  generalize (sorted_by_len_desc (set_elements so (kw0 :: kws))).
  intros l. revert t. induction l as [|kw l IH]; intros t; simpl; [done|].
  rewrite IH. apply sub_wrap_strip.
Qed.

Lemma strip_markers_id (t : pystr) :
  Forall (λ c, is_marker c = false) t → strip_markers t = t.
Proof.
  induction 1 as [|c t Hc _ IH]; [done|].
  rewrite strip_markers_cons, Hc. by rewrite IH.
Qed.

Lemma slice_to_prefix (n : Z) (t : pystr) : slice_to n t `prefix_of` t.
Proof. unfold slice_to. destruct (n <? 0); apply prefix_take. Qed.

Lemma strip_markers_prefix (p t : pystr) :
  p `prefix_of` t → strip_markers p `prefix_of` strip_markers t.
Proof. intros [r ->]. rewrite strip_markers_app. by eexists. Qed.

End markers.

(** ** A concrete [set] order *)

Lemma first_occurrences_elem (l seen : list pystr) (x : pystr) :
  x ∈ first_occurrences seen l ↔ x ∈ l ∧ x ∉ seen.
Proof.
  revert seen. induction l as [|y l IH]; intros seen; simpl.
  - split; [by intros ?%elem_of_nil | by intros [?%elem_of_nil _]].
  - destruct (decide (y ∈ seen)) as [Hy|Hy].
    + rewrite IH, elem_of_cons. split; [tauto|].
      intros [[->|?] ?]; [done | tauto].
    + rewrite elem_of_cons, IH, not_elem_of_cons, elem_of_cons.
      destruct (decide (x = y)) as [->|Hxy]; [|tauto].
      split; [|by left]. intros _. split; [by left | done].
Qed.

Lemma first_occurrences_NoDup (l seen : list pystr) :
  NoDup (first_occurrences seen l).
Proof.
  revert seen. induction l as [|y l IH]; intros seen; simpl.
  - constructor.
  - destruct (decide (y ∈ seen)); [apply IH|].
    constructor; [|apply IH].
    rewrite first_occurrences_elem, not_elem_of_cons. tauto.
Qed.

Definition first_seen_order : SetOrder.
Proof.
  refine {| set_elements := first_occurrences [] |}.
  - intros l. apply first_occurrences_NoDup.
  - intros l x. rewrite first_occurrences_elem.
    split; [by intros [? _]|]. intros ?. split; [done|]. apply not_elem_of_nil.
Defined.

(** ** The "Spring Boot" scenario *)

Definition spring_boot_text : pystr := str "Spring Boot developer".
Definition spring_kws : list pystr := [str "spring"; str "spring boot"].

Lemma set_elements_pair (so : SetOrder) (a b : pystr) :
  a ≠ b →
  set_elements so [a; b] = [a; b] ∨ set_elements so [a; b] = [b; a].
Proof.
  intros Hab.
  assert (Hp : [a; b] ≡ₚ set_elements so [a; b]).
  { apply NoDup_Permutation.
    - apply NoDup_cons. split; [by intros ->%list_elem_of_singleton|].
      apply NoDup_singleton.
    - apply set_elements_NoDup.
    - intros x. by rewrite set_elements_spec. }
  by apply Permutation_length_2_inv in Hp.
Qed.

(** C7, as amended: on "Spring Boot developer" the technology terms are
    "spring" and then "spring boot", each once; highlighting with the two
    keywords wraps "Spring Boot" first and then the inner "Spring" again,
    whatever order the keyword set is iterated in. *)
Theorem spring_boot_scenario (U : Unicode) (so : SetOrder) :
  extract_tech_terms U (Some spring_boot_text) = [str "spring"; str "spring boot"]
  ∧ highlight U so spring_boot_text spring_kws = str "[[Spring] Boot] developer".
Proof.
  split; [by vm_compute|].
  unfold highlight, spring_kws.
  destruct (set_elements_pair so (str "spring") (str "spring boot")) as [->| ->];
    [by vm_compute| |]; by vm_compute.
Qed.

(** C7, as stated, fails: "spring" is reported next to "spring boot", and
    the highlighted text is not "[Spring Boot] developer". *)
Lemma spring_boot_scenario_fails :
  ¬ (∃ (U : Unicode) (so : SetOrder),
       (str "spring" ∉ extract_tech_terms U (Some spring_boot_text))
       ∧ highlight U so spring_boot_text spring_kws
         = str "[Spring Boot] developer").
Proof.
  intros (U & so & Hterms & _). apply Hterms.
  replace (extract_tech_terms U (Some spring_boot_text))
    with [str "spring"; str "spring boot"] by (by vm_compute).
  apply list_elem_of_here.
Qed.

Lemma spring_boot_double_wrapped :
  highlight ascii_tables first_seen_order spring_boot_text spring_kws
  ≠ str "[Spring Boot] developer".
Proof. by vm_compute. Qed.

(** ** Formatting a quote *)

Lemma slice_to_length (n : Z) (t : pystr) :
  n < Z.of_nat (length t) →
  Z.of_nat (length (slice_to n t))
  = (if n <? 0 then Z.max 0 (Z.of_nat (length t) + n) else n).
Proof.
  intros Hn. unfold slice_to.
  destruct (Z.ltb_spec n 0); rewrite length_take; lia.
Qed.

Lemma strip_markers_length (t : pystr) :
  (length (strip_markers t) ≤ length t)%nat.
Proof. apply length_filter. Qed.

(** C8, as amended: highlighting only inserts markers, so removing them
    from the highlighted text gives the normalized source without its own
    bracket characters. The formatted quote is the highlighted text when
    that fits the budget. Otherwise it is the cut of the highlighted text
    followed by "...": the cut is the first [max_quote] characters of the
    highlighted text (for a negative budget, all but its last
    [- max_quote] characters), and without its markers it is a prefix of
    the marker-free normalized source that is no longer than the cut.
    When highlighting leaves the text as it is, the quote is the
    normalized source truncated at the budget. *)
Theorem format_quote_strip_markers (U : Unicode) (so : SetOrder)
    (keywords : list pystr) (max_quote : Z) (do_highlight : bool)
    (raw : pystr) :
  let src := normalize_ws (Some raw) in
  let shown := if do_highlight then highlight U so src keywords else src in
  let cut := slice_to max_quote shown in
  strip_markers shown = strip_markers src
  ∧ (Z.of_nat (length shown) ≤ max_quote →
     format_quote U so keywords max_quote do_highlight raw = shown)
  ∧ (max_quote < Z.of_nat (length shown) →
     format_quote U so keywords max_quote do_highlight raw = cut ++ str "..."
     ∧ cut `prefix_of` shown
     ∧ Z.of_nat (length cut)
       = (if max_quote <? 0
          then Z.max 0 (Z.of_nat (length shown) + max_quote)
          else max_quote)
     ∧ strip_markers (format_quote U so keywords max_quote do_highlight raw)
       = strip_markers cut ++ str "..."
     ∧ strip_markers cut `prefix_of` strip_markers src
     ∧ (length (strip_markers cut) ≤ length cut)%nat)
  ∧ (shown = src →
     format_quote U so keywords max_quote do_highlight raw
     = truncate max_quote src).
Proof.
  intros src shown cut.
  assert (Hs : strip_markers shown = strip_markers src).
  { unfold shown. destruct do_highlight; [apply highlight_strip | done]. }
  split; [done|]. unfold format_quote. fold src. fold shown.
  split; [|split].
  - intros Hle.
    destruct (Z.gtb_spec (Z.of_nat (length shown)) max_quote); [lia|done].
  - intros Hlt.
    destruct (Z.gtb_spec (Z.of_nat (length shown)) max_quote); [|lia].
    fold cut. split; [done|].
    split; [apply slice_to_prefix|].
    split; [by apply slice_to_length|].
    split; [by rewrite strip_markers_app|].
    split; [|apply strip_markers_length].
    rewrite <- Hs. apply strip_markers_prefix, slice_to_prefix.
  - intros ->. done.
Qed.

(** C8, as stated, fails, whatever the tables and the order of the
    keyword set: the cut is made on the highlighted text, so the markers
    use up part of the budget. *)
Lemma format_quote_not_truncated_source :
  ¬ (∃ (U : Unicode) (so : SetOrder),
       ∀ (keywords : list pystr) (max_quote : Z) (raw : pystr),
         strip_markers (format_quote U so keywords max_quote true raw)
         = truncate max_quote (normalize_ws (Some raw))).
Proof.
  intros (U & so & H).
  specialize (H [str "python"] 10 (str "python developer here")).
  assert (Hset : set_elements so [str "python"] = [str "python"]).
  { pose proof (set_elements_NoDup so [str "python"]) as Hnd.
    pose proof (set_elements_spec so [str "python"]) as Hspec.
    destruct (set_elements so [str "python"]) as [|a [|b l]].
    - specialize (Hspec (str "python")).
      destruct Hspec as [_ Hin]. specialize (Hin (list_elem_of_here _ _)).
      by apply elem_of_nil in Hin.
    - f_equal. apply list_elem_of_singleton, Hspec, list_elem_of_here.
    - exfalso. apply NoDup_cons in Hnd as [Hnin _]. apply Hnin.
      assert (a = str "python") as ->
        by (apply list_elem_of_singleton, Hspec, list_elem_of_here).
      assert (b = str "python") as ->
        by (apply list_elem_of_singleton, Hspec;
            apply list_elem_of_further, list_elem_of_here).
      apply list_elem_of_here. }
  unfold format_quote, highlight in H. rewrite Hset in H.
  vm_compute in H. discriminate H.
Qed.

Example format_quote_sample :
  format_quote ascii_tables first_seen_order [str "python"] 10 true
               (str "python  developer here")
  = str "[python] d..."
  ∧ truncate 10 (normalize_ws (Some (str "python  developer here")))
    = str "python dev...".
Proof. by vm_compute. Qed.

(** Brackets of the source itself are not markers, yet removing the
    markers removes them too. *)
Example format_quote_source_brackets :
  strip_markers (format_quote ascii_tables first_seen_order [] 800 true (str "array[0] of int"))
  = str "array0 of int".
Proof. by vm_compute. Qed.

(** ** Executors *)

Section sorting.
Context {A : Type} (le : A → A → bool).

Lemma insert_sorted_perm (x : A) (l : list A) :
  insert_sorted le x l ≡ₚ x :: l.
Proof.
  induction l as [|y l IH]; simpl; [done|].
  destruct (le x y); [done|]. rewrite IH. apply Permutation_swap.
Qed.

Lemma stable_sort_perm (l : list A) : stable_sort le l ≡ₚ l.
Proof.
  induction l as [|x l IH]; simpl; [done|].
  rewrite insert_sorted_perm. by rewrite IH.
Qed.

Hypothesis le_total : ∀ x y, le x y = true ∨ le y x = true.

Lemma insert_sorted_sorted (x : A) (l : list A) :
  Sorted (λ a b, le a b = true) l →
  Sorted (λ a b, le a b = true) (insert_sorted le x l).
Proof.
  induction 1 as [|y l Hl IH Hhd]; simpl.
  - by repeat constructor.
  - destruct (le x y) eqn:Hxy.
    + constructor; [by constructor|]. by constructor.
    + constructor; [done|].
      destruct Hhd as [|z l Hyz]; simpl.
      * constructor. destruct (le_total x y); congruence.
      * destruct (le x z); constructor; [|done].
        destruct (le_total x y); congruence.
Qed.

Lemma stable_sort_sorted (l : list A) :
  Sorted (λ a b, le a b = true) (stable_sort le l).
Proof.
  induction l as [|x l IH]; simpl; [constructor|].
  by apply insert_sorted_sorted.
Qed.

End sorting.

(** An executor that sorts stably, reads [ranked] first and stops when
    no row of it passes, and computes without rounding. *)
Definition stable_engine : SqlEngine.
Proof.
  refine {| order_by := @stable_sort;
            plan := RankedFirst true;
            float_mul := Qmult;
            float_sub := Qminus |}.
  - intros A le l. apply stable_sort_perm.
  - intros A le l Htot _. by apply stable_sort_sorted.
Defined.

(** ** The grouping loop *)

Section grouping.

Lemma rows_of_app (v : Z) (p q : list out_row) :
  rows_of v (p ++ q) = rows_of v p ++ rows_of v q.
Proof. apply filter_app. Qed.

Lemma rows_of_nil_iff (v : Z) (rows : list out_row) :
  rows_of v rows = [] ↔ v ∉ map row_vid rows.
Proof.
  unfold rows_of. induction rows as [|r rows IH]; simpl.
  - split; [intros _; apply not_elem_of_nil | done].
  - rewrite not_elem_of_cons. destruct (decide (row_vid r = v)) as [Hv|Hv].
    + rewrite filter_cons_True by done. split; [done|]. intros [? _]. congruence.
    + rewrite filter_cons_False by done. rewrite IH. split; [|tauto].
      intros ?. split; [congruence | done].
Qed.

Lemma first_rows_snoc (p : list out_row) (r : out_row) :
  ∀ seen,
    first_rows seen (p ++ [r]) =
    first_rows seen p ++
      (if decide (row_vid r ∈ seen ++ map row_vid p) then [] else [r]).
Proof.
  induction p as [|x p IH]; intros seen; simpl.
  - rewrite app_nil_r. by destruct (decide (row_vid r ∈ seen)).
  - destruct (decide (row_vid x ∈ seen)).
    + rewrite IH. f_equal. apply decide_ext.
      rewrite !elem_of_app, elem_of_cons.
      split; [intros [?|?]; auto|].
      intros [?|[Heq|?]]; [by left | left; by rewrite Heq | by right].
    + rewrite IH. simpl. f_equal. f_equal. apply decide_ext.
      repeat (rewrite elem_of_app || rewrite elem_of_cons). tauto.
Qed.

Lemma first_rows_sublist (rows : list out_row) :
  ∀ seen, first_rows seen rows `sublist_of` rows.
Proof.
  induction rows as [|r rows IH]; intros seen; simpl; [done|].
  destruct (decide (row_vid r ∈ seen)).
  - by apply sublist_cons.
  - by apply sublist_skip.
Qed.

Lemma first_rows_not_seen (rows : list out_row) :
  ∀ seen r, r ∈ first_rows seen rows → row_vid r ∉ seen.
Proof.
  induction rows as [|x rows IH]; intros seen r; simpl.
  - by intros ?%elem_of_nil.
  - destruct (decide (row_vid x ∈ seen)) as [Hx|Hx]; [apply IH|].
    intros [->|Hr]%elem_of_cons; [done|].
    apply IH in Hr. rewrite not_elem_of_cons in Hr. tauto.
Qed.

Lemma first_rows_NoDup (rows : list out_row) :
  ∀ seen, NoDup (map row_vid (first_rows seen rows)).
Proof.
  induction rows as [|x rows IH]; intros seen; simpl; [constructor|].
  destruct (decide (row_vid x ∈ seen)); [apply IH|].
  simpl. constructor; [|apply IH].
  intros (r & Hr & Hin)%list_elem_of_fmap.
  apply first_rows_not_seen in Hin. rewrite not_elem_of_cons in Hin.
  destruct Hin as [Hne _]. congruence.
Qed.

Lemma first_rows_elem_vid (rows : list out_row) :
  ∀ seen v, v ∈ map row_vid rows → v ∉ seen →
            v ∈ map row_vid (first_rows seen rows).
Proof.
  induction rows as [|x rows IH]; intros seen v; simpl.
  - by intros ?%elem_of_nil.
  - intros [->|Hv]%elem_of_cons Hs.
    + destruct (decide (row_vid x ∈ seen)); [done|]. simpl. apply list_elem_of_here.
    + destruct (decide (row_vid x ∈ seen)); [by apply IH|].
      simpl. destruct (decide (v = row_vid x)) as [->|Hne].
      * apply list_elem_of_here.
      * apply list_elem_of_further, IH; [done|].
        rewrite not_elem_of_cons. tauto.
Qed.

(** A row that introduces its vacancy is the first row of that vacancy. *)
Lemma first_rows_head (rows : list out_row) :
  ∀ seen r0, r0 ∈ first_rows seen rows →
             ∃ rest, rows_of (row_vid r0) rows = r0 :: rest.
Proof.
  unfold rows_of.
  induction rows as [|x rows IH]; intros seen r0; simpl.
  - by intros ?%elem_of_nil.
  - destruct (decide (row_vid x ∈ seen)) as [Hx|Hx].
    + intros Hr. pose proof (first_rows_not_seen _ _ _ Hr) as Hns.
      rewrite filter_cons_False by congruence. by eapply IH.
    + intros [->|Hr]%elem_of_cons.
      * rewrite filter_cons_True by done. by eexists.
      * pose proof (first_rows_not_seen _ _ _ Hr) as Hns.
        rewrite not_elem_of_cons in Hns. destruct Hns as [Hne _].
        rewrite filter_cons_False by congruence. by eapply IH.
Qed.

Lemma add_rows_spec (rows : list out_row) :
  ∀ vac_map vac_order,
    foldl add_row (∅, []) rows = (vac_map, vac_order) →
    vac_order = map row_vid (first_rows [] rows)
    ∧ ∀ v, vac_map !! v = item_of (rows_of v rows).
Proof.
  induction rows as [|r p IH] using rev_ind; intros vac_map vac_order.
  - simpl. intros [= <- <-]. split; [done|]. intros v. apply lookup_empty.
  - rewrite foldl_snoc.
    destruct (foldl add_row (∅, []) p) as [m o] eqn:Hp.
    destruct (IH m o eq_refl) as [Ho Hm]. clear IH.
    unfold add_row. set (vr := vacancy_id (r_row (o_r r))).
    assert (Hvr : row_vid r = vr) by done.
    rewrite first_rows_snoc. simpl.
    pose proof (Hm vr) as Hmv.
    destruct (m !! vr) as [it|] eqn:Hlk.
    + intros [= <- <-].
      destruct (rows_of vr p) as [|r0 rest] eqn:Hrows; [done|].
      assert (Hin : row_vid r ∈ map row_vid p).
      { rewrite Hvr. destruct (decide (vr ∈ map row_vid p)) as [|Hn]; [done|].
        apply rows_of_nil_iff in Hn. congruence. }
      rewrite decide_True by done. rewrite app_nil_r. split; [done|].
      intros v. rewrite rows_of_app.
      destruct (decide (vr = v)) as [<-|Hne].
      * rewrite lookup_alter_eq, Hlk, Hrows. simpl.
        unfold rows_of at 1. rewrite filter_cons_True by done.
        rewrite filter_nil. simpl in Hmv. injection Hmv as ->. simpl.
        unfold append_evidence. simpl. by rewrite map_app.
      * rewrite lookup_alter_ne by done. rewrite Hm.
        unfold rows_of at 3. rewrite filter_cons_False by congruence.
        by rewrite filter_nil, app_nil_r.
    + intros [= <- <-].
      assert (Hnil : rows_of vr p = []).
      { by destruct (rows_of vr p). }
      assert (Hnin : row_vid r ∉ map row_vid p).
      { rewrite Hvr. by apply rows_of_nil_iff. }
      rewrite decide_False by done. rewrite map_app, Ho. split; [done|].
      intros v. rewrite rows_of_app.
      destruct (decide (vr = v)) as [<-|Hne].
      * rewrite lookup_alter_eq, lookup_insert_eq, Hnil. simpl.
        unfold rows_of. rewrite filter_cons_True by done.
        by rewrite filter_nil.
      * rewrite lookup_alter_ne, lookup_insert_ne by done. rewrite Hm.
        unfold rows_of at 3. rewrite filter_cons_False by congruence.
        by rewrite filter_nil, app_nil_r.
Qed.

Lemma unique_order_id (l : list Z) :
  ∀ seen : gset Z, NoDup l → (∀ x, x ∈ l → x ∉ seen) →
                   unique_order seen l = l.
Proof.
  induction l as [|x l IH]; intros seen Hnd Hs; simpl; [done|].
  apply NoDup_cons in Hnd as [Hx Hnd].
  rewrite decide_False by (apply Hs, list_elem_of_here).
  f_equal. apply IH; [done|]. intros y Hy.
  rewrite not_elem_of_union, not_elem_of_singleton. split.
  - intros ->. done.
  - apply Hs. by apply list_elem_of_further.
Qed.

Lemma unique_order_NoDup (l : list Z) :
  ∀ seen : gset Z, NoDup (unique_order seen l)
                   ∧ ∀ x, x ∈ unique_order seen l → x ∈ l ∧ x ∉ seen.
Proof.
  induction l as [|x l IH]; intros seen; simpl.
  - split; [constructor|]. by intros ? ?%elem_of_nil.
  - destruct (decide (x ∈ seen)) as [Hx|Hx].
    + destruct (IH seen) as [Hnd Hin]. split; [done|].
      intros y Hy. destruct (Hin y Hy). split; [by apply list_elem_of_further|done].
    + destruct (IH ({[x]} ∪ seen)) as [Hnd Hin]. split.
      * constructor; [|done]. intros Hxin. apply Hin in Hxin as [_ Hns].
        apply Hns. apply elem_of_union_l. by apply elem_of_singleton.
      * intros y [->|Hy]%elem_of_cons.
        -- split; [apply list_elem_of_here | done].
        -- apply Hin in Hy as [? Hns]. split; [by apply list_elem_of_further|].
           intros ?. apply Hns. by apply elem_of_union_r.
Qed.

End grouping.

(** ** What [search] returns, in terms of the rows of the statement *)

Section search_rows.
Context (E : SqlEngine) (U : Unicode) (so : SetOrder) (db : store) (q : pystr).
Context (k per_vac candidates : Z) (kw_weight : Q).
Context (max_quote : Z) (do_highlight : bool).

Let kw_used : Q := effective_weight db kw_weight.
Let keywords : list pystr := extract_query_keywords U (Some q) 12.

Lemma mapM_lookup_built (rows : list out_row) (vac_map : gmap Z vac_item)
    (l : list out_row) :
  (∀ v, vac_map !! v = item_of (rows_of v rows)) →
  (∀ r0, r0 ∈ l → ∃ rest, rows_of (row_vid r0) rows = r0 :: rest) →
  mapM (λ vid,
          match vac_map !! vid with
          | Some item => Ok (format_item U so keywords max_quote do_highlight item)
          | None => Err KeyError
          end) (map row_vid l)
  = Ok (map (λ r0, format_item U so keywords max_quote do_highlight (built rows r0)) l).
Proof.
  intros Hm. induction l as [|r0 l IH]; intros Hl; [done|].
  simpl. rewrite Hm.
  destruct (Hl r0) as [rest Hrest]; [apply list_elem_of_here|].
  rewrite IH by (intros ? ?; by apply Hl, list_elem_of_further).
  unfold built. rewrite Hrest. simpl. done.
Qed.

Lemma search_rows_ok (rows : list out_row) :
  statement E db k per_vac candidates kw_used = Ok rows →
  search E U so db q k per_vac candidates kw_weight max_quote do_highlight
  = Ok (response_of U so db q k per_vac kw_weight max_quote do_highlight rows).
Proof.
  unfold statement, search, retrieve_vacancies. fold (effective_weight db kw_weight).
  fold kw_used. intros ->. simpl.
  destruct (foldl add_row (∅, []) rows) as [vac_map vac_order] eqn:Hfold.
  apply add_rows_spec in Hfold as [-> Hm]. simpl.
  rewrite unique_order_id;
    [|apply first_rows_NoDup | intros; apply not_elem_of_empty].
  fold keywords.
  rewrite (mapM_lookup_built rows); [done | done |].
  intros r0. apply first_rows_head.
Qed.

Lemma search_rows_err (e : error) :
  statement E db k per_vac candidates kw_used = Err e →
  search E U so db q k per_vac candidates kw_weight max_quote do_highlight = Err e.
Proof.
  unfold statement, search, retrieve_vacancies. fold (effective_weight db kw_weight).
  fold kw_used. by intros ->.
Qed.

Lemma search_rows_inv (resp : response) :
  search E U so db q k per_vac candidates kw_weight max_quote do_highlight = Ok resp →
  ∃ rows, statement E db k per_vac candidates kw_used = Ok rows
          ∧ resp
            = response_of U so db q k per_vac kw_weight max_quote do_highlight rows.
Proof.
  destruct (statement E db k per_vac candidates kw_used) as [rows|e] eqn:Hst.
  - rewrite (search_rows_ok rows Hst). intros [= <-]. by exists rows.
  - by rewrite (search_rows_err e Hst).
Qed.

End search_rows.

(** ** The orderings of the statement *)

Section orderings.

Lemma Qle_bool_total (x y : Q) : Qle_bool x y = true ∨ Qle_bool y x = true.
Proof.
  rewrite !Qle_bool_iff. destruct (Qlt_le_dec x y) as [H|H]; [left|by right].
  by apply Qlt_le_weak.
Qed.

Lemma Qle_bool_trans (x y z : Q) :
  Qle_bool x y = true → Qle_bool y z = true → Qle_bool x z = true.
Proof. rewrite !Qle_bool_iff. apply Qle_trans. Qed.

Lemma Qle_bool_refl (x : Q) : Qle_bool x x = true.
Proof. apply Qle_bool_iff, Qle_refl. Qed.

Lemma le_dist_total (a b : scored_row) : le_dist a b = true ∨ le_dist b a = true.
Proof. apply Qle_bool_total. Qed.

Lemma le_dist_trans (a b c : scored_row) :
  le_dist a b = true → le_dist b c = true → le_dist a c = true.
Proof. apply Qle_bool_trans. Qed.

Lemma le_best_total (a b : vac_row) : le_best a b = true ∨ le_best b a = true.
Proof. apply Qle_bool_total. Qed.

Lemma le_best_trans (a b c : vac_row) :
  le_best a b = true → le_best b c = true → le_best a c = true.
Proof. apply Qle_bool_trans. Qed.

Lemma le_partition_spec (a b : scored_row) :
  le_partition a b = true ↔
  vacancy_id a < vacancy_id b
  ∨ (vacancy_id a = vacancy_id b ∧ Qle_bool (score a) (score b) = true).
Proof.
  unfold le_partition.
  rewrite orb_true_iff, andb_true_iff, Z.ltb_lt, Z.eqb_eq. done.
Qed.

Lemma le_partition_total (a b : scored_row) :
  le_partition a b = true ∨ le_partition b a = true.
Proof.
  rewrite !le_partition_spec.
  destruct (Z.lt_trichotomy (vacancy_id a) (vacancy_id b)) as [?|[Heq|?]];
    [tauto| |tauto].
  destruct (Qle_bool_total (score a) (score b)); [left|right]; right; by split.
Qed.

Lemma le_partition_trans (a b c : scored_row) :
  le_partition a b = true → le_partition b c = true → le_partition a c = true.
Proof.
  rewrite !le_partition_spec.
  intros [?|[? Hab]] [?|[? Hbc]]; [left; lia..|].
  right. split; [lia|]. by eapply Qle_bool_trans.
Qed.

Lemma le_final_spec (a b : out_row) :
  le_final a b = true ↔
  Qle_bool (o_best_score a) (o_best_score b) = true
  ∧ (Qle_bool (o_best_score b) (o_best_score a) = true →
     rn (o_r a) ≤ rn (o_r b)).
Proof.
  unfold le_final.
  destruct (Qle_bool (o_best_score a) (o_best_score b));
    destruct (Qle_bool (o_best_score b) (o_best_score a));
    rewrite ?Z.leb_le; intuition (try done).
Qed.

Lemma le_final_total (a b : out_row) :
  le_final a b = true ∨ le_final b a = true.
Proof.
  rewrite !le_final_spec.
  destruct (Qle_bool (o_best_score a) (o_best_score b)) eqn:Hab;
    destruct (Qle_bool (o_best_score b) (o_best_score a)) eqn:Hba.
  - destruct (Z.le_ge_cases (rn (o_r a)) (rn (o_r b))); [left|right]; done.
  - left. done.
  - right. done.
  - destruct (Qle_bool_total (o_best_score a) (o_best_score b)); congruence.
Qed.

Lemma le_final_trans (a b c : out_row) :
  le_final a b = true → le_final b c = true → le_final a c = true.
Proof.
  rewrite !le_final_spec. intros [Hab Hab'] [Hbc Hbc'].
  split; [by eapply Qle_bool_trans|]. intros Hca.
  assert (Qle_bool (o_best_score b) (o_best_score a) = true)
    by (by eapply Qle_bool_trans).
  assert (Qle_bool (o_best_score c) (o_best_score b) = true)
    by (by eapply Qle_bool_trans).
  etrans; [by apply Hab' | by apply Hbc'].
Qed.

End orderings.

(** ** Ordered lists *)

Section sorted_lists.
Context {A : Type} (R : A → A → Prop).

Lemma StronglySorted_sublist (l1 l2 : list A) :
  l1 `sublist_of` l2 → StronglySorted R l2 → StronglySorted R l1.
Proof.
  induction 1 as [|x l1 l2 Hsub IH|x l1 l2 Hsub IH]; intros Hs.
  - constructor.
  - apply StronglySorted_inv in Hs as [Hs Hall]. constructor; [by apply IH|].
    rewrite Forall_forall in Hall |- *. intros y Hy. apply Hall.
    by eapply elem_of_sublist.
  - apply StronglySorted_inv in Hs as [Hs _]. by apply IH.
Qed.

Lemma StronglySorted_lookup (l : list A) (i j : nat) (x y : A) :
  StronglySorted R l → l !! i = Some x → l !! j = Some y → (i < j)%nat → R x y.
Proof.
  intros Hs. revert i j. induction Hs as [|a l Hs IH Hall]; intros i j Hi Hj Hlt.
  - by rewrite lookup_nil in Hi.
  - destruct j as [|j]; [lia|]. destruct i as [|i]; simpl in *.
    + injection Hi as ->. rewrite Forall_forall in Hall. apply Hall.
      by eapply list_elem_of_lookup_2.
    + apply (IH i j); [done..|lia].
Qed.

Lemma StronglySorted_adjacent (l : list A) (i : nat) (x y : A) :
  StronglySorted R l → l !! i = Some x → l !! S i = Some y → R x y.
Proof. intros Hs Hi Hj. eapply StronglySorted_lookup; [done..|lia]. Qed.

End sorted_lists.

(** A non-decreasing list of distinct integers between [lo] and [hi] has at
    most [hi - lo + 1] members. *)
Lemma increasing_length (l : list Z) (hi : Z) :
  ∀ lo, StronglySorted Z.le l → NoDup l → (∀ x, x ∈ l → lo ≤ x ≤ hi) →
        l = [] ∨ Z.of_nat (length l) ≤ hi - lo + 1.
Proof.
  induction l as [|x l IH]; intros lo Hs Hnd Hb; [by left|right].
  apply StronglySorted_inv in Hs as [Hs Hall].
  apply NoDup_cons in Hnd as [Hx Hnd].
  rewrite Forall_forall in Hall.
  assert (lo ≤ x ≤ hi) by (apply Hb, list_elem_of_here).
  destruct (IH (x + 1) Hs Hnd) as [->|Hlen].
  - intros y Hy. assert (x ≠ y) by (by intros ->).
    pose proof (Hall y Hy). pose proof (Hb y (list_elem_of_further _ _ _ Hy)). lia.
  - simpl. lia.
  - simpl length. lia.
Qed.

(** ** What every executor guarantees *)

Section engine.
Context (E : SqlEngine) {A : Type} (le : A → A → bool).

Lemma order_by_elem (l : list A) (x : A) : x ∈ order_by E le l ↔ x ∈ l.
Proof. by rewrite (order_by_perm E). Qed.

Lemma order_by_nil : order_by E le [] = [].
Proof. apply Permutation_nil_r. apply (order_by_perm E). Qed.

Hypothesis le_total : ∀ x y, le x y = true ∨ le y x = true.
Hypothesis le_trans : ∀ x y z, le x y = true → le y z = true → le x z = true.

Lemma order_by_strongly_sorted (l : list A) :
  StronglySorted (λ x y, le x y = true) (order_by E le l).
Proof.
  apply Sorted_StronglySorted.
  - intros x y z. apply le_trans.
  - by apply order_by_sorted.
Qed.

(** Rows whose keys are pairwise different leave the executor no choice. *)
Lemma strictly_sorted_unique (l1 l2 : list A) :
  strictly_sorted le l1 = true →
  StronglySorted (λ x y, le x y = true) l2 →
  l1 ≡ₚ l2 → l1 = l2.
Proof.
  revert l2. induction l1 as [|x l1 IH]; intros l2 Hstrict Hs Hp.
  - symmetry. by apply Permutation_nil.
  - simpl in Hstrict. apply andb_true_iff in Hstrict as [Hx Hstrict].
    rewrite forallb_forall in Hx.
    destruct Hs as [|y l2 Hs Hall].
    { by apply Permutation_nil_r in Hp. }
    rewrite Forall_forall in Hall.
    assert (x = y) as <-.
    { assert (Hyin : y ∈ x :: l1) by (rewrite Hp; apply list_elem_of_here).
      assert (Hxin : x ∈ y :: l2) by (rewrite <- Hp; apply list_elem_of_here).
      apply elem_of_cons in Hyin as [->|Hyin]; [done|].
      apply elem_of_cons in Hxin as [->|Hxin]; [done|].
      apply list_elem_of_In, Hx in Hyin. rewrite (Hall x Hxin) in Hyin. done. }
    f_equal. apply IH; [done..|]. by apply Permutation_cons_inv in Hp.
Qed.

Lemma order_by_stable (l : list A) :
  strictly_sorted le (stable_sort le l) = true →
  order_by E le l = stable_sort le l.
Proof.
  intros Hstrict. symmetry. apply strictly_sorted_unique; [done| |].
  - apply order_by_strongly_sorted.
  - by rewrite stable_sort_perm, (order_by_perm E).
Qed.

End engine.

(** ** The window columns of [ranked] *)

Lemma qmin_cases (a b : Q) :
  (qmin a b = a ∧ (a <= b)%Q) ∨ (qmin a b = b ∧ (b <= a)%Q).
Proof.
  unfold qmin. destruct (Qle_bool a b) eqn:Hab.
  - left. split; [done|]. by apply Qle_bool_iff.
  - right. split; [done|].
    destruct (Qle_bool_total a b) as [?|?%Qle_bool_iff]; [congruence|done].
Qed.

Lemma foldl_qmin_spec (l : list Q) :
  ∀ d, foldl qmin d l ∈ d :: l
       ∧ ∀ x, x ∈ d :: l → (foldl qmin d l <= x)%Q.
Proof.
  induction l as [|y l IH]; intros d; simpl.
  - split; [apply list_elem_of_here|].
    intros x ->%list_elem_of_singleton. apply Qle_refl.
  - destruct (IH (qmin d y)) as [Hin Hle]. split.
    + apply elem_of_cons in Hin as [->|Hin].
      * destruct (qmin_cases d y) as [[-> _]|[-> _]].
        -- apply list_elem_of_here.
        -- apply list_elem_of_further, list_elem_of_here.
      * by do 2 apply list_elem_of_further.
    + assert (Hm : (foldl qmin (qmin d y) l <= qmin d y)%Q)
        by apply Hle, list_elem_of_here.
      intros x [->|[->|Hx]%elem_of_cons]%elem_of_cons.
      * eapply Qle_trans; [exact Hm|].
        destruct (qmin_cases d y) as [[-> ?]|[-> ?]]; [apply Qle_refl|done].
      * eapply Qle_trans; [exact Hm|].
        destruct (qmin_cases d y) as [[-> ?]|[-> ?]]; [done|apply Qle_refl].
      * by apply Hle, list_elem_of_further.
Qed.

Lemma sql_min_spec (l : list Q) (m : Q) :
  sql_min l = Some m → m ∈ l ∧ ∀ x, x ∈ l → (m <= x)%Q.
Proof.
  destruct l as [|d l]; [done|]. simpl. intros [= <-]. apply foldl_qmin_spec.
Qed.

Section ranked_facts.
Context (E : SqlEngine) (scored : list scored_row).

Let sorted : list scored_row := order_by E le_partition scored.

Lemma sorted_strongly :
  StronglySorted (λ a b, le_partition a b = true) sorted.
Proof.
  apply order_by_strongly_sorted;
    [apply le_partition_total | apply le_partition_trans].
Qed.

Lemma ranked_lookup (i : nat) (r : ranked_row) :
  ranked E scored !! i = Some r →
  sorted !! i = Some (r_row r)
  ∧ rn r = 1 + Z.of_nat (length (partition_of (vacancy_id (r_row r)) (take i sorted)))
  ∧ best_of sorted (vacancy_id (r_row r)) = Some (best_score r).
Proof.
  unfold ranked. fold sorted. rewrite list_lookup_imap.
  destruct (sorted !! i) as [c|] eqn:Hc; simpl; [|done].
  intros [= <-]. simpl. split; [done|]. split; [done|].
  unfold best_of.
  assert (Hin : c ∈ partition_of (vacancy_id c) sorted).
  { apply list_elem_of_filter. split; [done|]. by eapply list_elem_of_lookup_2. }
  destruct (partition_of (vacancy_id c) sorted) as [|c0 part]; [|done].
  by apply elem_of_nil in Hin.
Qed.

Lemma ranked_elem (r : ranked_row) :
  r ∈ ranked E scored → r_row r ∈ scored.
Proof.
  intros [i Hi]%list_elem_of_lookup_1. apply ranked_lookup in Hi as [Hi _].
  apply list_elem_of_lookup_2 in Hi. by apply (order_by_elem E) in Hi.
Qed.

Lemma ranked_elem_inv (c : scored_row) :
  c ∈ scored → ∃ r, r ∈ ranked E scored ∧ r_row r = c.
Proof.
  intros Hc. apply (order_by_elem E le_partition) in Hc.
  apply list_elem_of_lookup_1 in Hc as [i Hi].
  assert (Hr : is_Some (ranked E scored !! i)).
  { apply lookup_lt_is_Some. unfold ranked. rewrite length_imap.
    by eapply lookup_lt_Some. }
  destruct Hr as [r Hr]. exists r. split; [by eapply list_elem_of_lookup_2|].
  apply ranked_lookup in Hr as [Hr _]. fold sorted in Hi. congruence.
Qed.

Lemma ranked_best (r : ranked_row) :
  r ∈ ranked E scored →
  best_of sorted (vacancy_id (r_row r)) = Some (best_score r).
Proof.
  intros [i Hi]%list_elem_of_lookup_1. by apply ranked_lookup in Hi as (_ & _ & ?).
Qed.

(** The best score of a vacancy is attained by one of its candidate
    fragments and is below all of them. *)
Lemma ranked_best_min (r : ranked_row) :
  r ∈ ranked E scored →
  (∃ c, c ∈ scored ∧ vacancy_id c = vacancy_id (r_row r)
        ∧ score c = best_score r)
  ∧ (∀ c, c ∈ scored → vacancy_id c = vacancy_id (r_row r) →
          (best_score r <= score c)%Q).
Proof.
  intros Hr. apply ranked_best, sql_min_spec in Hr as [Hin Hle]. split.
  - apply list_elem_of_fmap in Hin as (c & Hc & Hcin).
    apply list_elem_of_filter in Hcin as [Hv Hcin].
    apply (order_by_elem E) in Hcin. by exists c.
  - intros c Hc Hv. apply Hle, list_elem_of_fmap. exists c. split; [done|].
    apply list_elem_of_filter. split; [done|]. by apply (order_by_elem E).
Qed.

Lemma ranked_best_functional (r1 r2 : ranked_row) :
  r1 ∈ ranked E scored → r2 ∈ ranked E scored →
  vacancy_id (r_row r1) = vacancy_id (r_row r2) →
  best_score r1 = best_score r2.
Proof.
  intros H1%ranked_best H2%ranked_best Hv. rewrite Hv in H1. congruence.
Qed.

Lemma ranked_rn_pos (r : ranked_row) : r ∈ ranked E scored → 1 ≤ rn r.
Proof.
  intros [i Hi]%list_elem_of_lookup_1. apply ranked_lookup in Hi as (_ & -> & _).
  lia.
Qed.

(** Later rows of a partition have larger row numbers. *)
Lemma ranked_rn_lt (i j : nat) (r1 r2 : ranked_row) :
  ranked E scored !! i = Some r1 → ranked E scored !! j = Some r2 →
  vacancy_id (r_row r1) = vacancy_id (r_row r2) → (i < j)%nat →
  rn r1 < rn r2.
Proof.
  intros (Hi & -> & _)%ranked_lookup (Hj & -> & _)%ranked_lookup Hv Hlt.
  rewrite <- Hv.
  assert (Htake : take j sorted
                  = take i sorted ++ r_row r1 :: drop (S i) (take j sorted)).
  { rewrite <- (take_drop (S i) (take j sorted)) at 1.
    rewrite take_take, Nat.min_l by lia.
    rewrite (take_S_r _ _ _ Hi). by rewrite <- app_assoc. }
  rewrite Htake. unfold partition_of. rewrite filter_app, length_app.
  rewrite filter_cons_True by done. simpl. lia.
Qed.

Lemma ranked_rn_inj (r1 r2 : ranked_row) :
  r1 ∈ ranked E scored → r2 ∈ ranked E scored →
  vacancy_id (r_row r1) = vacancy_id (r_row r2) → rn r1 = rn r2 → r1 = r2.
Proof.
  intros [i Hi]%list_elem_of_lookup_1 [j Hj]%list_elem_of_lookup_1 Hv Hrn.
  destruct (Nat.lt_trichotomy i j) as [Hlt|[->|Hlt]].
  - pose proof (ranked_rn_lt i j r1 r2 Hi Hj Hv Hlt). lia.
  - congruence.
  - pose proof (ranked_rn_lt j i r2 r1 Hj Hi (eq_sym Hv) Hlt). lia.
Qed.

(** Within a partition the row numbers follow the scores. *)
Lemma ranked_rn_score (r1 r2 : ranked_row) :
  r1 ∈ ranked E scored → r2 ∈ ranked E scored →
  vacancy_id (r_row r1) = vacancy_id (r_row r2) → rn r1 ≤ rn r2 →
  (score (r_row r1) <= score (r_row r2))%Q.
Proof.
  intros [i Hi]%list_elem_of_lookup_1 [j Hj]%list_elem_of_lookup_1 Hv Hrn.
  destruct (Nat.lt_trichotomy i j) as [Hlt|[->|Hlt]].
  - pose proof (ranked_lookup _ _ Hi) as [Hi' _].
    pose proof (ranked_lookup _ _ Hj) as [Hj' _].
    pose proof (StronglySorted_lookup _ _ _ _ _ _ sorted_strongly Hi' Hj' Hlt)
      as Hle.
    apply le_partition_spec in Hle as [?|[_ Hle]]; [lia|].
    by apply Qle_bool_iff.
  - assert (r1 = r2) as -> by congruence. apply Qle_refl.
  - pose proof (ranked_rn_lt j i r2 r1 Hj Hi (eq_sym Hv) Hlt). lia.
Qed.

Lemma ranked_NoDup : NoDup (ranked E scored).
Proof.
  apply NoDup_alt. intros i j r Hi Hj.
  destruct (Nat.lt_trichotomy i j) as [Hlt|[->|Hlt]]; [|done|].
  - pose proof (ranked_rn_lt i j r r Hi Hj eq_refl Hlt). lia.
  - pose proof (ranked_rn_lt j i r r Hj Hi eq_refl Hlt). lia.
Qed.

End ranked_facts.

(** ** [top_vacs] and the final join *)

Lemma vac_row_eqb_refl (a : vac_row) : vac_row_eqb a a = true.
Proof.
  unfold vac_row_eqb. rewrite Z.eqb_refl, !bool_decide_eq_true_2 by done.
  simpl. apply Qeq_bool_iff, Qeq_refl.
Qed.

Lemma distinct_from_spec (l : list vac_row) :
  ∀ seen,
    (∀ a b, a ∈ seen ++ l → b ∈ seen ++ l →
            t_vacancy_id a = t_vacancy_id b → a = b) →
    NoDup (map t_vacancy_id (distinct_from seen l))
    ∧ ∀ x, x ∈ distinct_from seen l →
           x ∈ l ∧ t_vacancy_id x ∉ map t_vacancy_id seen.
Proof.
  induction l as [|x l IH]; intros seen Hfun; simpl.
  - split; [constructor|]. by intros ? ?%elem_of_nil.
  - destruct (existsb (vac_row_eqb x) seen) eqn:Hex.
    + destruct (IH seen) as [Hnd Hin].
      { intros a b Ha Hb. apply Hfun.
        - rewrite elem_of_app, elem_of_cons. apply elem_of_app in Ha. tauto.
        - rewrite elem_of_app, elem_of_cons. apply elem_of_app in Hb. tauto. }
      split; [done|]. intros y Hy. destruct (Hin y Hy).
      split; [by apply list_elem_of_further | done].
    + destruct (IH (x :: seen)) as [Hnd Hin].
      { intros a b Ha Hb. apply Hfun.
        - rewrite elem_of_app, elem_of_cons.
          rewrite elem_of_app, elem_of_cons in Ha. tauto.
        - rewrite elem_of_app, elem_of_cons.
          rewrite elem_of_app, elem_of_cons in Hb. tauto. }
      split.
      * simpl. constructor; [|done].
        intros (y & Hy & Hyin)%list_elem_of_fmap.
        apply Hin in Hyin as [_ Hns]. apply Hns. simpl. rewrite Hy.
        apply list_elem_of_here.
      * intros y [->|Hy]%elem_of_cons.
        -- split; [apply list_elem_of_here|].
           intros (s & Hs & Hsin)%list_elem_of_fmap.
           assert (x = s) as <-.
           { apply Hfun; [|by apply elem_of_app; left|done].
             apply elem_of_app. right. apply list_elem_of_here. }
           assert (existsb (vac_row_eqb x) seen = true); [|congruence].
           apply existsb_exists. exists x.
           split; [by apply list_elem_of_In | apply vac_row_eqb_refl].
        -- apply Hin in Hy as [? Hns]. split; [by apply list_elem_of_further|].
           intros ?. apply Hns. simpl. by apply list_elem_of_further.
Qed.

Lemma filter_key_unique {A} (key : A → Z) (v : Z) (l : list A) :
  NoDup (map key l) → (length (filter (λ t, key t = v) l) ≤ 1)%nat.
Proof.
  induction l as [|x l IH]; simpl; [lia|].
  intros [Hx Hnd]%NoDup_cons. specialize (IH Hnd).
  destruct (decide (key x = v)) as [Hv|Hv].
  - rewrite filter_cons_True by done. simpl.
    destruct (filter (λ t, key t = v) l) as [|y ?] eqn:Hf; [done|].
    exfalso. apply Hx.
    assert (Hy : y ∈ filter (λ t, key t = v) l) by (rewrite Hf; apply list_elem_of_here).
    apply list_elem_of_filter in Hy as [Hyv Hy].
    apply list_elem_of_fmap. exists y. split; [congruence | done].
  - by rewrite filter_cons_False.
Qed.

Section rows_facts.
Context (E : SqlEngine) (scored : list scored_row).
Context (Hmeta : meta_functional scored).
Context (k per_vac : Z) (rows : list out_row).
Context (Hrows : select_ranked E scored k per_vac = Ok rows).

Let rk : list ranked_row := ranked E scored.

Lemma vac_row_functional (r1 r2 : ranked_row) :
  r1 ∈ rk → r2 ∈ rk → vacancy_id (r_row r1) = vacancy_id (r_row r2) →
  vac_row_of r1 = vac_row_of r2.
Proof.
  intros H1 H2 Hv. unfold vac_row_of.
  rewrite (ranked_best_functional E scored r1 r2 H1 H2 Hv).
  destruct (Hmeta (r_row r1) (r_row r2)) as (-> & -> & -> & ->);
    [by apply (ranked_elem E)..|done|].
  by rewrite Hv.
Qed.

Lemma sql_limit_inv {A} (n : Z) (l l' : list A) :
  sql_limit n l = Ok l' → 0 ≤ n ≤ int8_max ∧ l' = take (Z.to_nat n) l.
Proof.
  unfold sql_limit. destruct (Z.ltb_spec n 0); [done|].
  destruct (Z.ltb_spec int8_max n); [done|]. intros [= <-]. split; [lia|done].
Qed.

Lemma select_ranked_inv :
  ∃ top, top_vacs E k rk = Ok top
         ∧ rows = order_by E le_final
                    (filter (λ o, rn (o_r o) ≤ per_vac) (join_top rk top)).
Proof.
  unfold select_ranked in Hrows. fold rk in Hrows.
  destruct (top_vacs E k rk) as [top|e]; [|done].
  simpl in Hrows. injection Hrows as <-. by exists top.
Qed.

Lemma top_vacs_spec (top : list vac_row) :
  top_vacs E k rk = Ok top →
  NoDup (map t_vacancy_id top)
  ∧ ∀ t, t ∈ top → ∃ r, r ∈ rk ∧ t = vac_row_of r.
Proof.
  unfold top_vacs. intros [_ ->]%sql_limit_inv.
  destruct (distinct_from_spec (map vac_row_of rk) []) as [Hnd Hin].
  { simpl. intros a b (r1 & -> & H1)%list_elem_of_fmap
                      (r2 & -> & H2)%list_elem_of_fmap Hv.
    by apply vac_row_functional. }
  split.
  - apply (sublist_NoDup _
             (map t_vacancy_id (order_by E le_best (distinct (map vac_row_of rk))))).
    + by rewrite (order_by_perm E).
    + apply fmap_sublist, sublist_take.
  - intros t Ht%elem_of_take. destruct Ht as (i & Ht%list_elem_of_lookup_2 & _).
    apply (order_by_elem E) in Ht. apply Hin in Ht as [Ht _].
    apply list_elem_of_fmap in Ht as (r & -> & Hr). by exists r.
Qed.

Lemma join_top_sublist (top : list vac_row) (l : list ranked_row) :
  NoDup (map t_vacancy_id top) →
  map o_r (join_top l top) `sublist_of` l.
Proof.
  intros Hnd. unfold join_top. induction l as [|r l IH]; [done|].
  rewrite bind_cons, map_app.
  pose proof (filter_key_unique t_vacancy_id (vacancy_id (r_row r)) top Hnd) as Hlen.
  destruct (filter (λ t, t_vacancy_id t = vacancy_id (r_row r)) top)
    as [|t [|t' ?]]; simpl in *; [|by apply sublist_skip|lia].
  by apply sublist_cons.
Qed.

Lemma join_top_elem (top : list vac_row) (o : out_row) :
  (∀ t, t ∈ top → ∃ r, r ∈ rk ∧ t = vac_row_of r) →
  o ∈ join_top rk top →
  o_r o ∈ rk ∧ o_best_score o = best_score (o_r o).
Proof.
  intros Htop. unfold join_top.
  intros (r & Ho & Hr)%list_elem_of_bind.
  apply list_elem_of_bind in Ho as (t & Ho & Ht).
  apply list_elem_of_singleton in Ho as ->. simpl. split; [done|].
  apply list_elem_of_filter in Ht as [Hv Ht].
  destruct (Htop t Ht) as (r' & Hr' & ->). simpl in *.
  by apply (ranked_best_functional E scored).
Qed.

Lemma rows_strongly_sorted :
  StronglySorted (λ a b, le_final a b = true) rows.
Proof.
  destruct select_ranked_inv as (top & _ & ->).
  apply order_by_strongly_sorted; [apply le_final_total | apply le_final_trans].
Qed.

Lemma rows_elem (o : out_row) :
  o ∈ rows →
  o_r o ∈ rk ∧ o_best_score o = best_score (o_r o) ∧ rn (o_r o) ≤ per_vac.
Proof.
  destruct select_ranked_inv as (top & Htop & ->).
  intros Ho%(order_by_elem E). apply list_elem_of_filter in Ho as [Hrn Ho].
  apply top_vacs_spec in Htop as [_ Htop].
  destruct (join_top_elem top o Htop Ho). done.
Qed.

Lemma rows_NoDup : NoDup (map o_r rows).
Proof.
  destruct select_ranked_inv as (top & Htop & ->).
  rewrite (order_by_perm E).
  apply top_vacs_spec in Htop as [Hnd _].
  apply (sublist_NoDup _ rk); [apply (ranked_NoDup E scored)|].
  etrans; [apply fmap_sublist, sublist_filter|].
  by apply join_top_sublist.
Qed.

(** Rows of one vacancy carry the same best score. *)
Lemma rows_best_functional (a b : out_row) :
  a ∈ rows → b ∈ rows → row_vid a = row_vid b →
  o_best_score a = o_best_score b.
Proof.
  intros (Ha & -> & _)%rows_elem (Hb & -> & _)%rows_elem Hv.
  by apply (ranked_best_functional E scored).
Qed.

End rows_facts.

(** ** The candidate stream *)

Lemma sql_limit_ok {A} (n : Z) (l : list A) :
  0 ≤ n ≤ int8_max → sql_limit n l = Ok (take (Z.to_nat n) l).
Proof.
  intros Hn. unfold sql_limit. destruct (Z.ltb_spec n 0); [lia|].
  by destruct (Z.ltb_spec int8_max n); [lia|].
Qed.

Lemma sql_limit_all {A} (n : Z) (l : list A) :
  Z.of_nat (length l) ≤ n ≤ int8_max → sql_limit n l = Ok l.
Proof.
  intros Hn. rewrite sql_limit_ok by lia. f_equal. apply take_ge. lia.
Qed.

Lemma bind_Ok {A B} (x : A) (f : A → result B) : Ok x ≫= f = f x.
Proof. reflexivity. Qed.


Section stream_facts.
Context (E : SqlEngine) (db : store).

Lemma joined_elem (c : chunk) (v : vacancy) (d : Q) :
  (c, v, d) ∈ joined db →
  vacancies db !! c_vacancy_id c = Some v ∧ c_dist c = Some d.
Proof.
  unfold joined. intros (c' & _ & Hc)%list_elem_of_omap.
  destruct (vacancies db !! c_vacancy_id c') as [v'|] eqn:Hv; [|done].
  destruct (c_dist c') as [d'|] eqn:Hd; [|done].
  simpl in Hc. injection Hc as -> -> ->. done.
Qed.

Lemma limit_order_elem {A} (le : A → A → bool) (n : Z) (l l' : list A) (x : A) :
  sql_limit n (order_by E le l) = Ok l' → x ∈ l' → x ∈ l.
Proof.
  intros [_ ->]%sql_limit_inv (i & Hx%list_elem_of_lookup_2 & _)%elem_of_take.
  by apply (order_by_elem E) in Hx.
Qed.

Lemma scored_no_trgm_elem (candidates : Z) (scored : list scored_row)
    (r : scored_row) :
  scored_no_trgm E db candidates = Ok scored → r ∈ scored →
  score r = dist r ∧ kw_sim r = 0%Q
  ∧ vacancies db !! vacancy_id r
    = Some {| v_name := name r; v_employer_name := employer_name r;
              v_area_name := area_name r; v_url := url r |}.
Proof.
  unfold scored_no_trgm. intros Hl Hr.
  apply (limit_order_elem _ _ _ _ _ Hl) in Hr.
  apply list_elem_of_fmap in Hr as ([[c v] d] & -> & Hin). simpl.
  apply joined_elem in Hin as [-> _]. by destruct v.
Qed.

Lemma scored_with_trgm_elem (kw_weight : Q) (candidates : Z)
    (scored : list scored_row) (r : scored_row) :
  scored_with_trgm E db kw_weight candidates = Ok scored → r ∈ scored →
  score r = float_sub E (dist r) (float_mul E kw_weight (kw_sim r))
  ∧ vacancies db !! vacancy_id r
    = Some {| v_name := name r; v_employer_name := employer_name r;
              v_area_name := area_name r; v_url := url r |}.
Proof.
  unfold scored_with_trgm. intros Hl Hr.
  apply (limit_order_elem _ _ _ _ _ Hl) in Hr.
  apply list_elem_of_fmap in Hr as ([[c v] d] & -> & Hin). simpl.
  apply joined_elem in Hin as [-> _]. by destruct v.
Qed.

Lemma candidate_stream_meta (candidates : Z) (kw_weight : Q)
    (scored : list scored_row) :
  candidate_stream E db candidates kw_weight = Ok scored →
  meta_functional scored.
Proof.
  unfold candidate_stream. intros Hs a b Ha Hb Hv.
  assert (Hrow : ∀ r, r ∈ scored →
            vacancies db !! vacancy_id r
            = Some {| v_name := name r; v_employer_name := employer_name r;
                      v_area_name := area_name r; v_url := url r |}).
  { intros r Hr. destruct (has_pg_trgm db && is_positive kw_weight).
    - by destruct (scored_with_trgm_elem _ _ _ r Hs Hr).
    - by destruct (scored_no_trgm_elem _ _ r Hs Hr) as (_ & _ & ?). }
  pose proof (Hrow a Ha) as Hva. pose proof (Hrow b Hb) as Hvb.
  rewrite Hv, Hvb in Hva. by injection Hva as -> -> -> ->.
Qed.

(** What a statement returns is empty or comes from its candidates with
    every node run. *)
Lemma run_select_inv (scored : result (list scored_row)) (k per_vac : Z)
    (rows : list out_row) :
  run_select E scored k per_vac = Ok rows →
  rows = []
  ∨ ∃ l, scored = Ok l ∧ select_ranked E l k per_vac = Ok rows.
Proof.
  unfold run_select. destruct (plan E) as [stop|stop].
  - destruct scored as [l|e]; [|done]. rewrite bind_Ok.
    destruct (stop && forallb (λ r, per_vac <? rn r) (ranked E l)).
    + intros [= <-]. by left.
    + intros Hsel. right. by exists l.
  - destruct (sql_limit k []) as [?|?]; [|done]. rewrite bind_Ok.
    destruct (stop && (k =? 0)).
    + intros [= <-]. by left.
    + destruct scored as [l|e]; [|done]. rewrite bind_Ok.
      intros Hsel. right. by exists l.
Qed.

Lemma statement_run_select (k per_vac candidates : Z) (kw_weight : Q) :
  statement E db k per_vac candidates kw_weight
  = run_select E (candidate_stream E db candidates kw_weight) k per_vac.
Proof.
  unfold statement, candidate_stream, SQL_V2_WITH_TRGM, SQL_V2_NO_TRGM.
  by destruct (has_pg_trgm db && is_positive kw_weight).
Qed.

Lemma statement_inv (k per_vac candidates : Z) (kw_weight : Q)
    (rows : list out_row) :
  statement E db k per_vac candidates kw_weight = Ok rows →
  rows = []
  ∨ ∃ scored, candidate_stream E db candidates kw_weight = Ok scored
              ∧ select_ranked E scored k per_vac = Ok rows.
Proof. rewrite statement_run_select. apply run_select_inv. Qed.

End stream_facts.

(** ** The result of [search] *)

Lemma StronglySorted_fmap_impl {A B} (R : A → A → Prop) (R' : B → B → Prop)
    (f : A → B) (l : list A) :
  (∀ a b, a ∈ l → b ∈ l → R a b → R' (f a) (f b)) →
  StronglySorted R l → StronglySorted R' (map f l).
Proof.
  intros Himpl Hs. induction Hs as [|x l Hs IH Hall]; simpl; constructor.
  - apply IH. intros a b Ha Hb. apply Himpl; by apply list_elem_of_further.
  - rewrite Forall_forall in Hall. apply Forall_forall.
    intros y (a & -> & Ha)%list_elem_of_fmap.
    apply Himpl; [apply list_elem_of_here | by apply list_elem_of_further|].
    by apply Hall.
Qed.

Section search_facts.
Context (E : SqlEngine) (U : Unicode) (so : SetOrder) (db : store) (q : pystr).
Context (k per_vac candidates : Z) (kw_weight : Q).
Context (max_quote : Z) (do_highlight : bool).
Context (resp : response).
Context (Hsearch :
  search E U so db q k per_vac candidates kw_weight max_quote do_highlight
  = Ok resp).

Let kw_used : Q := effective_weight db kw_weight.
Let keywords : list pystr := extract_query_keywords U (Some q) 12.

Lemma search_inv :
  ∃ rows,
    resp = response_of U so db q k per_vac kw_weight max_quote do_highlight rows
    ∧ (rows = []
       ∨ ∃ scored,
           candidate_stream E db candidates kw_used = Ok scored
           ∧ select_ranked E scored k per_vac = Ok rows
           ∧ meta_functional scored).
Proof.
  destruct (search_rows_inv _ _ _ _ _ _ _ _ _ _ _ _ Hsearch) as (rows & Hst & ->).
  exists rows. split; [done|].
  apply statement_inv in Hst as [->|(scored & Hsc & Hsel)]; [by left|].
  right. exists scored. split; [done|]. split; [done|].
  by eapply candidate_stream_meta.
Qed.

(** A response with a result comes from candidates, with every node of
    the statement run. *)
Lemma search_inv_item (item : vac_item) :
  item ∈ results resp →
  ∃ scored rows,
    candidate_stream E db candidates kw_used = Ok scored
    ∧ select_ranked E scored k per_vac = Ok rows
    ∧ meta_functional scored
    ∧ resp = response_of U so db q k per_vac kw_weight max_quote do_highlight rows.
Proof.
  destruct search_inv as (rows & -> & [->|(scored & Hsc & Hsel & Hmeta)]).
  - by intros ?%elem_of_nil.
  - intros _. by exists scored, rows.
Qed.

Lemma results_vids (rows : list out_row) :
  map item_vacancy_id
      (results (response_of U so db q k per_vac kw_weight max_quote do_highlight rows))
  = map row_vid (first_rows [] rows).
Proof. simpl. rewrite <- list_fmap_compose. done. Qed.

Lemma results_best (rows : list out_row) :
  map item_best_score
      (results (response_of U so db q k per_vac kw_weight max_quote do_highlight rows))
  = map o_best_score (first_rows [] rows).
Proof. simpl. rewrite <- list_fmap_compose. done. Qed.

Lemma results_elem (rows : list out_row) (item : vac_item) :
  item ∈ results
           (response_of U so db q k per_vac kw_weight max_quote do_highlight rows) →
  ∃ r0 rest,
    r0 ∈ rows ∧ rows_of (row_vid r0) rows = r0 :: rest
    ∧ item_vacancy_id item = row_vid r0
    ∧ item_best_score item = o_best_score r0
    ∧ item_evidence item
      = map (format_evidence U so keywords max_quote do_highlight)
            (map evidence_of (rows_of (row_vid r0) rows)).
Proof.
  simpl. intros (r0 & -> & Hr0)%list_elem_of_fmap.
  destruct (first_rows_head _ _ _ Hr0) as [rest Hrest].
  exists r0, rest. split; [|done].
  eapply elem_of_sublist; [exact Hr0 | apply first_rows_sublist].
Qed.

(** The evidence of a result comes from rows of the candidate stream. *)
Lemma evidence_source (item : vac_item) (ev : evidence) :
  item ∈ results resp → ev ∈ item_evidence item →
  ∃ scored c,
    candidate_stream E db candidates kw_used = Ok scored ∧ c ∈ scored
    ∧ vacancy_id c = item_vacancy_id item
    ∧ ev_dist ev = dist c ∧ ev_kw_sim ev = kw_sim c ∧ ev_score ev = score c.
Proof.
  intros Hitem.
  destruct (search_inv_item item Hitem) as (scored & rows & Hsc & Hsel & Hmeta & Hresp).
  revert Hitem. rewrite Hresp.
  intros (r0 & rest & _ & _ & Hv & _ & ->)%results_elem.
  intros (e & -> & He)%list_elem_of_fmap.
  apply list_elem_of_fmap in He as (o & -> & Ho).
  apply list_elem_of_filter in Ho as [Hov Ho].
  destruct (rows_elem E scored Hmeta k per_vac rows Hsel o Ho) as (Hr & _ & _).
  apply ranked_elem in Hr.
  exists scored, (r_row (o_r o)). simpl.
  split; [done|]. split; [done|]. split; [|done]. rewrite Hv. exact Hov.
Qed.

End search_facts.

(** ** Degradation to distance-only scoring *)

Lemma no_trgm_scores (E : SqlEngine) (U : Unicode) (so : SetOrder) (db : store) (q : pystr)
    (k per_vac candidates : Z) (kw_weight : Q) (max_quote : Z)
    (do_highlight : bool) (resp : response) (item : vac_item) (ev : evidence) :
  has_pg_trgm db && is_positive (effective_weight db kw_weight) = false →
  search E U so db q k per_vac candidates kw_weight max_quote do_highlight
  = Ok resp →
  item ∈ results resp → ev ∈ item_evidence item →
  ev_score ev = ev_dist ev ∧ ev_kw_sim ev = 0%Q.
Proof.
  intros Hpath Hsearch Hitem Hev.
  destruct (evidence_source _ _ _ _ _ _ _ _ _ _ _ _ Hsearch item ev Hitem Hev)
    as (scored & c & Hsc & Hc & _ & -> & -> & ->).
  unfold candidate_stream in Hsc. rewrite Hpath in Hsc.
  by destruct (scored_no_trgm_elem _ _ _ _ c Hsc Hc) as (? & ? & _).
Qed.

Lemma is_positive_false (w : Q) : (w <= 0)%Q → is_positive w = false.
Proof.
  intros Hw. unfold is_positive. apply negb_false_iff. by apply Qle_bool_iff.
Qed.


(** C2: without [pg_trgm] the weight is forced to 0 whatever the caller
    asked for; the response reports [kw_weight_used = 0] and
    [hybrid_used = false], and scores are distances. *)
Theorem forced_weight_without_trgm
    (E : SqlEngine) (U : Unicode) (so : SetOrder) (db : store) (q : pystr)
    (k per_vac candidates : Z) (kw_weight : Q) (max_quote : Z)
    (do_highlight : bool) (resp : response) :
  has_pg_trgm db = false →
  search E U so db q k per_vac candidates kw_weight max_quote do_highlight
  = Ok resp →
  kw_weight_used resp = 0%Q ∧ hybrid_used resp = false
  ∧ ∀ item ev, item ∈ results resp → ev ∈ item_evidence item →
               ev_score ev = ev_dist ev ∧ ev_kw_sim ev = 0%Q.
Proof.
  intros Htrgm Hsearch.
  destruct (search_rows_inv _ _ _ _ _ _ _ _ _ _ _ _ Hsearch) as (rows & _ & Hresp).
  split; [|split].
  - rewrite Hresp. simpl. unfold effective_weight. by rewrite Htrgm.
  - rewrite Hresp. simpl. by rewrite Htrgm.
  - intros item ev. eapply no_trgm_scores; [|exact Hsearch]. by rewrite Htrgm.
Qed.

(** C10: a weight that is not positive, negative ones included, takes the
    distance-only path whether or not [pg_trgm] is installed. *)
Theorem non_positive_weight_is_distance_only
    (E : SqlEngine) (U : Unicode) (so : SetOrder) (db : store) (q : pystr)
    (k per_vac candidates : Z) (kw_weight : Q) (max_quote : Z)
    (do_highlight : bool) (resp : response) :
  (kw_weight <= 0)%Q →
  search E U so db q k per_vac candidates kw_weight max_quote do_highlight
  = Ok resp →
  hybrid_used resp = false
  ∧ ∀ item ev, item ∈ results resp → ev ∈ item_evidence item →
               ev_score ev = ev_dist ev ∧ ev_kw_sim ev = 0%Q.
Proof.
  intros Hw Hsearch.
  assert (Hpath : has_pg_trgm db && is_positive (effective_weight db kw_weight)
                  = false).
  { unfold effective_weight. destruct (has_pg_trgm db); [|done]. simpl.
    by apply is_positive_false. }
  destruct (search_rows_inv _ _ _ _ _ _ _ _ _ _ _ _ Hsearch) as (rows & _ & Hresp).
  split.
  - rewrite Hresp. simpl. exact Hpath.
  - intros item ev. by eapply no_trgm_scores.
Qed.

(** ** Invariants of the result list *)

(** C3: a vacancy id occurs at most once in the results. *)
Theorem results_unique_vacancies
    (E : SqlEngine) (U : Unicode) (so : SetOrder) (db : store) (q : pystr)
    (k per_vac candidates : Z) (kw_weight : Q) (max_quote : Z)
    (do_highlight : bool) (resp : response) :
  search E U so db q k per_vac candidates kw_weight max_quote do_highlight
  = Ok resp →
  NoDup (map item_vacancy_id (results resp)).
Proof.
  intros Hsearch.
  destruct (search_rows_inv _ _ _ _ _ _ _ _ _ _ _ _ Hsearch) as (rows & _ & ->).
  rewrite results_vids. apply first_rows_NoDup.
Qed.

(** C4, as amended: the results are in ascending order of best score,
    each one at most its successor. *)
Theorem results_sorted_by_best_score
    (E : SqlEngine) (U : Unicode) (so : SetOrder) (db : store) (q : pystr)
    (k per_vac candidates : Z) (kw_weight : Q) (max_quote : Z)
    (do_highlight : bool) (resp : response) (i : nat) (a b : vac_item) :
  search E U so db q k per_vac candidates kw_weight max_quote do_highlight
  = Ok resp →
  results resp !! i = Some a → results resp !! S i = Some b →
  (item_best_score a <= item_best_score b)%Q.
Proof.
  intros Hsearch Ha Hb.
  destruct (search_inv_item _ _ _ _ _ _ _ _ _ _ _ _ Hsearch a
              (list_elem_of_lookup_2 _ _ _ Ha))
    as (scored & rows & _ & Hsel & Hmeta & Hresp).
  assert (Hs : StronglySorted Qle (map item_best_score (results resp))).
  { rewrite Hresp, results_best.
    apply (StronglySorted_fmap_impl (λ x y, le_final x y = true)).
    - intros x y _ _ [Hle _]%le_final_spec. by apply Qle_bool_iff.
    - eapply StronglySorted_sublist; [apply first_rows_sublist|].
      by eapply rows_strongly_sorted. }
  eapply (StronglySorted_adjacent _ _ i); [exact Hs | |].
  - by rewrite list_lookup_fmap, Ha.
  - by rewrite list_lookup_fmap, Hb.
Qed.

(** C5: in every result the evidence is in ascending order of combined
    score and has at most [per_vac] fragments, and the reported best score
    is the least combined score among the candidate fragments of that
    vacancy: one of them attains it and none is below it. *)
Theorem evidence_sorted_capped_and_best
    (E : SqlEngine) (U : Unicode) (so : SetOrder) (db : store) (q : pystr)
    (k per_vac candidates : Z) (kw_weight : Q) (max_quote : Z)
    (do_highlight : bool) (resp : response) (item : vac_item) :
  search E U so db q k per_vac candidates kw_weight max_quote do_highlight
  = Ok resp →
  item ∈ results resp →
  StronglySorted Qle (map ev_score (item_evidence item))
  ∧ Z.of_nat (length (item_evidence item)) ≤ per_vac
  ∧ ∃ scored,
      candidate_stream E db candidates (effective_weight db kw_weight) = Ok scored
      ∧ (∃ c, c ∈ scored ∧ vacancy_id c = item_vacancy_id item
              ∧ score c = item_best_score item)
      ∧ (∀ c, c ∈ scored → vacancy_id c = item_vacancy_id item →
              (item_best_score item <= score c)%Q).
Proof.
  intros Hsearch Hitem.
  destruct (search_inv_item _ _ _ _ _ _ _ _ _ _ _ _ Hsearch item Hitem)
    as (scored & rows & Hsc & Hsel & Hmeta & Hresp).
  rewrite Hresp in Hitem.
  apply results_elem in Hitem as (r0 & rest & Hr0 & Hrest & Hv & Hbest & Hevs).
  pose proof (rows_elem E scored Hmeta k per_vac rows Hsel) as Helem.
  set (part := rows_of (row_vid r0) rows) in *.
  assert (Hpart : ∀ o, o ∈ part → o ∈ rows ∧ row_vid o = row_vid r0).
  { intros o [? ?]%list_elem_of_filter. done. }
  assert (Hsorted : StronglySorted (λ x y, le_final x y = true) part).
  { eapply StronglySorted_sublist; [apply sublist_filter|].
    by eapply rows_strongly_sorted. }
  assert (Hrn : ∀ x y, x ∈ part → y ∈ part → le_final x y = true →
                       rn (o_r x) ≤ rn (o_r y)).
  { intros x y [Hx Hxv]%Hpart [Hy Hyv]%Hpart [_ Hle]%le_final_spec.
    apply Hle.
    rewrite (rows_best_functional E scored Hmeta k per_vac rows Hsel y x);
      [apply Qle_bool_refl | done | done | congruence]. }
  split; [|split].
  - rewrite Hevs, <- !list_fmap_compose.
    apply (StronglySorted_fmap_impl (λ x y, le_final x y = true)); [|done].
    intros x y Hx Hy Hle. simpl.
    pose proof (Hrn x y Hx Hy Hle) as Hrnxy.
    apply Hpart in Hx as [Hx Hxv]. apply Hpart in Hy as [Hy Hyv].
    destruct (Helem x Hx) as (Hxr & _ & _).
    destruct (Helem y Hy) as (Hyr & _ & _).
    apply (ranked_rn_score E scored); [done..| |done].
    unfold row_vid in *. congruence.
  - rewrite Hevs, !length_map.
    assert (Hlen : map (λ o, rn (o_r o)) part = []
                   ∨ Z.of_nat (length (map (λ o, rn (o_r o)) part))
                     ≤ per_vac - 1 + 1).
    { apply increasing_length.
      - by apply (StronglySorted_fmap_impl (λ x y, le_final x y = true)).
      - rewrite (list_fmap_compose o_r rn).
        apply NoDup_fmap_2_strong.
        + intros x y (ox & -> & Hox)%list_elem_of_fmap
                     (oy & -> & Hoy)%list_elem_of_fmap Heq.
          apply Hpart in Hox as [Hox Hxv]. apply Hpart in Hoy as [Hoy Hyv].
          destruct (Helem ox Hox) as (Hxr & _ & _).
          destruct (Helem oy Hoy) as (Hyr & _ & _).
          apply (ranked_rn_inj E scored); [done..| |done].
          unfold row_vid in *. congruence.
        + apply (sublist_NoDup _ (map o_r rows)).
          * by eapply rows_NoDup.
          * apply fmap_sublist, sublist_filter.
      - intros x (o & -> & Ho)%list_elem_of_fmap.
        apply Hpart in Ho as [Ho _].
        destruct (Helem o Ho) as (Hor & _ & Hcap).
        pose proof (ranked_rn_pos E scored _ Hor). lia. }
    destruct Hlen as [Hnil|Hlen].
    + by rewrite Hrest in Hnil.
    + rewrite length_map in Hlen. lia.
  - exists scored. split; [done|].
    destruct (Helem r0 Hr0) as (Hr & Hb & _).
    rewrite Hv, Hbest, Hb. by apply (ranked_best_min E).
Qed.

(** ** The scenario with documents A and B *)

Lemma filter_none {A} (P : A → Prop) `{∀ x, Decision (P x)} (l : list A) :
  (∀ x, x ∈ l → ¬ P x) → filter P l = [].
Proof.
  induction l as [|x l IH]; intros Hl; [done|].
  rewrite filter_cons_False by apply Hl, list_elem_of_here.
  apply IH. intros y Hy. by apply Hl, list_elem_of_further.
Qed.

Lemma join_top_nil_r (rk : list ranked_row) : join_top rk [] = [].
Proof. unfold join_top. induction rk as [|r rk IH]; [done|]. by rewrite bind_cons, IH. Qed.

Lemma join_top_in (rk : list ranked_row) (top : list vac_row) (o : out_row) :
  o ∈ join_top rk top → o_r o ∈ rk.
Proof.
  unfold join_top. intros (r & Ho & Hr)%list_elem_of_bind.
  apply list_elem_of_bind in Ho as (t & Ho & _).
  by apply list_elem_of_singleton in Ho as ->.
Qed.

Lemma ranked_nil (E : SqlEngine) : ranked E [] = [].
Proof. unfold ranked. by rewrite order_by_nil. Qed.

Lemma select_ranked_empty (E : SqlEngine) (scored : list scored_row)
    (k per_vac : Z) :
  0 ≤ k ≤ int8_max →
  per_vac ≤ 0 ∨ k = 0 ∨ scored = [] →
  select_ranked E scored k per_vac = Ok [].
Proof.
  intros Hk Hcase. unfold select_ranked, top_vacs.
  rewrite sql_limit_ok by done. rewrite bind_Ok.
  change (mret ?x) with (Ok x). f_equal.
  apply Permutation_nil_r. rewrite (order_by_perm E).
  destruct Hcase as [Hpv|[->| ->]].
  - rewrite filter_none; [done|]. intros o Ho%join_top_in.
    pose proof (ranked_rn_pos E scored _ Ho). lia.
  - simpl. by rewrite join_top_nil_r.
  - by rewrite ranked_nil.
Qed.

Lemma select_ranked_no_row (E : SqlEngine) (scored : list scored_row)
    (k per_vac : Z) :
  0 ≤ k ≤ int8_max →
  forallb (λ r, per_vac <? rn r) (ranked E scored) = true →
  select_ranked E scored k per_vac = Ok [].
Proof.
  intros Hk Hnone. unfold select_ranked, top_vacs.
  rewrite sql_limit_ok by done. rewrite bind_Ok.
  change (mret ?x) with (Ok x). f_equal.
  apply Permutation_nil_r. rewrite (order_by_perm E).
  rewrite filter_none; [done|]. intros o Ho%join_top_in.
  rewrite forallb_forall in Hnone.
  apply list_elem_of_In, Hnone, Z.ltb_lt in Ho. lia.
Qed.

(** With an acceptable [k], stopping early changes nothing. *)
Lemma run_select_eager (E : SqlEngine) (scored : list scored_row)
    (k per_vac : Z) :
  0 ≤ k ≤ int8_max →
  run_select E (Ok scored) k per_vac = select_ranked E scored k per_vac.
Proof.
  intros Hk. unfold run_select. destruct (plan E) as [stop|stop].
  - rewrite bind_Ok.
    destruct (forallb (λ r, per_vac <? rn r) (ranked E scored)) eqn:Hnone;
      [|by rewrite andb_false_r].
    rewrite (select_ranked_no_row E scored k per_vac Hk Hnone).
    by destruct stop.
  - rewrite sql_limit_ok by done. rewrite bind_Ok.
    destruct (Z.eqb_spec k 0) as [->|Hk0].
    + rewrite (select_ranked_empty E scored 0 per_vac) by (done || tauto).
      destruct stop; [done|]. cbn [andb]. rewrite bind_Ok.
      apply select_ranked_empty; [done | tauto].
    + rewrite andb_false_r. cbn iota. by rewrite bind_Ok.
Qed.






(** With pairwise different keys at every [ORDER BY], the executor has no
    choice. *)
Lemma scenario_scored (E : SqlEngine) (trgm : bool) (candidates : Z) :
  3 ≤ candidates ≤ int8_max →
  scored_no_trgm E (scenario_db trgm) candidates = Ok scenario_stream.
Proof.
  intros Hc. unfold scored_no_trgm.
  rewrite (order_by_stable E le_dist);
    [|apply le_dist_total | apply le_dist_trans | by vm_compute].
  match goal with
  | |- context [stable_sort le_dist ?l] =>
      assert (Hs : stable_sort le_dist l = scenario_stream)
        by (vm_compute; reflexivity);
      rewrite Hs
  end.
  apply sql_limit_all. simpl length. lia.
Qed.

Lemma scenario_select (E : SqlEngine) :
  select_ranked E scenario_stream 2 1 = Ok scenario_out.
Proof.
  unfold select_ranked, ranked, top_vacs.
  rewrite (order_by_stable E le_partition);
    [|apply le_partition_total | apply le_partition_trans | by vm_compute].
  rewrite (order_by_stable E le_best);
    [|apply le_best_total | apply le_best_trans | by vm_compute].
  rewrite sql_limit_ok by (by vm_compute).
  rewrite bind_Ok.
  rewrite (order_by_stable E le_final);
    [|apply le_final_total | apply le_final_trans | by vm_compute].
  by vm_compute.
Qed.

Lemma scenario_statement (E : SqlEngine) (trgm : bool) (candidates : Z) :
  3 ≤ candidates ≤ int8_max →
  statement E (scenario_db trgm) 2 1 candidates
            (effective_weight (scenario_db trgm) 0)
  = Ok scenario_out.
Proof.
  intros Hc. unfold statement.
  replace (has_pg_trgm (scenario_db trgm)
           && is_positive (effective_weight (scenario_db trgm) 0))
    with false by (by destruct trgm).
  unfold SQL_V2_NO_TRGM. rewrite scenario_scored by done.
  rewrite run_select_eager by (by vm_compute). apply scenario_select.
Qed.

Section projections.
Context (U : Unicode) (so : SetOrder) (db : store) (q : pystr) (k per_vac : Z)
        (kw_weight : Q) (max_quote : Z) (do_highlight : bool)
        (rows : list out_row).

Let resp : response :=
  response_of U so db q k per_vac kw_weight max_quote do_highlight rows.

Lemma results_evidence_dist :
  map (λ it, map ev_dist (item_evidence it)) (results resp)
  = map (λ r0, map (λ o, dist (r_row (o_r o))) (rows_of (row_vid r0) rows))
        (first_rows [] rows).
Proof.
  unfold resp, response_of. cbn [results].
  rewrite map_map. apply map_ext. intros r0.
  cbv [format_item built item_evidence].
  by rewrite !map_map.
Qed.

Lemma results_evidence_chunk_no :
  map (λ it, map ev_chunk_no (item_evidence it)) (results resp)
  = map (λ r0, map (λ o, chunk_no (r_row (o_r o))) (rows_of (row_vid r0) rows))
        (first_rows [] rows).
Proof.
  unfold resp, response_of. cbn [results].
  rewrite map_map. apply map_ext. intros r0.
  cbv [format_item built item_evidence].
  by rewrite !map_map.
Qed.

End projections.

(** C6: with fragments of A at distances 0.10 and 0.30 and one fragment of
    B at 0.05, [k = 2], [per_vac = 1] and weight 0, every executor and
    every fan-out of at least three candidates give the order B, A
    (vacancies 2, 1), and A shows its fragment at 0.10 (chunk 0) alone. *)
Theorem scenario_B_before_A
    (E : SqlEngine) (U : Unicode) (so : SetOrder) (trgm : bool) (candidates : Z)
    (max_quote : Z) (do_highlight : bool) :
  3 ≤ candidates ≤ int8_max →
  ∃ resp,
    search E U so (scenario_db trgm) (str "python developer") 2 1 candidates 0
           max_quote do_highlight = Ok resp
    ∧ map item_vacancy_id (results resp) = [2; 1]
    ∧ map item_name (results resp) = ["B"; "A"]%string
    ∧ map (λ it, map ev_dist (item_evidence it)) (results resp)
      = [[(5 # 100)%Q]; [(10 # 100)%Q]]
    ∧ map (λ it, map ev_chunk_no (item_evidence it)) (results resp)
      = [[0]; [0]].
Proof.
  intros Hc. eexists. split.
  - apply search_rows_ok. by apply scenario_statement.
  - rewrite results_vids, results_evidence_dist, results_evidence_chunk_no.
    split; [by vm_compute|]. split; [|split; by vm_compute].
    unfold response_of. cbn [results]. rewrite map_map. by vm_compute.
Qed.

(** ** Caps that remove everything *)



Lemma negative_k_error_value :
  search stable_engine ascii_tables first_seen_order (scenario_db true)
         (str "python developer") (-1) 1 250 (1 # 4)%Q 800 true
  = Err InvalidRowCountInLimitClause.
Proof. by vm_compute. Qed.

(** The same [k] with [per_vac = 0]: the executor that stops when no
    ranked row passes never computes the count. *)
Lemma negative_k_unnoticed :
  search stable_engine ascii_tables first_seen_order (scenario_db true)
         (str "python developer") (-1) 0 250 (1 # 4)%Q 800 true
  = Ok {| resp_query := str "python developer"; hybrid_used := true;
          kw_weight_used := (1 # 4)%Q; resp_k := -1; resp_per_vac := 0;
          results := [] |}.
Proof. by vm_compute. Qed.
(** ** Vacancies with equal best scores *)

(** C4, as stated, fails in its second half: on [tie_db] at weight 1 the
    candidate stream meets vacancy 2 first (distance 0.25 against 0.5),
    both vacancies have best score 0.25, and the stable executor returns
    vacancy 1 before vacancy 2. *)
Lemma ties_not_in_first_seen_order :
  ¬ (∀ (E : SqlEngine) (U : Unicode) (so : SetOrder) (db : store) (q : pystr)
       (k per_vac candidates : Z) (kw_weight : Q) (max_quote : Z)
       (do_highlight : bool) (resp : response) (scored : list scored_row),
       search E U so db q k per_vac candidates kw_weight max_quote do_highlight
       = Ok resp →
       candidate_stream E db candidates (effective_weight db kw_weight)
       = Ok scored →
       (∀ i a b, results resp !! i = Some a → results resp !! S i = Some b →
                 (item_best_score a <= item_best_score b)%Q)
       ∧ (∀ i j a b, (i < j)%nat →
                     results resp !! i = Some a → results resp !! j = Some b →
                     (item_best_score a == item_best_score b)%Q →
                     seen_before (map vacancy_id scored)
                                 (item_vacancy_id a) (item_vacancy_id b))).
Proof.
  intros H.
  edestruct (H stable_engine ascii_tables first_seen_order tie_db (str "pytho x")
               5 2 250 1%Q 800 true) as [_ Hties];
    [vm_compute; reflexivity | vm_compute; reflexivity |].
  specialize (Hties 0%nat 1%nat _ _ (Nat.lt_0_succ 0) eq_refl eq_refl).
  vm_compute in Hties. specialize (Hties eq_refl). lia.
Qed.

(** The order of vacancies with equal best scores is the executor's: an
    executor that prefers later input rows returns them the other way
    round. *)
Definition reverse_engine : SqlEngine.
Proof.
  refine {| order_by := λ A le l, stable_sort le (reverse l);
            plan := RankedFirst true;
            float_mul := Qmult;
            float_sub := Qminus |}.
  - intros A le l. rewrite stable_sort_perm. apply reverse_Permutation.
  - intros A le l Htot _. by apply stable_sort_sorted.
Defined.

Lemma tie_order_depends_on_executor :
  (∃ resp, search stable_engine ascii_tables first_seen_order tie_db
                  (str "pytho x") 5 2 250 1%Q 800 true = Ok resp
           ∧ map item_vacancy_id (results resp) = [1; 2])
  ∧ (∃ resp, search reverse_engine ascii_tables first_seen_order tie_db
                    (str "pytho x") 5 2 250 1%Q 800 true = Ok resp
             ∧ map item_vacancy_id (results resp) = [2; 1]).
Proof.
  split; eexists; (split; [vm_compute; reflexivity | by vm_compute]).
Qed.

(** ** The theorems at work on the scenario store *)


(** The scenario store without [pg_trgm], the caller asking for weight 0.5. *)
Lemma forced_weight_without_trgm_witness :
  ∃ resp,
    has_pg_trgm (scenario_db false) = false
    ∧ search stable_engine ascii_tables first_seen_order (scenario_db false)
             (str "python developer") 2 1 250 (1 # 2)%Q 800 true = Ok resp
    ∧ kw_weight_used resp = 0%Q ∧ hybrid_used resp = false
    ∧ ∀ item ev, item ∈ results resp → ev ∈ item_evidence item →
                 ev_score ev = ev_dist ev ∧ ev_kw_sim ev = 0%Q.
Proof.
  eexists. split; [reflexivity|]. split; [vm_compute; reflexivity|].
  eapply (forced_weight_without_trgm
            stable_engine ascii_tables first_seen_order (scenario_db false)
            (str "python developer") 2 1 250 (1 # 2)%Q 800 true);
    [reflexivity | vm_compute; reflexivity].
Defined.

(** The scenario store with [pg_trgm] and weight -0.5. *)
Lemma non_positive_weight_is_distance_only_witness :
  ∃ resp,
    (- (1 # 2) <= 0)%Q
    ∧ search stable_engine ascii_tables first_seen_order (scenario_db true)
             (str "python developer") 2 1 250 (- (1 # 2))%Q 800 true = Ok resp
    ∧ hybrid_used resp = false
    ∧ ∀ item ev, item ∈ results resp → ev ∈ item_evidence item →
                 ev_score ev = ev_dist ev ∧ ev_kw_sim ev = 0%Q.
Proof.
  eexists. split; [by vm_compute|]. split; [vm_compute; reflexivity|].
  eapply (non_positive_weight_is_distance_only
            stable_engine ascii_tables first_seen_order (scenario_db true)
            (str "python developer") 2 1 250 (- (1 # 2))%Q 800 true);
    [by vm_compute | vm_compute; reflexivity].
Defined.

(** The scenario store at weight 0.25 with two fragments per vacancy. *)
Lemma results_unique_vacancies_witness :
  ∃ resp,
    search stable_engine ascii_tables first_seen_order (scenario_db true)
           (str "python developer") 2 2 250 (1 # 4)%Q 800 true = Ok resp
    ∧ NoDup (map item_vacancy_id (results resp)).
Proof.
  eexists. split; [vm_compute; reflexivity|].
  eapply (results_unique_vacancies
            stable_engine ascii_tables first_seen_order (scenario_db true)
            (str "python developer") 2 2 250 (1 # 4)%Q 800 true).
  vm_compute; reflexivity.
Defined.

(** The two results of the scenario store at weight 0.25. *)
Lemma results_sorted_by_best_score_witness :
  ∃ resp a b,
    search stable_engine ascii_tables first_seen_order (scenario_db true)
           (str "python developer") 2 2 250 (1 # 4)%Q 800 true = Ok resp
    ∧ results resp !! 0%nat = Some a ∧ results resp !! 1%nat = Some b
    ∧ (item_best_score a <= item_best_score b)%Q.
Proof.
  eexists _, _, _. split; [vm_compute; reflexivity|].
  split; [reflexivity|]. split; [reflexivity|].
  eapply (results_sorted_by_best_score
            stable_engine ascii_tables first_seen_order (scenario_db true)
            (str "python developer") 2 2 250 (1 # 4)%Q 800 true _ 0%nat);
    [vm_compute; reflexivity | reflexivity | reflexivity].
Defined.

(** Vacancy A of the scenario store at weight 0.25, with both its fragments. *)
Lemma evidence_sorted_capped_and_best_witness :
  ∃ resp item,
    search stable_engine ascii_tables first_seen_order (scenario_db true)
           (str "python developer") 2 2 250 (1 # 4)%Q 800 true = Ok resp
    ∧ item ∈ results resp
    ∧ StronglySorted Qle (map ev_score (item_evidence item))
    ∧ Z.of_nat (length (item_evidence item)) ≤ 2
    ∧ ∃ scored,
        candidate_stream stable_engine (scenario_db true) 250
                         (effective_weight (scenario_db true) (1 # 4)) = Ok scored
        ∧ (∃ c, c ∈ scored ∧ vacancy_id c = item_vacancy_id item
                ∧ score c = item_best_score item)
        ∧ (∀ c, c ∈ scored → vacancy_id c = item_vacancy_id item →
                (item_best_score item <= score c)%Q).
Proof.
  eexists _, _. split; [vm_compute; reflexivity|].
  split; [apply list_elem_of_further, list_elem_of_here|].
  eapply (evidence_sorted_capped_and_best
            stable_engine ascii_tables first_seen_order (scenario_db true)
            (str "python developer") 2 2 250 (1 # 4)%Q 800 true);
    [vm_compute; reflexivity | apply list_elem_of_further, list_elem_of_here].
Defined.

(** The scenario with the default fan-out of 250 candidates. *)
Lemma scenario_B_before_A_witness :
  3 ≤ 250 ≤ int8_max
  ∧ ∃ resp,
      search stable_engine ascii_tables first_seen_order (scenario_db true)
             (str "python developer") 2 1 250 0 800 true = Ok resp
      ∧ map item_vacancy_id (results resp) = [2; 1]
      ∧ map item_name (results resp) = ["B"; "A"]%string
      ∧ map (λ it, map ev_dist (item_evidence it)) (results resp)
        = [[(5 # 100)%Q]; [(10 # 100)%Q]]
      ∧ map (λ it, map ev_chunk_no (item_evidence it)) (results resp)
        = [[0]; [0]].
Proof.
  split; [by vm_compute|].
  apply (scenario_B_before_A stable_engine ascii_tables first_seen_order true 250 800 true).
  by vm_compute.
Defined.


(** * Further properties of the text utilities *)

(** ** [normalize_ws] *)

Section normalize_ws_facts.

Lemma single_spaced_weaken (b : bool) (t : pystr) :
  single_spaced b t = true → single_spaced false t = true.
Proof.
  destruct t as [|c t]; [done|]. simpl. destruct (is_space c); [|done].
  destruct b; [|done]. by rewrite andb_false_r.
Qed.

Lemma collapse_ws_single_spaced (s : pystr) :
  ∀ b, single_spaced b (collapse_ws b s) = true.
Proof.
  induction s as [|c s IH]; intros b; simpl; [done|].
  destruct (is_space c) eqn:Hc.
  - destruct b; [apply IH|]. simpl. apply IH.
  - simpl. rewrite Hc. apply IH.
Qed.

Lemma single_spaced_app (t u : pystr) :
  ∀ b, single_spaced b (t ++ u) = true →
       single_spaced b t = true ∧ single_spaced false u = true.
Proof.
  induction t as [|c t IH]; intros b; simpl.
  - intros H. split; [done|]. by eapply single_spaced_weaken.
  - destruct (is_space c).
    + intros [Hc Ht]%andb_true_iff. apply IH in Ht as [Ht Hu].
      split; [|done]. by rewrite Hc, Ht.
    + apply IH.
Qed.

Lemma single_spaced_no_double (t a b : pystr) (x : bool) :
  single_spaced x t = true → t ≠ a ++ (ch " ") :: (ch " ") :: b.
Proof.
  intros Ht ->. apply single_spaced_app in Ht as [_ Ht].
  by cbn in Ht.
Qed.

Lemma single_spaced_space (t : pystr) (c : char) :
  ∀ b, single_spaced b t = true → c ∈ t → is_space c = true → c = (ch " ").
Proof.
  induction t as [|d t IH]; intros b Ht Hc Hsp; [by apply elem_of_nil in Hc|].
  simpl in Ht. apply elem_of_cons in Hc as [->|Hc].
  - rewrite Hsp in Ht. apply andb_true_iff in Ht as [Hd _].
    apply andb_true_iff in Hd as [Hd _]. by apply bool_decide_eq_true in Hd.
  - destruct (is_space d).
    + apply andb_true_iff in Ht as [_ Ht]. by eapply IH.
    + by eapply IH.
Qed.

Lemma collapse_ws_fixed (t : pystr) :
  ∀ b, single_spaced b t = true → collapse_ws b t = t.
Proof.
  induction t as [|c t IH]; intros b; simpl; [done|].
  destruct (is_space c).
  - intros [Hc Ht]%andb_true_iff. apply andb_true_iff in Hc as [Hc Hb].
    apply bool_decide_eq_true in Hc as ->. destruct b; [done|].
    by rewrite IH.
  - intros Ht. by rewrite IH.
Qed.

Lemma lstrip_suffix (t : pystr) : lstrip t `suffix_of` t.
Proof.
  induction t as [|c t IH]; simpl; [done|].
  destruct (is_space c); [by apply suffix_cons_r | done].
Qed.

Lemma lstrip_head (t : pystr) (c : char) :
  head (lstrip t) = Some c → is_space c = false.
Proof.
  induction t as [|d t IH]; simpl; [done|].
  destruct (is_space d) eqn:Hd; [done|]. simpl. by intros [= <-].
Qed.

Lemma lstrip_fixed (t : pystr) :
  (∀ c, head t = Some c → is_space c = false) → lstrip t = t.
Proof.
  destruct t as [|c t]; [done|]. simpl. intros H. by rewrite (H c).
Qed.

Lemma strip_infix (t : pystr) : ∃ a b, t = a ++ strip t ++ b.
Proof.
  unfold strip.
  destruct (lstrip_suffix t) as [a Ha].
  destruct (lstrip_suffix (rev (lstrip t))) as [b Hb].
  exists a, (rev b). rewrite Ha at 1. f_equal.
  rewrite <- (rev_involutive (lstrip t)) at 1. rewrite Hb at 1.
  by rewrite rev_app_distr.
Qed.

Lemma rev_reverse (t : pystr) : rev t = reverse t.
Proof. apply rev_alt. Qed.

Lemma strip_last (t : pystr) (c : char) :
  last (strip t) = Some c → is_space c = false.
Proof.
  unfold strip. rewrite rev_reverse, last_reverse. apply lstrip_head.
Qed.

Lemma strip_head (t : pystr) (c : char) :
  head (strip t) = Some c → is_space c = false.
Proof.
  unfold strip. rewrite rev_reverse, head_reverse.
  destruct (lstrip_suffix (rev (lstrip t))) as [w Hw].
  destruct (lstrip (rev (lstrip t))) as [|x u] eqn:Hu; [done|].
  intros Hlast.
  assert (Hl : last (rev (lstrip t)) = Some c).
  { rewrite Hw. rewrite last_app. by rewrite Hlast. }
  rewrite rev_reverse, last_reverse in Hl. by apply lstrip_head in Hl.
Qed.

Lemma strip_fixed (t : pystr) :
  (∀ c, head t = Some c → is_space c = false) →
  (∀ c, last t = Some c → is_space c = false) →
  strip t = t.
Proof.
  intros Hh Hl. unfold strip. rewrite (lstrip_fixed t Hh).
  rewrite lstrip_fixed; [apply rev_involutive|].
  intros c. rewrite rev_reverse, head_reverse. apply Hl.
Qed.

End normalize_ws_facts.

Lemma normalize_ws_single_spaced (s : option pystr) :
  single_spaced false (normalize_ws s) = true.
Proof.
  unfold normalize_ws.
  destruct (strip_infix (collapse_ws false (or_empty s))) as (a & b & Hab).
  pose proof (collapse_ws_single_spaced (or_empty s) false) as Hs.
  rewrite Hab in Hs. apply single_spaced_app in Hs as [_ Hs].
  by apply single_spaced_app in Hs as [Hs _].
Qed.

(** X1: in the text [normalize_ws] returns, the only white-space character
    is the space, no two spaces are adjacent, and the text neither starts
    nor ends with white space. *)
Theorem normalize_ws_shape (s : option pystr) :
  (∀ c, c ∈ normalize_ws s → is_space c = true → c = (ch " "))
  ∧ (∀ a b, normalize_ws s ≠ a ++ (ch " ") :: (ch " ") :: b)
  ∧ (∀ c, head (normalize_ws s) = Some c → is_space c = false)
  ∧ (∀ c, last (normalize_ws s) = Some c → is_space c = false).
Proof.
  pose proof (normalize_ws_single_spaced s) as Hs.
  split; [|split; [|split]].
  - intros c. by apply single_spaced_space with (b := false).
  - intros a b. by eapply single_spaced_no_double.
  - apply strip_head.
  - apply strip_last.
Qed.

(** X2: [normalize_ws] is idempotent: a normalized text is returned as it
    is. *)
Theorem normalize_ws_idempotent (s : option pystr) :
  normalize_ws (Some (normalize_ws s)) = normalize_ws s.
Proof.
  unfold normalize_ws at 1. simpl.
  rewrite collapse_ws_fixed by apply normalize_ws_single_spaced.
  apply strip_fixed; [apply strip_head | apply strip_last].
Qed.

Lemma collapse_ws_non_space (s : pystr) :
  ∀ b, filter (λ c, is_space c = false) (collapse_ws b s)
       = filter (λ c, is_space c = false) s.
Proof.
  induction s as [|c s IH]; intros b; simpl; [done|].
  destruct (is_space c) eqn:Hc.
  - rewrite (filter_cons_False _ c s) by (by rewrite Hc).
    destruct b; [apply IH|].
    rewrite filter_cons_False by done. apply IH.
  - rewrite !filter_cons_True by done. by rewrite IH.
Qed.

Lemma lstrip_non_space (s : pystr) :
  filter (λ c, is_space c = false) (lstrip s)
  = filter (λ c, is_space c = false) s.
Proof.
  induction s as [|c s IH]; simpl; [done|].
  destruct (is_space c) eqn:Hc; [|done].
  by rewrite (filter_cons_False _ c s) by (by rewrite Hc).
Qed.

(** X3: [normalize_ws] removes and rewrites white space only: the
    characters that are not white space come out unchanged and in order. *)
Theorem normalize_ws_keeps_non_space (s : option pystr) :
  filter (λ c, is_space c = false) (normalize_ws s)
  = filter (λ c, is_space c = false) (or_empty s).
Proof.
  unfold normalize_ws, strip.
  rewrite rev_reverse, filter_reverse, lstrip_non_space.
  rewrite rev_reverse, filter_reverse, reverse_involutive, lstrip_non_space.
  apply collapse_ws_non_space.
Qed.

(** ** [highlight] *)

Section highlight_facts.

Local Ltac pairs_arith :=
  change (ch "[") with 91%N in *; change (ch "]") with 93%N in *;
  repeat split;
  repeat (match goal with
          | |- context [decide ?P] =>
              destruct (decide P); try discriminate; try congruence
          end);
  lia.

Lemma match_here_length (U : Unicode) (pat : list atom) :
  ∀ prev s n, match_here U pat prev s = Some n → (n ≤ length s)%nat.
Proof.
  induction pat as [|a pat IH]; intros prev s n; simpl.
  - intros [= <-]. lia.
  - destruct a as [|c].
    + destruct (at_boundary U prev (head s)); [apply IH | done].
    + destruct s as [|x s]; [done|].
      destruct (char_eq_ic U c x); [|done].
      destruct (match_here U pat (Some x) s) as [m|] eqn:Hm; [|done].
      simpl. intros [= <-]. apply IH in Hm. simpl. lia.
Qed.

Lemma occurrences_cons (x c : char) (t : pystr) :
  occurrences x (c :: t)
  = ((if decide (c = x) then 1 else 0) + occurrences x t)%nat.
Proof.
  unfold occurrences. destruct (decide (c = x)).
  - by rewrite filter_cons_True.
  - by rewrite filter_cons_False.
Qed.

(** What one substitution adds: a number of bracket pairs, and a closing
    bracket more when it starts inside a match. *)
Lemma sub_wrap_pairs (U : Unicode) (pat : list atom) (s : pystr) :
  ∀ prev inside, (inside ≤ length s)%nat →
    ∃ n,
      let open := match inside with O => O | S _ => 1%nat end in
      length (sub_wrap U pat prev inside s) = (length s + 2 * n + open)%nat
      ∧ occurrences (ch "[") (sub_wrap U pat prev inside s)
        = (occurrences (ch "[") s + n)%nat
      ∧ occurrences (ch "]") (sub_wrap U pat prev inside s)
        = (occurrences (ch "]") s + n + open)%nat.
Proof.
  induction s as [|c s IH]; intros prev inside Hin.
  - destruct inside; [|simpl in Hin; lia]. simpl.
    destruct (match_here U pat prev []); [exists 1%nat | exists 0%nat]; done.
  - assert (Hcopy : ∀ m, (m ≤ length s)%nat →
      ∃ n,
        length (c :: match m with
                     | O => (ch "]") :: sub_wrap U pat (Some c) 0 s
                     | S _ => sub_wrap U pat (Some c) m s
                     end) = (length (c :: s) + 2 * n + 1)%nat
        ∧ occurrences (ch "[")
            (c :: match m with
                  | O => (ch "]") :: sub_wrap U pat (Some c) 0 s
                  | S _ => sub_wrap U pat (Some c) m s
                  end) = (occurrences (ch "[") (c :: s) + n)%nat
        ∧ occurrences (ch "]")
            (c :: match m with
                  | O => (ch "]") :: sub_wrap U pat (Some c) 0 s
                  | S _ => sub_wrap U pat (Some c) m s
                  end) = (occurrences (ch "]") (c :: s) + n + 1)%nat).
    { intros m Hm. destruct m as [|m].
      - destruct (IH (Some c) 0%nat) as (n & Hl & Ho & Hc); [lia|].
        exists n. cbv zeta in Hl, Ho, Hc.
        rewrite !occurrences_cons, Ho, Hc. simpl length. rewrite Hl.
        pairs_arith.
      - destruct (IH (Some c) (S m)) as (n & Hl & Ho & Hc); [lia|].
        exists n. cbv zeta in Hl, Ho, Hc.
        rewrite !occurrences_cons, Ho, Hc. simpl length. rewrite Hl.
        pairs_arith. }
    simpl sub_wrap. destruct inside as [|m].
    + destruct (match_here U pat prev (c :: s)) as [[|m]|] eqn:Hm.
      * destruct (IH (Some c) 0%nat) as (n & Hl & Ho & Hc); [lia|].
        exists (S n). cbv zeta in Hl, Ho, Hc |- *.
        rewrite !occurrences_cons, Ho, Hc. simpl length. rewrite Hl.
        pairs_arith.
      * apply match_here_length in Hm. simpl in Hm.
        destruct (Hcopy m) as (n & Hl & Ho & Hc); [lia|].
        exists (S n). cbv zeta.
        rewrite !(occurrences_cons _ (ch "[")), Ho, Hc.
        simpl length in *. rewrite Hl. rewrite !occurrences_cons.
        pairs_arith.
      * destruct (IH (Some c) 0%nat) as (n & Hl & Ho & Hc); [lia|].
        exists n. cbv zeta in Hl, Ho, Hc |- *.
        rewrite !occurrences_cons, Ho, Hc. simpl length. rewrite Hl.
        pairs_arith.
    + simpl in Hin. destruct (Hcopy m) as (n & Hl & Ho & Hc); [lia|].
      exists n. cbv zeta. rewrite Hl, Ho, Hc. done.
Qed.

Lemma search_from_none (U : Unicode) (pat : list atom) (s : pystr) :
  ∀ prev, search_from U pat prev s = false → sub_wrap U pat prev 0 s = s.
Proof.
  induction s as [|c s IH]; intros prev; simpl.
  - by destruct (match_here U pat prev []).
  - destruct (match_here U pat prev (c :: s)); [done|].
    intros H. by rewrite IH.
Qed.

Lemma insert_by_len_elem (x y : pystr) (l : list pystr) :
  y ∈ insert_by_len x l → y = x ∨ y ∈ l.
Proof.
  induction l as [|z l IH]; simpl.
  - intros ->%list_elem_of_singleton. by left.
  - destruct (length z <=? length x)%nat.
    + intros [->|?]%elem_of_cons; [by left | by right].
    + intros [->|Hy]%elem_of_cons; [right; apply list_elem_of_here|].
      destruct (IH Hy) as [?|?]; [by left|]. right. by apply list_elem_of_further.
Qed.

Lemma sorted_by_len_desc_elem (y : pystr) (l : list pystr) :
  y ∈ sorted_by_len_desc l → y ∈ l.
Proof.
  induction l as [|x l IH]; simpl; [done|].
  intros [->|Hy]%insert_by_len_elem; [apply list_elem_of_here|].
  by apply list_elem_of_further, IH.
Qed.

End highlight_facts.

(** X4: the markers [highlight] adds come in pairs: the result is longer
    by two characters per pair and has as many more opening as closing
    brackets than the text had. *)
Theorem highlight_adds_bracket_pairs (U : Unicode) (so : SetOrder) (t : pystr)
    (keywords : list pystr) :
  ∃ n,
    length (highlight U so t keywords) = (length t + 2 * n)%nat
    ∧ occurrences (ch "[") (highlight U so t keywords)
      = (occurrences (ch "[") t + n)%nat
    ∧ occurrences (ch "]") (highlight U so t keywords)
      = (occurrences (ch "]") t + n)%nat.
Proof.
  unfold highlight. destruct keywords as [|kw0 kws]; [exists 0%nat; lia|].
  generalize (sorted_by_len_desc (set_elements so (kw0 :: kws))).
  intros l. revert t. induction l as [|kw l IH]; intros t; simpl.
  - exists 0%nat. lia.
  - destruct (IH (re_sub_wrap U (kw_pattern kw) t)) as (n & Hl & Ho & Hc).
    destruct (sub_wrap_pairs U (kw_pattern kw) t None 0%nat) as (m & Hm1 & Hm2 & Hm3);
      [lia|].
    cbv zeta in Hm1, Hm2, Hm3.
    fold (re_sub_wrap U (kw_pattern kw) t) in Hm1, Hm2, Hm3.
    exists (n + m)%nat. rewrite Hl, Ho, Hc, Hm1, Hm2, Hm3. lia.
Qed.

(** X5: keywords that do not occur in the text as whole words, in any
    letter case, leave it unchanged. *)
Theorem highlight_without_match (U : Unicode) (so : SetOrder) (t : pystr)
    (keywords : list pystr) :
  (∀ kw, kw ∈ keywords → re_search U (kw_pattern kw) t = false) →
  highlight U so t keywords = t.
Proof.
  intros Hno. unfold highlight. destruct keywords as [|kw0 kws]; [done|].
  assert (Hl : ∀ kw, kw ∈ sorted_by_len_desc (set_elements so (kw0 :: kws)) →
                     re_search U (kw_pattern kw) t = false).
  { intros kw Hkw%sorted_by_len_desc_elem. apply Hno.
    by apply (set_elements_spec so). }
  revert Hl. generalize (sorted_by_len_desc (set_elements so (kw0 :: kws))).
  intros l. induction l as [|kw l IH]; intros Hl; simpl; [done|].
  unfold re_sub_wrap. rewrite search_from_none by apply Hl, list_elem_of_here.
  apply IH. intros kw2 Hkw2. by apply Hl, list_elem_of_further.
Qed.

(** A text with no "kafka" in it, and two keywords. *)
Lemma highlight_without_match_witness :
  (∀ kw, kw ∈ [str "kafka"; str "go"] →
         re_search ascii_tables (kw_pattern kw) (str "Django developer, gopher") = false)
  ∧ highlight ascii_tables first_seen_order (str "Django developer, gopher")
              [str "kafka"; str "go"]
    = str "Django developer, gopher".
Proof.
  assert (H : ∀ kw, kw ∈ [str "kafka"; str "go"] →
              re_search ascii_tables (kw_pattern kw) (str "Django developer, gopher") = false).
  { intros kw [->|[->|[]%elem_of_nil]%elem_of_cons]%elem_of_cons; by vm_compute. }
  split; [exact H|].
  exact (highlight_without_match ascii_tables first_seen_order _ _ H).
Defined.

(** ** [extract_tech_terms] *)

Section tech_terms_facts.

Lemma fromkeys_spec (l : list pystr) :
  ∀ seen : gset pystr,
    NoDup (fromkeys seen l)
    ∧ fromkeys seen l `sublist_of` l
    ∧ ∀ x, x ∈ fromkeys seen l → x ∉ seen.
Proof.
  induction l as [|x l IH]; intros seen; simpl.
  - split; [constructor|]. split; [done|]. by intros ? ?%elem_of_nil.
  - destruct (decide (x ∈ seen)) as [Hx|Hx].
    + destruct (IH seen) as (Hnd & Hsub & Hin).
      split; [done|]. split; [by apply sublist_cons | done].
    + destruct (IH ({[x]} ∪ seen)) as (Hnd & Hsub & Hin).
      split; [|split].
      * constructor; [|done]. intros Hxin%Hin. apply Hxin.
        apply elem_of_union_l. by apply elem_of_singleton.
      * by apply sublist_skip.
      * intros y [->|Hy%Hin]%elem_of_cons; [done|].
        intros ?. apply Hy. by apply elem_of_union_r.
Qed.

Lemma ascii_lower_idemp (c : char) :
  ascii_lower (ascii_lower c) = ascii_lower c.
Proof.
  unfold ascii_lower. destruct (is_upper c) eqn:Hc; [|by rewrite Hc].
  assert (is_upper (c + 32) = false) as ->; [|done].
  unfold is_upper, in_range in *.
  apply andb_true_iff in Hc as [H1%N.leb_le H2%N.leb_le].
  apply andb_false_iff. right. apply N.leb_gt. lia.
Qed.

Lemma ascii_lower_ascii (c : char) :
  is_ascii c = true → is_ascii (ascii_lower c) = true.
Proof.
  unfold ascii_lower. destruct (is_upper c) eqn:Hc; [|done].
  unfold is_upper, in_range, is_ascii in *.
  apply andb_true_iff in Hc as [H1%N.leb_le H2%N.leb_le].
  intros _. apply N.ltb_lt. lia.
Qed.

Lemma lower_ascii (U : Unicode) (t : pystr) :
  forallb is_ascii t = true → lower U t = map ascii_lower t.
Proof. intros Ht. unfold lower. by rewrite Ht. Qed.

Lemma forallb_ascii_lower (t : pystr) :
  forallb is_ascii t = true → forallb is_ascii (map ascii_lower t) = true.
Proof.
  induction t as [|c t IH]; [done|]. simpl.
  intros [Hc Ht]%andb_true_iff. by rewrite ascii_lower_ascii, IH.
Qed.

(** On ASCII characters a match of a literal is equality up to case. *)
Lemma match_here_literal (U : Unicode) (pat : list atom) :
  ∀ prev s n,
    forallb is_ascii (literal pat) = true → forallb is_ascii s = true →
    match_here U pat prev s = Some n →
    map ascii_lower (take n s) = map ascii_lower (literal pat).
Proof.
  induction pat as [|a pat IH]; intros prev s n; simpl.
  - by intros _ _ [= <-].
  - destruct a as [|c].
    + destruct (at_boundary U prev (head s)); [apply IH | done].
    + unfold literal. simpl. fold (literal pat).
      intros [Hc Hpat]%andb_true_iff.
      destruct s as [|x s]; [done|]. simpl.
      intros [Hx Hs]%andb_true_iff.
      destruct (char_eq_ic U c x) eqn:Hcx; [|done].
      destruct (match_here U pat (Some x) s) as [m|] eqn:Hm; [|done].
      simpl. intros [= <-]. simpl. apply (IH _ _ _ Hpat Hs) in Hm. rewrite Hm.
      f_equal. unfold char_eq_ic in Hcx. rewrite Hc, Hx in Hcx. simpl in Hcx.
      apply N.eqb_eq in Hcx. congruence.
Qed.

Lemma search_from_infix (U : Unicode) (pat : list atom) (s : pystr) :
  forallb is_ascii (literal pat) = true →
  ∀ prev, forallb is_ascii s = true → search_from U pat prev s = true →
          ∃ a u b, s = a ++ u ++ b
                   ∧ map ascii_lower u = map ascii_lower (literal pat).
Proof.
  intros Hpat. induction s as [|c s IH]; intros prev Hs; simpl.
  - destruct (match_here U pat prev []) as [n|] eqn:Hm; [|done]. intros _.
    exists [], (take n []), (drop n []). split; [by rewrite take_drop|].
    by eapply match_here_literal.
  - destruct (match_here U pat prev (c :: s)) as [n|] eqn:Hm.
    + intros _. exists [], (take n (c :: s)), (drop n (c :: s)).
      split; [by rewrite take_drop|]. by eapply match_here_literal.
    + simpl in Hs. apply andb_true_iff in Hs as [_ Hs].
      intros (a & u & b & -> & Hu)%IH; [|done]. by exists (c :: a), u, b.
Qed.

Lemma lower_fixed (U : Unicode) (u : pystr) (t : pystr) (a b : pystr) :
  forallb is_ascii t = true →
  lower U t = a ++ u ++ b → map ascii_lower u = u.
Proof.
  intros Hascii Ht.
  assert (HF : Forall (λ c, ascii_lower c = c) (lower U t)).
  { rewrite lower_ascii by done.
    apply Forall_forall. intros c (d & -> & _)%list_elem_of_fmap.
    apply ascii_lower_idemp. }
  rewrite Ht in HF. apply Forall_app in HF as [_ HF].
  apply Forall_app in HF as [HF _].
  clear Ht. induction HF as [|c u Hc _ IH]; [done|]. cbn [map]. by f_equal.
Qed.

(** Each pattern of the table stands for its term: the literal characters
    of the pattern are the term, and they are lower-case ASCII. *)
Lemma TECH_PATTERNS_literal (p : pystr) :
  p ∈ TECH_PATTERNS →
  literal (parse_pattern false p) = term_of p
  ∧ map ascii_lower (term_of p) = term_of p
  ∧ forallb is_ascii (term_of p) = true.
Proof.
  assert (H : Forall (λ p, literal (parse_pattern false p) = term_of p
                           ∧ map ascii_lower (term_of p) = term_of p
                           ∧ forallb is_ascii (term_of p) = true)
                     TECH_PATTERNS).
  { unfold TECH_PATTERNS.
    repeat (constructor; [repeat split; vm_compute; reflexivity|]).
    constructor. }
  rewrite Forall_forall in H. apply H.
Qed.

Lemma lower_lower (U : Unicode) (t : pystr) :
  forallb is_ascii t = true → lower U (lower U t) = lower U t.
Proof.
  intros Ht. rewrite (lower_ascii U t Ht).
  rewrite lower_ascii by by apply forallb_ascii_lower.
  rewrite map_map. apply map_ext. apply ascii_lower_idemp.
Qed.

(** A returned term comes from a pattern of the table that matches the
    lower-cased text. *)
Lemma tech_terms_found (U : Unicode) (t : option pystr) (term : pystr) :
  term ∈ extract_tech_terms U t →
  ∃ p, p ∈ TECH_PATTERNS ∧ term = term_of p
       ∧ re_search U (parse_pattern false p) (lower U (or_empty t)) = true.
Proof.
  unfold extract_tech_terms. intros Hterm.
  destruct (fromkeys_spec
              (map term_of
                 (filter (λ p, re_search U (parse_pattern false p)
                                         (lower U (or_empty t)) = true)
                         TECH_PATTERNS)) ∅) as (_ & Hsub & _).
  eapply elem_of_sublist in Hterm; [|exact Hsub].
  apply list_elem_of_fmap in Hterm as (p & -> & Hp).
  apply list_elem_of_filter in Hp as [Hsearch Hp]. by exists p.
Qed.

Lemma re_search_infix (U : Unicode) (p : pystr) (s : pystr) :
  forallb is_ascii s = true →
  p ∈ TECH_PATTERNS → re_search U (parse_pattern false p) (lower U s) = true →
  ∃ a b, lower U s = a ++ term_of p ++ b.
Proof.
  intros Hascii Hp Hsearch.
  destruct (TECH_PATTERNS_literal p Hp) as (Hlit & Hlow & Hterm).
  apply search_from_infix in Hsearch as (a & u & b & Hs & Hu).
  - exists a, b. rewrite Hs. do 2 f_equal.
    rewrite <- (lower_fixed U u _ a b Hascii Hs), Hu, Hlit. exact Hlow.
  - by rewrite Hlit.
  - rewrite lower_ascii by done. by apply forallb_ascii_lower.
Qed.

End tech_terms_facts.

(** X6: [extract_tech_terms] returns each term at most once and in the
    order of the pattern table: a sub-list of the table's terms. *)
Theorem extract_tech_terms_ordered_unique (U : Unicode) (t : option pystr) :
  NoDup (extract_tech_terms U t)
  ∧ extract_tech_terms U t `sublist_of` map term_of TECH_PATTERNS.
Proof.
  unfold extract_tech_terms.
  destruct (fromkeys_spec
              (map term_of
                 (filter (λ p, re_search U (parse_pattern false p)
                                         (lower U (or_empty t)) = true)
                         TECH_PATTERNS)) ∅) as (Hnd & Hsub & _).
  split; [done|]. etrans; [exact Hsub|].
  apply fmap_sublist, sublist_filter.
Qed.

(** X7: every term [extract_tech_terms] returns for an ASCII text occurs
    literally in the lower-cased text. (Beyond ASCII a pattern can match
    a character that [str.lower] keeps, as "s" matches the long s.) *)
Theorem extract_tech_terms_occur (U : Unicode) (t : option pystr) (term : pystr) :
  forallb is_ascii (or_empty t) = true →
  term ∈ extract_tech_terms U t →
  ∃ a b, lower U (or_empty t) = a ++ term ++ b.
Proof.
  intros Hascii (p & Hp & -> & Hsearch)%tech_terms_found.
  by apply re_search_infix.
Qed.

(** "kafka" in a text that spells it "Kafka". *)
Lemma extract_tech_terms_occur_witness :
  forallb is_ascii (or_empty (Some (str "Apache Kafka, Go"))) = true
  ∧ str "kafka"
    ∈ extract_tech_terms ascii_tables (Some (str "Apache Kafka, Go"))
  ∧ ∃ a b, lower ascii_tables (or_empty (Some (str "Apache Kafka, Go")))
           = a ++ str "kafka" ++ b.
Proof.
  assert (H : str "kafka"
              ∈ extract_tech_terms ascii_tables (Some (str "Apache Kafka, Go"))).
  { replace (extract_tech_terms ascii_tables (Some (str "Apache Kafka, Go")))
      with [str "go"; str "kafka"] by (by vm_compute).
    apply list_elem_of_further, list_elem_of_here. }
  split; [reflexivity|]. split; [exact H|].
  exact (extract_tech_terms_occur ascii_tables
           (Some (str "Apache Kafka, Go")) (str "kafka") eq_refl H).
Defined.

(** ** [extract_query_keywords] *)

Section keywords_facts.

Lemma findall_tokens_spec (U : Unicode) (s : pystr) :
  ∀ cur tok,
    Forall (λ c, is_token_char U c = true) cur →
    tok ∈ findall_tokens U cur s →
    (3 ≤ length tok)%nat
    ∧ Forall (λ c, is_token_char U c = true) tok
    ∧ ∃ a b, rev cur ++ s = a ++ tok ++ b.
Proof.
  assert (Hclose : ∀ cur tok rest,
            Forall (λ c, is_token_char U c = true) cur →
            tok ∈ close_run cur →
            (3 ≤ length tok)%nat
            ∧ Forall (λ c, is_token_char U c = true) tok
            ∧ ∃ a b, rev cur ++ rest = a ++ tok ++ b).
  { intros cur tok rest Hcur. unfold close_run.
    destruct (3 <=? length cur)%nat eqn:Hlen; [|by intros ?%elem_of_nil].
    intros ->%list_elem_of_singleton. apply Nat.leb_le in Hlen.
    rewrite rev_reverse. split; [by rewrite length_reverse|].
    split; [by apply Forall_reverse|]. by exists [], rest. }
  induction s as [|c s IH]; intros cur tok Hcur; simpl.
  - by apply Hclose.
  - destruct (is_token_char U c) eqn:Hc.
    + intros Htok. destruct (IH (c :: cur) tok) as (Hlen & Hall & a & b & Hab);
        [by constructor | done |].
      split; [done|]. split; [done|]. exists a, b. rewrite <- Hab. simpl.
      by rewrite <- app_assoc.
    + intros [Htok|Htok]%elem_of_app.
      * by apply Hclose.
      * destruct (IH [] tok) as (Hlen & Hall & a & b & Hab); [constructor|done|].
        split; [done|]. split; [done|].
        exists (rev cur ++ c :: a), b. simpl in Hab. rewrite Hab.
        by rewrite <- app_assoc.
Qed.

Lemma count_of_snoc (y x : pystr) (l : list pystr) :
  count_of y (l ++ [x]) = (count_of y l + if decide (x = y) then 1 else 0)%nat.
Proof.
  unfold count_of. rewrite filter_app, length_app. f_equal.
  rewrite filter_cons. by destruct (decide (x = y)).
Qed.

Lemma count_of_pos (y : pystr) (l : list pystr) :
  (0 < count_of y l)%nat ↔ y ∈ l.
Proof.
  unfold count_of. split.
  - destruct (filter (λ z, z = y) l) as [|z f] eqn:Hf; simpl; [lia|]. intros _.
    assert (Hz : z ∈ filter (λ z, z = y) l) by (rewrite Hf; apply list_elem_of_here).
    by apply list_elem_of_filter in Hz as [-> ?].
  - intros Hy.
    assert (Hz : y ∈ filter (λ z, z = y) l) by (by apply list_elem_of_filter).
    destruct (filter (λ z, z = y) l); [by apply elem_of_nil in Hz | simpl; lia].
Qed.

Lemma counter_add_keys (x : pystr) (cnt : list (pystr * nat)) (y : pystr) :
  y ∈ (counter_add x cnt).*1 ↔ y = x ∨ y ∈ cnt.*1.
Proof.
  induction cnt as [|[z n] cnt IH]; simpl.
  - rewrite list_elem_of_singleton. rewrite elem_of_nil. tauto.
  - destruct (decide (x = z)) as [->|Hne]; simpl.
    + rewrite elem_of_cons. tauto.
    + rewrite !elem_of_cons, IH. tauto.
Qed.

Lemma counter_add_spec (x : pystr) (cnt : list (pystr * nat)) :
  NoDup cnt.*1 →
  NoDup (counter_add x cnt).*1
  ∧ ∀ y n, (y, n) ∈ counter_add x cnt ↔
           (y ≠ x ∧ (y, n) ∈ cnt)
           ∨ (y = x ∧ ((∃ m, n = S m ∧ (x, m) ∈ cnt)
                       ∨ (n = 1%nat ∧ x ∉ cnt.*1))).
Proof.
  induction cnt as [|[z k] cnt IH]; simpl; intros Hnd.
  - split; [apply NoDup_singleton|]. intros y n.
    rewrite list_elem_of_singleton. split.
    + intros [= -> ->]. right. split; [done|]. right. split; [done|].
      apply not_elem_of_nil.
    + intros [[_ Hin]|[-> [(m & _ & Hin)|[-> _]]]];
        [by apply elem_of_nil in Hin..|done].
  - apply NoDup_cons in Hnd as [Hz Hnd].
    assert (Hkey : ∀ m, (z, m) ∈ cnt → False).
    { intros m Hin. apply Hz. apply list_elem_of_fmap. by exists (z, m). }
    destruct (decide (x = z)) as [->|Hne]; simpl.
    + split; [by constructor|]. intros y n. rewrite !elem_of_cons. split.
      * intros [Heq|Hin].
        -- injection Heq as -> ->. right. split; [done|]. left. exists k.
           split; [done|]. by left.
        -- left. split; [|by right]. intros ->. by eapply Hkey.
      * intros [[Hy [Heq|Hin]]|[-> [(m & -> & [Heq|Hin]%elem_of_cons)|[_ Hno]]]].
        -- by injection Heq as -> ->.
        -- by right.
        -- injection Heq as ->. by left.
        -- exfalso. by eapply Hkey.
        -- exfalso. apply Hno. by left.
    + destruct (IH Hnd) as [Hnd' Hiff]. split.
      * constructor; [|done]. rewrite counter_add_keys. intros [->|?]; done.
      * intros y n. rewrite !elem_of_cons, Hiff. split.
        -- intros [Heq|[[Hy Hin]|[-> [(m & -> & Hin)|[-> Hno]]]]].
           ++ injection Heq as -> ->. left. split; [by intros ->|]. by left.
           ++ left. split; [done|]. by right.
           ++ right. split; [done|]. left. exists m. split; [done|].
              by apply list_elem_of_further.
           ++ right. split; [done|]. right. split; [done|].
              intros [?|?]; done.
        -- intros [[Hy [Heq|Hin]]|[-> [(m & -> & [Heq|Hin]%elem_of_cons)|[-> Hno]]]].
           ++ by left.
           ++ right. left. done.
           ++ by injection Heq as -> ->.
           ++ right. right. split; [done|]. left. by exists m.
           ++ right. right. split; [done|]. right. split; [done|].
              intros ?. apply Hno. by right.
Qed.

(** [Counter] holds each distinct token once, with the number of its
    occurrences. *)
Lemma Counter_spec (tokens : list pystr) :
  NoDup (Counter tokens).*1
  ∧ ∀ y n, (y, n) ∈ Counter tokens ↔ n = count_of y tokens ∧ (0 < n)%nat.
Proof.
  unfold Counter. induction tokens as [|x l IH] using rev_ind.
  - simpl. split; [constructor|]. intros y n. rewrite elem_of_nil.
    unfold count_of. simpl. lia.
  - rewrite foldl_app. simpl. destruct IH as [Hnd Hiff].
    destruct (counter_add_spec x _ Hnd) as [Hnd' Hadd]. split; [done|].
    intros y n. rewrite Hadd, count_of_snoc.
    destruct (decide (x = y)) as [<-|Hne].
    + split.
      * intros [[? _]|[_ [(m & -> & Hin)|[-> Hno]]]]; [done| |].
        -- apply Hiff in Hin as [-> ?]. lia.
        -- destruct (count_of x l) as [|c] eqn:Hc; [lia|]. exfalso.
           apply Hno. apply list_elem_of_fmap. exists (x, S c). split; [done|].
           apply Hiff. lia.
      * intros [-> _]. right. split; [done|].
        destruct (count_of x l) as [|c] eqn:Hc.
        -- right. split; [done|].
           intros ([z m] & Hz & Hin)%list_elem_of_fmap. simpl in Hz. subst z.
           apply Hiff in Hin. lia.
        -- left. exists (S c). split; [lia|]. apply Hiff. lia.
    + rewrite Nat.add_0_r, Hiff. split.
      * intros [[_ ?]|[-> _]]; done.
      * intros ?. left. split; [by intros ->|done].
Qed.

Lemma insert_by_count_perm (x : pystr * nat) (l : list (pystr * nat)) :
  insert_by_count x l ≡ₚ x :: l.
Proof.
  induction l as [|y l IH]; simpl; [done|].
  destruct (y.2 <=? x.2)%nat; [done|]. rewrite IH. apply Permutation_swap.
Qed.

Lemma insert_by_count_sorted (x : pystr * nat) (l : list (pystr * nat)) :
  StronglySorted by_count l → StronglySorted by_count (insert_by_count x l).
Proof.
  induction 1 as [|y l Hs IH Hall]; simpl.
  - constructor; constructor.
  - destruct (y.2 <=? x.2)%nat eqn:Hle.
    + apply Nat.leb_le in Hle. constructor; [by constructor|].
      constructor; [done|]. eapply Forall_impl; [exact Hall|].
      unfold by_count. intros z Hz. lia.
    + apply Nat.leb_gt in Hle. constructor; [done|].
      rewrite insert_by_count_perm. constructor; [|done].
      unfold by_count. lia.
Qed.

Lemma most_common_spec (n : Z) (cnt : list (pystr * nat)) :
  ∃ sorted, sorted ≡ₚ cnt ∧ StronglySorted by_count sorted
            ∧ most_common n cnt = take (Z.to_nat n) sorted.
Proof.
  exists (foldr insert_by_count [] cnt). split; [|split; [|done]].
  - induction cnt as [|x cnt IH]; simpl; [done|].
    by rewrite insert_by_count_perm, IH.
  - induction cnt as [|x cnt IH]; simpl; [constructor|].
    by apply insert_by_count_sorted.
Qed.

Lemma extract_query_keywords_tokens (U : Unicode) (query : option pystr) (max_words : Z) :
  extract_query_keywords U query max_words
  = (most_common max_words (Counter (query_tokens U query))).*1.
Proof. reflexivity. Qed.

Lemma query_tokens_spec (U : Unicode) (query : option pystr) (tok : pystr) :
  tok ∈ query_tokens U query →
  (3 ≤ length tok)%nat
  ∧ Forall (λ c, is_token_char U c = true) tok
  ∧ (tok ∉ RU_STOP) ∧ (tok ∉ EN_STOP)
  ∧ ∃ a b, lower U (or_empty query) = a ++ tok ++ b.
Proof.
  unfold query_tokens. intros [[Hru Hen] Htok]%list_elem_of_filter.
  apply findall_tokens_spec in Htok as (Hlen & Hall & Hinf); [|constructor].
  done.
Qed.

End keywords_facts.

(** X8: the keywords of a query are distinct, at most [max_words] many
    (none when [max_words] is not positive), and each is a run of at least
    three token characters cut out of the lower-cased query that is in
    neither stop list. *)
Theorem extract_query_keywords_shape (U : Unicode) (query : option pystr) (max_words : Z) :
  NoDup (extract_query_keywords U query max_words)
  ∧ Z.of_nat (length (extract_query_keywords U query max_words))
    ≤ Z.max 0 max_words
  ∧ ∀ kw, kw ∈ extract_query_keywords U query max_words →
          (3 ≤ length kw)%nat
          ∧ Forall (λ c, is_token_char U c = true) kw
          ∧ (kw ∉ RU_STOP) ∧ (kw ∉ EN_STOP)
          ∧ ∃ a b, lower U (or_empty query) = a ++ kw ++ b.
Proof.
  rewrite extract_query_keywords_tokens.
  destruct (most_common_spec max_words (Counter (query_tokens U query)))
    as (sorted & Hperm & _ & ->).
  destruct (Counter_spec (query_tokens U query)) as [Hnd Hiff].
  split; [|split].
  - eapply sublist_NoDup; [|apply fmap_sublist, sublist_take].
    by rewrite Hperm.
  - rewrite length_fmap, length_take. lia.
  - intros kw ([kw' n] & -> & Hin)%list_elem_of_fmap. simpl.
    apply elem_of_take in Hin as (i & Hin & _).
    apply list_elem_of_lookup_2 in Hin. rewrite Hperm in Hin.
    apply Hiff in Hin as [-> Hpos]. apply count_of_pos in Hpos.
    by apply query_tokens_spec.
Qed.

(** X9: the keywords come in order of frequency: a keyword never has more
    occurrences among the query's tokens than a keyword listed before it,
    and each keyword occurs at least once. *)
Theorem extract_query_keywords_by_frequency (U : Unicode)
    (query : option pystr) (max_words : Z) (i j : nat) (a b : pystr) :
  extract_query_keywords U query max_words !! i = Some a →
  extract_query_keywords U query max_words !! j = Some b →
  (i < j)%nat →
  (1 ≤ count_of b (query_tokens U query) ≤ count_of a (query_tokens U query))%nat.
Proof.
  rewrite extract_query_keywords_tokens.
  destruct (most_common_spec max_words (Counter (query_tokens U query)))
    as (sorted & Hperm & Hsorted & ->).
  destruct (Counter_spec (query_tokens U query)) as [_ Hiff].
  rewrite !list_lookup_fmap. intros Hi Hj Hlt.
  destruct (take (Z.to_nat max_words) sorted !! i) as [[a' na]|] eqn:Ha;
    [|done].
  destruct (take (Z.to_nat max_words) sorted !! j) as [[b' nb]|] eqn:Hb;
    [|done].
  simpl in Hi, Hj. injection Hi as ->. injection Hj as ->.
  assert (Hle : by_count (a, na) (b, nb)).
  { eapply (StronglySorted_lookup by_count); [|exact Ha|exact Hb|exact Hlt].
    eapply StronglySorted_sublist; [apply sublist_take|exact Hsorted]. }
  apply list_elem_of_lookup_2 in Ha, Hb.
  apply elem_of_take in Ha as (? & Ha & _), Hb as (? & Hb & _).
  apply list_elem_of_lookup_2 in Ha, Hb. rewrite Hperm in Ha, Hb.
  apply Hiff in Ha as [-> _], Hb as [-> Hpos].
  unfold by_count in Hle. simpl in Hle. lia.
Qed.

(** "python" twice and "sql" once. *)
Lemma extract_query_keywords_by_frequency_witness :
  (1 ≤ count_of (str "sql")
         (query_tokens ascii_tables (Some (str "SQL and Python, python for the job")))
     ≤ count_of (str "python")
         (query_tokens ascii_tables (Some (str "SQL and Python, python for the job"))))%nat.
Proof.
  apply (extract_query_keywords_by_frequency ascii_tables
           (Some (str "SQL and Python, python for the job")) 12 0 1).
  - by vm_compute.
  - by vm_compute.
  - lia.
Defined.

(** * Further properties of retrieval *)

(** ** What [retrieve_vacancies] hands to its callers *)

(** X10: the order list and the dictionary [retrieve_vacancies] returns
    agree: the list has no repetition, it holds exactly the keys of the
    dictionary, every entry is filed under its own vacancy id and has at
    least one evidence; the flag is the probe's answer and the weight is
    the caller's, or 0 without [pg_trgm]. *)
Theorem retrieve_vacancies_consistent
    (E : SqlEngine) (db : store) (k per_vac candidates : Z) (kw_weight : Q)
    (vac_order : list Z) (vac_map : gmap Z vac_item) (trgm : bool)
    (kw_used : Q) :
  retrieve_vacancies E db k per_vac candidates kw_weight
  = Ok (vac_order, vac_map, trgm, kw_used) →
  NoDup vac_order
  ∧ (∀ v, v ∈ vac_order ↔ is_Some (vac_map !! v))
  ∧ (∀ v item, vac_map !! v = Some item →
               item_vacancy_id item = v ∧ item_evidence item ≠ [])
  ∧ trgm = has_pg_trgm db
  ∧ kw_used = (if trgm then kw_weight else 0%Q).
Proof.
  unfold retrieve_vacancies.
  destruct (if has_pg_trgm db && is_positive _ then _ else _)
    as [rows|e]; [|done].
  simpl. destruct (foldl add_row (∅, []) rows) as [m o] eqn:Hfold.
  apply add_rows_spec in Hfold as [-> Hm]. simpl.
  rewrite unique_order_id;
    [|apply first_rows_NoDup | intros; apply not_elem_of_empty].
  intros [= <- <- <- <-].
  split; [apply first_rows_NoDup|]. split; [|split].
  - intros v. rewrite Hm. split.
    + intros (r0 & -> & Hr0)%list_elem_of_fmap.
      destruct (first_rows_head _ _ _ Hr0) as [rest ->]. by eexists.
    + intros [item Hitem]. apply first_rows_elem_vid; [|apply not_elem_of_nil].
      destruct (rows_of v rows) as [|r0 rest] eqn:Hrows; [done|].
      assert (Hr0 : r0 ∈ rows_of v rows) by (rewrite Hrows; apply list_elem_of_here).
      apply list_elem_of_filter in Hr0 as [<- Hr0].
      apply list_elem_of_fmap. by exists r0.
  - intros v item. rewrite Hm.
    destruct (rows_of v rows) as [|r0 rest] eqn:Hrows; [done|].
    assert (Hr0 : r0 ∈ rows_of v rows) by (rewrite Hrows; apply list_elem_of_here).
    apply list_elem_of_filter in Hr0 as [<- Hr0].
    simpl. intros [= <-]. done.
  - split; [done|]. by destruct (has_pg_trgm db).
Qed.

(** The scenario store, two results asked for. *)
Lemma retrieve_vacancies_consistent_witness :
  ∃ vac_order vac_map trgm kw_used,
    retrieve_vacancies stable_engine (scenario_db true) 2 2 250 (1 # 4)%Q
    = Ok (vac_order, vac_map, trgm, kw_used)
    ∧ NoDup vac_order
    ∧ (∀ v, v ∈ vac_order ↔ is_Some (vac_map !! v))
    ∧ (∀ v item, vac_map !! v = Some item →
                 item_vacancy_id item = v ∧ item_evidence item ≠ [])
    ∧ trgm = has_pg_trgm (scenario_db true)
    ∧ kw_used = (if trgm then (1 # 4)%Q else 0%Q).
Proof.
  eexists _, _, _, _. split; [vm_compute; reflexivity|].
  apply (retrieve_vacancies_consistent
           stable_engine (scenario_db true) 2 2 250 (1 # 4)%Q).
  vm_compute; reflexivity.
Defined.

(** ** [search] as a whole *)

Lemma sql_limit_err {A} (n : Z) (l : list A) (e : error) :
  sql_limit n l = Err e → e ≠ KeyError.
Proof.
  unfold sql_limit. destruct (n <? 0); [by intros [= <-]|].
  destruct (int8_max <? n); [by intros [= <-]|done].
Qed.

Lemma statement_err (E : SqlEngine) (db : store) (k per_vac candidates : Z)
    (kw_weight : Q) (e : error) :
  statement E db k per_vac candidates kw_weight = Err e → e ≠ KeyError.
Proof.
  assert (Hsel : ∀ scored, select_ranked E scored k per_vac = Err e →
                           e ≠ KeyError).
  { intros scored. unfold select_ranked, top_vacs.
    destruct (sql_limit k _) as [top|e'] eqn:Hl; [done|].
    simpl. intros [= ->]. by eapply sql_limit_err. }
  assert (Hsc : candidate_stream E db candidates kw_weight = Err e →
                e ≠ KeyError).
  { unfold candidate_stream, scored_with_trgm, scored_no_trgm.
    destruct (has_pg_trgm db && is_positive kw_weight); apply sql_limit_err. }
  rewrite statement_run_select. unfold run_select.
  destruct (plan E) as [stop|stop].
  - destruct (candidate_stream E db candidates kw_weight) as [l|e'];
      [|intros [= ->]; by apply Hsc].
    rewrite bind_Ok. destruct (_ && _); [done | apply Hsel].
  - destruct (sql_limit k []) as [top|e'] eqn:Hl;
      [|intros [= ->]; by eapply sql_limit_err].
    rewrite bind_Ok. destruct (_ && _); [done|].
    destruct (candidate_stream E db candidates kw_weight) as [l|e'];
      [|intros [= ->]; by apply Hsc].
    rewrite bind_Ok. apply Hsel.
Qed.

(** X11: [search] never fails on a dictionary lookup: every id of
    [vac_order] has its entry in [vac_map]. *)
Theorem search_never_KeyError
    (E : SqlEngine) (U : Unicode) (so : SetOrder) (db : store) (q : pystr)
    (k per_vac candidates : Z) (kw_weight : Q) (max_quote : Z)
    (do_highlight : bool) :
  search E U so db q k per_vac candidates kw_weight max_quote do_highlight
  ≠ Err KeyError.
Proof.
  destruct (statement E db k per_vac candidates (effective_weight db kw_weight))
    as [rows|e] eqn:Hst.
  - by rewrite (search_rows_ok _ _ _ _ _ _ _ _ _ _ _ _ Hst).
  - rewrite (search_rows_err _ _ _ _ _ _ _ _ _ _ _ _ Hst).
    intros [= ->]. by eapply statement_err.
Qed.

(** ** The results of [search] and the store *)

Section results_facts.
Context (E : SqlEngine) (U : Unicode) (so : SetOrder) (db : store) (q : pystr).
Context (k per_vac candidates : Z) (kw_weight : Q).
Context (max_quote : Z) (do_highlight : bool).
Context (resp : response).
Context (Hsearch :
  search E U so db q k per_vac candidates kw_weight max_quote do_highlight
  = Ok resp).

Let kw_used : Q := effective_weight db kw_weight.

(** A scored row is a stored fragment with an embedding, joined with its
    vacancy. *)
Lemma candidate_stream_chunk (scored : list scored_row) (r : scored_row) :
  candidate_stream E db candidates kw_used = Ok scored → r ∈ scored →
  ∃ c v, c ∈ vacancy_chunks db
         ∧ vacancies db !! c_vacancy_id c = Some v
         ∧ c_dist c = Some (dist r)
         ∧ vacancy_id r = c_vacancy_id c ∧ chunk_no r = c_chunk_no c
         ∧ text r = c_text c
         ∧ name r = v_name v ∧ employer_name r = v_employer_name v
         ∧ area_name r = v_area_name v ∧ url r = v_url v
         ∧ ((kw_sim r = c_sim c
             ∧ score r = float_sub E (dist r) (float_mul E kw_used (c_sim c))
             ∧ has_pg_trgm db && is_positive kw_used = true)
            ∨ (kw_sim r = 0%Q ∧ score r = dist r
               ∧ has_pg_trgm db && is_positive kw_used = false)).
Proof.
  assert (Hj : ∀ c v d, (c, v, d) ∈ joined db →
                        c ∈ vacancy_chunks db
                        ∧ vacancies db !! c_vacancy_id c = Some v
                        ∧ c_dist c = Some d).
  { intros c v d. unfold joined. intros (c' & Hc' & Hin)%list_elem_of_omap.
    destruct (vacancies db !! c_vacancy_id c') as [v'|] eqn:Hv; [|done].
    destruct (c_dist c') as [d'|] eqn:Hd; [|done].
    simpl in Hin. by injection Hin as -> -> ->. }
  unfold candidate_stream, scored_with_trgm, scored_no_trgm.
  destruct (has_pg_trgm db && is_positive kw_used) eqn:Hhy.
  - intros Hl Hr. apply (limit_order_elem E _ _ _ _ _ Hl) in Hr.
    apply list_elem_of_fmap in Hr as ([[c v] d] & -> & Hin).
    apply Hj in Hin as (Hc & Hv & Hd). exists c, v. simpl.
    repeat (split; [done|]). left. done.
  - intros Hl Hr. apply (limit_order_elem E _ _ _ _ _ Hl) in Hr.
    apply list_elem_of_fmap in Hr as ([[c v] d] & -> & Hin).
    apply Hj in Hin as (Hc & Hv & Hd). exists c, v. simpl.
    repeat (split; [done|]). right. done.
Qed.

(** The rows the statement returned for a result, and the candidate
    stream they were selected from. *)
Lemma results_rows (item : vac_item) :
  item ∈ results resp →
  ∃ scored rows r0 rest,
    candidate_stream E db candidates kw_used = Ok scored
    ∧ select_ranked E scored k per_vac = Ok rows
    ∧ meta_functional scored
    ∧ r0 ∈ rows ∧ rows_of (row_vid r0) rows = r0 :: rest
    ∧ item = format_item U so (extract_query_keywords U (Some q) 12) max_quote
               do_highlight (built rows r0).
Proof.
  intros Hitem.
  destruct (search_inv_item _ _ _ _ _ _ _ _ _ _ _ _ Hsearch item Hitem)
    as (scored & rows & Hsc & Hsel & Hmeta & Hresp).
  revert Hitem. rewrite Hresp.
  simpl. intros (r0 & -> & Hr0)%list_elem_of_fmap.
  destruct (first_rows_head _ _ _ Hr0) as [rest Hrest].
  exists scored, rows, r0, rest. repeat (split; [done|]).
  split; [|done].
  eapply elem_of_sublist; [exact Hr0 | apply first_rows_sublist].
Qed.

End results_facts.

(** X13: [search] returns at most [k] vacancies, and none when [k] is
    not positive. *)
Theorem results_at_most_k
    (E : SqlEngine) (U : Unicode) (so : SetOrder) (db : store) (q : pystr)
    (k per_vac candidates : Z) (kw_weight : Q) (max_quote : Z)
    (do_highlight : bool) (resp : response) :
  search E U so db q k per_vac candidates kw_weight max_quote do_highlight
  = Ok resp →
  Z.of_nat (length (results resp)) ≤ Z.max 0 k.
Proof.
  intros Hsearch.
  destruct (search_inv _ _ _ _ _ _ _ _ _ _ _ _ Hsearch)
    as (rows & -> & [->|(scored & Hsc & Hsel & Hmeta)]); [simpl; lia|].
  simpl. rewrite length_map, <- (length_map row_vid).
  destruct (select_ranked_inv E scored k per_vac rows Hsel) as (top & Htop & ->).
  unfold top_vacs in Htop. apply sql_limit_inv in Htop as [Hk Htop].
  assert (Hlen : (length top ≤ Z.to_nat k)%nat).
  { rewrite Htop, length_take. lia. }
  assert (Hsub : map row_vid
                   (first_rows []
                      (order_by E le_final
                         (filter (λ o, rn (o_r o) ≤ per_vac)
                                 (join_top (ranked E scored) top))))
                 ⊆+ map t_vacancy_id top).
  { apply NoDup_submseteq; [apply first_rows_NoDup|].
    intros v (o & -> & Ho)%list_elem_of_fmap.
    eapply elem_of_sublist in Ho; [|apply first_rows_sublist].
    apply (order_by_elem E) in Ho. apply list_elem_of_filter in Ho as [_ Ho].
    unfold join_top in Ho. apply list_elem_of_bind in Ho as (r & Ho & Hr).
    apply list_elem_of_bind in Ho as (t & Ho & Ht).
    apply list_elem_of_singleton in Ho as ->.
    apply list_elem_of_filter in Ht as [Htv Ht].
    apply list_elem_of_fmap. exists t. unfold row_vid. simpl. done. }
  apply submseteq_length in Hsub. rewrite (length_map t_vacancy_id) in Hsub. lia.
Qed.

(** Three fragments of two vacancies, one vacancy asked for. *)
Lemma results_at_most_k_witness :
  ∃ resp,
    search stable_engine ascii_tables first_seen_order (scenario_db true)
           (str "python developer") 1 2 250 (1 # 4)%Q 800 true = Ok resp
    ∧ Z.of_nat (length (results resp)) ≤ Z.max 0 1.
Proof.
  eexists. split; [vm_compute; reflexivity|].
  eapply (results_at_most_k
            stable_engine ascii_tables first_seen_order (scenario_db true)
            (str "python developer") 1 2 250 (1 # 4)%Q 800 true).
  vm_compute; reflexivity.
Defined.

(** X14: every result is a stored vacancy: its name, employer, area and
    URL are those of the row of [vacancies] with its id. *)
Theorem results_are_stored_vacancies
    (E : SqlEngine) (U : Unicode) (so : SetOrder) (db : store) (q : pystr)
    (k per_vac candidates : Z) (kw_weight : Q) (max_quote : Z)
    (do_highlight : bool) (resp : response) (item : vac_item) :
  search E U so db q k per_vac candidates kw_weight max_quote do_highlight
  = Ok resp →
  item ∈ results resp →
  vacancies db !! item_vacancy_id item
  = Some {| v_name := item_name item;
            v_employer_name := item_employer_name item;
            v_area_name := item_area_name item;
            v_url := item_url item |}.
Proof.
  intros Hsearch Hitem.
  destruct (results_rows _ _ _ _ _ _ _ _ _ _ _ _ Hsearch item Hitem)
    as (scored & rows & r0 & rest & Hsc & Hsel & Hmeta & Hr0 & _ & ->).
  destruct (rows_elem E scored Hmeta k per_vac rows Hsel r0 Hr0) as (Hr & _ & _).
  apply (ranked_elem E) in Hr.
  destruct (candidate_stream_chunk _ _ _ _ _ _ Hsc Hr)
    as (c & v & _ & Hv & _ & Hid & _ & _ & Hn & He & Ha & Hu & _).
  simpl. rewrite Hid, Hv, Hn, He, Ha, Hu. by destruct v.
Qed.

(** The first result on the scenario store. *)
Lemma results_are_stored_vacancies_witness :
  ∃ resp item,
    search stable_engine ascii_tables first_seen_order (scenario_db true)
           (str "python developer") 2 2 250 (1 # 4)%Q 800 true = Ok resp
    ∧ item ∈ results resp
    ∧ vacancies (scenario_db true) !! item_vacancy_id item
      = Some {| v_name := item_name item;
                v_employer_name := item_employer_name item;
                v_area_name := item_area_name item;
                v_url := item_url item |}.
Proof.
  eexists _, _. split; [vm_compute; reflexivity|].
  split; [apply list_elem_of_here|].
  eapply (results_are_stored_vacancies
            stable_engine ascii_tables first_seen_order (scenario_db true)
            (str "python developer") 2 2 250 (1 # 4)%Q 800 true);
    [vm_compute; reflexivity | apply list_elem_of_here].
Defined.

(** X15: every evidence is a stored fragment of its vacancy that has an
    embedding: it carries the fragment's number and distance, and its text
    is the fragment's text passed through [format_quote] with the keywords
    of the query. *)
Theorem evidence_is_stored_fragment
    (E : SqlEngine) (U : Unicode) (so : SetOrder) (db : store) (q : pystr)
    (k per_vac candidates : Z) (kw_weight : Q) (max_quote : Z)
    (do_highlight : bool) (resp : response) (item : vac_item) (ev : evidence) :
  search E U so db q k per_vac candidates kw_weight max_quote do_highlight
  = Ok resp →
  item ∈ results resp → ev ∈ item_evidence item →
  ∃ c, c ∈ vacancy_chunks db
       ∧ c_vacancy_id c = item_vacancy_id item
       ∧ c_chunk_no c = ev_chunk_no ev
       ∧ c_dist c = Some (ev_dist ev)
       ∧ ev_text ev
         = format_quote U so (extract_query_keywords U (Some q) 12) max_quote
                        do_highlight (c_text c).
Proof.
  intros Hsearch Hitem Hev.
  destruct (results_rows _ _ _ _ _ _ _ _ _ _ _ _ Hsearch item Hitem)
    as (scored & rows & r0 & rest & Hsc & Hsel & Hmeta & Hr0 & _ & ->).
  simpl in Hev. apply list_elem_of_fmap in Hev as (e & -> & He).
  apply list_elem_of_fmap in He as (o & -> & Ho).
  apply list_elem_of_filter in Ho as [Hov Ho].
  destruct (rows_elem E scored Hmeta k per_vac rows Hsel o Ho) as (Hr & _ & _).
  apply (ranked_elem E) in Hr.
  destruct (candidate_stream_chunk _ _ _ _ _ _ Hsc Hr)
    as (c & v & Hc & _ & Hd & Hid & Hno & Htxt & _).
  exists c. simpl. split; [done|]. split; [by rewrite <- Hid|].
  split; [done|]. split; [done|]. by rewrite Htxt.
Qed.

(** The first evidence of the first result on the scenario store. *)
Lemma evidence_is_stored_fragment_witness :
  ∃ resp item ev,
    search stable_engine ascii_tables first_seen_order (scenario_db true)
           (str "python developer") 2 2 250 (1 # 4)%Q 800 true = Ok resp
    ∧ item ∈ results resp ∧ ev ∈ item_evidence item
    ∧ ∃ c, c ∈ vacancy_chunks (scenario_db true)
           ∧ c_vacancy_id c = item_vacancy_id item
           ∧ c_chunk_no c = ev_chunk_no ev
           ∧ c_dist c = Some (ev_dist ev)
           ∧ ev_text ev
             = format_quote ascii_tables first_seen_order
                 (extract_query_keywords ascii_tables (Some (str "python developer")) 12)
                 800 true (c_text c).
Proof.
  eexists _, _, _. split; [vm_compute; reflexivity|].
  split; [apply list_elem_of_here|]. split; [apply list_elem_of_here|].
  eapply (evidence_is_stored_fragment
            stable_engine ascii_tables first_seen_order (scenario_db true)
            (str "python developer") 2 2 250 (1 # 4)%Q 800 true);
    [vm_compute; reflexivity | apply list_elem_of_here
     | apply list_elem_of_here].
Defined.



(** ** Ranks within a vacancy and the choice of the vacancies *)

Lemma filter_lookup_index {A} (P : A → Prop) `{∀ x, Decision (P x)}
    (l : list A) :
  ∀ j x, filter P l !! j = Some x →
         ∃ p, l !! p = Some x ∧ P x ∧ length (filter P (take p l)) = j.
Proof.
  induction l as [|a l IH]; intros j x; [by rewrite filter_nil, lookup_nil|].
  rewrite filter_cons. destruct (decide (P a)) as [Ha|Ha].
  - destruct j as [|j]; simpl.
    + intros [= ->]. by exists 0%nat.
    + intros (p & Hp & Hx & Hlen)%IH. exists (S p). simpl.
      rewrite filter_cons_True by done. simpl. by rewrite Hlen.
  - intros (p & Hp & Hx & Hlen)%IH. exists (S p). simpl.
    by rewrite filter_cons_False.
Qed.

Lemma filter_take_length_lt {A} (P : A → Prop) `{∀ x, Decision (P x)}
    (l : list A) (p : nat) (x : A) :
  l !! p = Some x → P x →
  (length (filter P (take p l)) < length (filter P l))%nat.
Proof.
  intros Hp Hx. rewrite <- (take_drop_middle l p x Hp) at 2.
  rewrite filter_app, filter_cons_True, length_app by done. simpl. lia.
Qed.

(** A non-decreasing list without repetition that holds exactly the
    integers from [lo] to [hi] is that range. *)
Lemma sorted_range (hi : Z) (l : list Z) :
  ∀ lo, StronglySorted Z.le l → NoDup l → (∀ x, x ∈ l ↔ lo ≤ x ≤ hi) →
        l = seqZ lo (hi - lo + 1).
Proof.
  induction l as [|a l IH]; intros lo Hs Hnd Hiff.
  - destruct (decide (lo ≤ hi)) as [Hle|Hgt].
    + exfalso. eapply not_elem_of_nil. apply (Hiff lo). lia.
    + unfold seqZ. by replace (Z.to_nat (hi - lo + 1)) with 0%nat by lia.
  - apply StronglySorted_inv in Hs as [Hs Hall].
    apply NoDup_cons in Hnd as [Ha Hnd]. rewrite Forall_forall in Hall.
    assert (Halo : lo ≤ a ≤ hi) by (apply Hiff; apply list_elem_of_here).
    assert (a = lo) as ->.
    { assert (Hlo : lo ∈ a :: l) by (apply Hiff; lia).
      apply elem_of_cons in Hlo as [->|Hlo]; [done|].
      apply Hall in Hlo. lia. }
    rewrite seqZ_cons by lia. f_equal.
    replace (Z.pred (hi - lo + 1)) with (hi - Z.succ lo + 1) by lia.
    apply IH; [done..|]. intros x. split.
    + intros Hx. pose proof (Hall x Hx).
      assert (x ≠ lo) by (by intros ->).
      assert (lo ≤ x ≤ hi) by (apply Hiff; by apply list_elem_of_further). lia.
    + intros Hx. assert (Hin : x ∈ lo :: l) by (apply Hiff; lia).
      apply elem_of_cons in Hin as [->|Hin]; [lia|done].
Qed.

Lemma distinct_from_complete (l : list vac_row) :
  ∀ seen x, x ∈ l →
            ∃ y, (y ∈ seen ∨ y ∈ distinct_from seen l)
                 ∧ vac_row_eqb x y = true.
Proof.
  induction l as [|x0 l IH]; intros seen x; [by intros ?%elem_of_nil|].
  simpl. destruct (existsb (vac_row_eqb x0) seen) eqn:Hex.
  - intros [->|Hx]%elem_of_cons; [|by apply IH].
    apply existsb_exists in Hex as (y & Hy%list_elem_of_In & Heq).
    exists y. split; [by left|done].
  - intros [->|Hx]%elem_of_cons.
    + exists x0. split; [right; apply list_elem_of_here|apply vac_row_eqb_refl].
    + destruct (IH (x0 :: seen) x Hx) as (y & [Hy|Hy] & Heq).
      * apply elem_of_cons in Hy as [->|Hy].
        -- exists x0. split; [right; apply list_elem_of_here|done].
        -- exists y. split; [by left|done].
      * exists y. split; [right; by apply list_elem_of_further|done].
Qed.

Lemma vac_row_eqb_spec (a b : vac_row) :
  vac_row_eqb a b = true →
  t_vacancy_id a = t_vacancy_id b ∧ (t_best_score a == t_best_score b)%Q.
Proof.
  unfold vac_row_eqb. rewrite !andb_true_iff.
  intros [[[[[Hid%Z.eqb_eq _] _] _] _] Hq%Qeq_bool_iff]. done.
Qed.

Section window_facts.
Context (E : SqlEngine) (scored : list scored_row).

Let sorted : list scored_row := order_by E le_partition scored.

Lemma partition_sorted_length (v : Z) :
  length (partition_of v sorted) = length (partition_of v scored).
Proof.
  unfold partition_of, sorted. apply Permutation_length.
  apply filter_Permutation, (order_by_perm E).
Qed.

Lemma ranked_of_sorted (p : nat) (x : scored_row) :
  sorted !! p = Some x →
  ∃ r, ranked E scored !! p = Some r ∧ r_row r = x.
Proof.
  intros Hp.
  assert (Hr : is_Some (ranked E scored !! p)).
  { apply lookup_lt_is_Some. unfold ranked. rewrite length_imap.
    by eapply lookup_lt_Some. }
  destruct Hr as [r Hr]. exists r. split; [done|].
  apply ranked_lookup in Hr as [Hr _]. fold sorted in Hr. congruence.
Qed.

(** [row_number()] takes every value from 1 to the size of the
    partition, and no other. *)
Lemma ranked_rn_range (r : ranked_row) :
  r ∈ ranked E scored →
  1 ≤ rn r ≤ Z.of_nat (length (partition_of (vacancy_id (r_row r)) scored)).
Proof.
  intros [p Hp]%list_elem_of_lookup_1.
  apply ranked_lookup in Hp as (Hsp & -> & _). fold sorted in Hsp |- *.
  rewrite <- partition_sorted_length.
  pose proof (filter_take_length_lt
                (λ c, vacancy_id c = vacancy_id (r_row r)) sorted p _ Hsp eq_refl).
  unfold partition_of. lia.
Qed.

Lemma ranked_rn_exists (v i : Z) :
  1 ≤ i ≤ Z.of_nat (length (partition_of v scored)) →
  ∃ r, r ∈ ranked E scored ∧ vacancy_id (r_row r) = v ∧ rn r = i.
Proof.
  rewrite <- partition_sorted_length. intros Hi.
  destruct (lookup_lt_is_Some_2 (partition_of v sorted) (Z.to_nat (i - 1)))
    as [x Hx]; [lia|].
  apply filter_lookup_index in Hx as (p & Hp & Hv & Hlen).
  destruct (ranked_of_sorted p x Hp) as (r & Hr & Hrx).
  exists r. split; [by eapply list_elem_of_lookup_2|]. split; [by rewrite Hrx|].
  apply ranked_lookup in Hr as (_ & -> & _). fold sorted.
  rewrite Hrx, Hv. unfold partition_of. rewrite Hlen. lia.
Qed.

(** The first row of a partition carries the best score, up to the value
    of the number. *)
Lemma ranked_first_best (r : ranked_row) :
  r ∈ ranked E scored → rn r = 1 → (score (r_row r) == best_score r)%Q.
Proof.
  intros Hr Hrn.
  destruct (ranked_best_min E scored r Hr) as [(c & Hc & Hcv & Hcs) Hmin].
  destruct (ranked_elem_inv E scored c Hc) as (rc & Hrc & <-).
  apply Qle_antisym.
  - rewrite <- Hcs. apply (ranked_rn_score E scored); [done..|].
    pose proof (ranked_rn_pos E scored rc Hrc). lia.
  - apply Hmin; [by apply (ranked_elem E)|done].
Qed.

Context (Hmeta : meta_functional scored).
Context (k per_vac : Z) (rows : list out_row).
Context (Hrows : select_ranked E scored k per_vac = Ok rows).

Let rk : list ranked_row := ranked E scored.

(** What the final select is made of. *)
Lemma rows_shape :
  ∃ top, 0 ≤ k
         ∧ top = take (Z.to_nat k)
                   (order_by E le_best (distinct (map vac_row_of rk)))
         ∧ ∀ o, o ∈ rows ↔
                o_r o ∈ rk ∧ rn (o_r o) ≤ per_vac
                ∧ ∃ t, t ∈ top ∧ t_vacancy_id t = row_vid o
                       ∧ o_best_score o = t_best_score t.
Proof.
  destruct (select_ranked_inv E scored k per_vac rows Hrows)
    as (top & Htop & ->).
  unfold top_vacs in Htop. apply sql_limit_inv in Htop as [Hk Htop].
  exists top. split; [lia|]. split; [done|]. intros o.
  rewrite (order_by_elem E), list_elem_of_filter. unfold join_top.
  rewrite list_elem_of_bind. split.
  - intros [Hrn (r & Ho & Hr)].
    apply list_elem_of_bind in Ho as (t & Ho & Ht).
    apply list_elem_of_singleton in Ho as ->.
    apply list_elem_of_filter in Ht as [Htv Ht]. simpl in *.
    split; [done|]. split; [done|]. by exists t.
  - intros (Hr & Hrn & t & Ht & Htv & Hbest). split; [done|].
    exists (o_r o). split; [|done].
    apply list_elem_of_bind. exists t. split.
    + apply list_elem_of_singleton. destruct o as [r b]. simpl in *.
      by rewrite Hbest.
    + apply list_elem_of_filter. done.
Qed.

(** The row numbers of the rows of one vacancy, in result order. *)
Lemma rows_of_ranks (o0 : out_row) :
  o0 ∈ rows →
  map (λ o, rn (o_r o)) (rows_of (row_vid o0) rows)
  = seqZ 1 (Z.min per_vac
                  (Z.of_nat (length (partition_of (row_vid o0) scored)))).
Proof.
  intros Ho0. destruct rows_shape as (top & Hk & Htop & Hshape).
  pose proof (rows_elem E scored Hmeta k per_vac rows Hrows) as Helem.
  set (v := row_vid o0). set (part := rows_of v rows).
  assert (Hpart : ∀ o, o ∈ part ↔ o ∈ rows ∧ row_vid o = v).
  { intros o. unfold part, rows_of. rewrite list_elem_of_filter. tauto. }
  assert (Hsorted : StronglySorted (λ x y, le_final x y = true) part).
  { eapply StronglySorted_sublist; [apply sublist_filter|].
    by eapply rows_strongly_sorted. }
  assert (Hrn : ∀ x y, x ∈ part → y ∈ part → le_final x y = true →
                       rn (o_r x) ≤ rn (o_r y)).
  { intros x y [Hx Hxv]%Hpart [Hy Hyv]%Hpart [_ Hle]%le_final_spec.
    apply Hle.
    rewrite (rows_best_functional E scored Hmeta k per_vac rows Hrows y x);
      [apply Qle_bool_refl | done | done | congruence]. }
  replace (Z.min per_vac (Z.of_nat (length (partition_of v scored))))
    with (Z.min per_vac (Z.of_nat (length (partition_of v scored))) - 1 + 1)
    by lia.
  apply sorted_range.
  - by apply (StronglySorted_fmap_impl (λ x y, le_final x y = true)).
  - rewrite (list_fmap_compose o_r rn). apply NoDup_fmap_2_strong.
    + intros x y (ox & -> & Hox)%list_elem_of_fmap
                 (oy & -> & Hoy)%list_elem_of_fmap Heq.
      apply Hpart in Hox as [Hox Hxv]. apply Hpart in Hoy as [Hoy Hyv].
      destruct (Helem ox Hox) as (Hxr & _ & _).
      destruct (Helem oy Hoy) as (Hyr & _ & _).
      apply (ranked_rn_inj E scored); [done..| |done].
      unfold row_vid in *. congruence.
    + apply (sublist_NoDup _ (map o_r rows)).
      * by eapply rows_NoDup.
      * apply fmap_sublist, sublist_filter.
  - intros x. rewrite list_elem_of_fmap. split.
    + intros (o & -> & [Ho Hov]%Hpart).
      destruct (proj1 (Hshape o) Ho) as (Hr & Hcap & _).
      pose proof (ranked_rn_range _ Hr) as Hrange.
      unfold row_vid in Hov. rewrite Hov in Hrange. lia.
    + intros Hx.
      destruct (ranked_rn_exists v x) as (r & Hr & Hrv & Hrx); [lia|].
      destruct (proj1 (Hshape o0) Ho0) as (_ & _ & t & Ht & Htv & _).
      exists {| o_r := r; o_best_score := t_best_score t |}. simpl.
      split; [done|]. apply Hpart. split; [|done].
      apply Hshape. simpl. split; [done|]. split; [lia|].
      exists t. unfold row_vid. simpl. split; [done|]. split; [|done].
      by rewrite Hrv.
Qed.

(** A vacancy of [top_vacs] reaches the result, unless [per_vac] lets no
    row through. *)
Lemma top_reaches_rows (top : list vac_row) (t : vac_row) :
  top = take (Z.to_nat k) (order_by E le_best (distinct (map vac_row_of rk))) →
  t ∈ top → 1 ≤ per_vac → t_vacancy_id t ∈ map row_vid rows.
Proof.
  intros Htop Ht Hper. destruct rows_shape as (top' & _ & Htop' & Hshape).
  rewrite <- Htop in Htop'. subst top'.
  assert (Htd : t ∈ distinct (map vac_row_of rk)).
  { rewrite Htop in Ht. apply elem_of_take in Ht as (i & Ht & _).
    apply list_elem_of_lookup_2 in Ht. by apply (order_by_elem E) in Ht. }
  assert (Hfun : ∀ a b, a ∈ [] ++ map vac_row_of rk →
                        b ∈ [] ++ map vac_row_of rk →
                        t_vacancy_id a = t_vacancy_id b → a = b).
  { simpl. intros a b (r1 & -> & H1)%list_elem_of_fmap
                      (r2 & -> & H2)%list_elem_of_fmap Hv.
    by apply (vac_row_functional E scored Hmeta). }
  destruct (distinct_from_spec _ [] Hfun) as [_ Hin].
  apply Hin in Htd as [(r & -> & Hr)%list_elem_of_fmap _].
  destruct (ranked_rn_exists (vacancy_id (r_row r)) 1) as (r1 & Hr1 & Hv1 & Hrn1).
  { pose proof (ranked_rn_range r Hr). lia. }
  apply list_elem_of_fmap.
  exists {| o_r := r1; o_best_score := best_score r |}.
  unfold row_vid. simpl. split; [by rewrite Hv1|].
  apply Hshape. simpl. split; [done|]. split; [lia|].
  exists (vac_row_of r). unfold row_vid. simpl. by rewrite Hv1.
Qed.

(** A vacancy of the candidate stream that is not in the result does not
    beat a vacancy that is. *)
Lemma rows_beat_the_rest (o : out_row) (c : scored_row) :
  o ∈ rows → c ∈ scored → vacancy_id c ∉ map row_vid rows →
  (o_best_score o <= score c)%Q.
Proof.
  intros Ho Hc Hnot. destruct rows_shape as (top & Hk & Htop & Hshape).
  set (sortedD := order_by E le_best (distinct (map vac_row_of rk))) in *.
  pose proof (proj1 (Hshape o) Ho) as (Hor & Hcap & t & Ht & Htv & Hbest).
  pose proof (ranked_rn_pos E scored _ Hor) as Hpos.
  destruct (ranked_elem_inv E scored c Hc) as (rc & Hrc & Hrcc).
  destruct (distinct_from_complete (map vac_row_of rk) [] (vac_row_of rc))
    as (t' & [Ht'|Ht'] & Heq).
  { apply list_elem_of_fmap. by exists rc. }
  { by apply elem_of_nil in Ht'. }
  apply vac_row_eqb_spec in Heq as [Hid Hq]. simpl in Hid, Hq.
  assert (Hsd : StronglySorted (λ a b, le_best a b = true) sortedD).
  { apply order_by_strongly_sorted; [apply le_best_total|apply le_best_trans]. }
  assert (Ht's : t' ∈ sortedD) by (by apply (order_by_elem E)).
  apply list_elem_of_lookup_1 in Ht's as [j Hj].
  rewrite Htop in Ht. apply elem_of_take in Ht as (i & Hi & Hik).
  destruct (decide (j < Z.to_nat k)%nat) as [Hjk|Hjk].
  - exfalso. apply Hnot. rewrite <- Hrcc, Hid.
    apply (top_reaches_rows top t'); [done| |lia].
    rewrite Htop. apply elem_of_take. by exists j.
  - assert (Hle : le_best t t' = true).
    { eapply (StronglySorted_lookup (λ a b, le_best a b = true));
        [exact Hsd|exact Hi|exact Hj|lia]. }
    unfold le_best in Hle. apply Qle_bool_iff in Hle.
    rewrite Hbest. eapply Qle_trans; [exact Hle|]. rewrite <- Hq.
    destruct (ranked_best_min E scored rc Hrc) as [_ Hmin].
    apply Hmin; [done|by rewrite Hrcc].
Qed.

End window_facts.

(** X17: the evidence of a result is numbered 1, 2, ... without a gap, up
    to [per_vac] or to the number of the vacancy's fragments in the
    candidate stream, whichever is smaller; there is always a first
    evidence, and its score is the vacancy's best score. *)
Theorem evidence_ranks_consecutive
    (E : SqlEngine) (U : Unicode) (so : SetOrder) (db : store) (q : pystr)
    (k per_vac candidates : Z) (kw_weight : Q) (max_quote : Z)
    (do_highlight : bool) (resp : response) (scored : list scored_row)
    (item : vac_item) :
  search E U so db q k per_vac candidates kw_weight max_quote do_highlight
  = Ok resp →
  candidate_stream E db candidates (effective_weight db kw_weight) = Ok scored →
  item ∈ results resp →
  map ev_rank_in_vacancy (item_evidence item)
  = seqZ 1 (Z.min per_vac
                  (Z.of_nat (length (partition_of (item_vacancy_id item) scored))))
  ∧ ∃ ev rest, item_evidence item = ev :: rest
               ∧ ev_rank_in_vacancy ev = 1
               ∧ (ev_score ev == item_best_score item)%Q.
Proof.
  intros Hsearch Hsc Hitem.
  destruct (results_rows _ _ _ _ _ _ _ _ _ _ _ _ Hsearch item Hitem)
    as (scored' & rows & r0 & rest & Hsc' & Hsel & Hmeta & Hr0 & Hrest & ->).
  assert (scored' = scored) as -> by congruence.
  pose proof (rows_of_ranks E scored Hmeta k per_vac rows Hsel r0 Hr0) as Hranks.
  simpl. rewrite !map_map. simpl. split; [exact Hranks|].
  rewrite Hrest in Hranks |- *. simpl in Hranks |- *.
  assert (Hrn : rn (o_r r0) = 1).
  { destruct (decide (0 < Z.min per_vac
                             (Z.of_nat (length (partition_of (row_vid r0) scored)))))
      as [Hpos|Hneg].
    - rewrite seqZ_cons in Hranks by done. by injection Hranks as ->.
    - unfold seqZ in Hranks.
      by replace (Z.to_nat _) with 0%nat in Hranks by lia. }
  eexists _, _. split; [reflexivity|]. simpl. split; [done|].
  destruct (rows_elem E scored Hmeta k per_vac rows Hsel r0 Hr0) as (Hr & -> & _).
  by apply (ranked_first_best E scored).
Qed.

(** Vacancy A of the scenario store: two fragments in the stream, three
    asked for. *)
Lemma evidence_ranks_consecutive_witness :
  ∃ resp scored item,
    search stable_engine ascii_tables first_seen_order (scenario_db true)
           (str "python developer") 2 3 250 (1 # 4)%Q 800 true = Ok resp
    ∧ candidate_stream stable_engine (scenario_db true) 250
                       (effective_weight (scenario_db true) (1 # 4)) = Ok scored
    ∧ item ∈ results resp
    ∧ map ev_rank_in_vacancy (item_evidence item)
      = seqZ 1 (Z.min 3 (Z.of_nat (length (partition_of (item_vacancy_id item)
                                                        scored))))
    ∧ ∃ ev rest, item_evidence item = ev :: rest
                 ∧ ev_rank_in_vacancy ev = 1
                 ∧ (ev_score ev == item_best_score item)%Q.
Proof.
  eexists _, _, _. split; [vm_compute; reflexivity|].
  split; [vm_compute; reflexivity|].
  split; [apply list_elem_of_further, list_elem_of_here|].
  eapply (evidence_ranks_consecutive
            stable_engine ascii_tables first_seen_order (scenario_db true)
            (str "python developer") 2 3 250 (1 # 4)%Q 800 true);
    [vm_compute; reflexivity | vm_compute; reflexivity
     | apply list_elem_of_further, list_elem_of_here].
Defined.

(** X18: the vacancies returned are the best of the candidate stream: a
    candidate fragment of a vacancy that is not among the results never
    scores below the best score of a vacancy that is. *)
Theorem results_are_the_best_vacancies
    (E : SqlEngine) (U : Unicode) (so : SetOrder) (db : store) (q : pystr)
    (k per_vac candidates : Z) (kw_weight : Q) (max_quote : Z)
    (do_highlight : bool) (resp : response) (scored : list scored_row)
    (item : vac_item) (c : scored_row) :
  search E U so db q k per_vac candidates kw_weight max_quote do_highlight
  = Ok resp →
  candidate_stream E db candidates (effective_weight db kw_weight) = Ok scored →
  item ∈ results resp → c ∈ scored →
  vacancy_id c ∉ map item_vacancy_id (results resp) →
  (item_best_score item <= score c)%Q.
Proof.
  intros Hsearch Hsc Hitem Hc Hnot.
  destruct (results_rows _ _ _ _ _ _ _ _ _ _ _ _ Hsearch item Hitem)
    as (scored' & rows & r0 & rest & Hsc' & Hsel & Hmeta & Hr0 & Hrest & ->).
  assert (scored' = scored) as -> by congruence.
  destruct (search_rows_inv _ _ _ _ _ _ _ _ _ _ _ _ Hsearch) as (rows' & Hst & Hresp).
  assert (rows' = rows) as ->.
  { apply statement_inv in Hst as [->|(scored' & Hsc'' & Hsel')]; [|congruence].
    rewrite Hresp in Hitem. by apply elem_of_nil in Hitem. }
  rewrite Hresp, results_vids in Hnot. simpl.
  apply (rows_beat_the_rest E scored Hmeta k per_vac rows Hsel); [done..|].
  intros Hin. apply Hnot. apply first_rows_elem_vid; [done|apply not_elem_of_nil].
Qed.

(** One vacancy asked for on the scenario store: B is returned, and the
    nearest fragment of A does not beat it. *)
Lemma results_are_the_best_vacancies_witness :
  ∃ resp scored item c,
    search stable_engine ascii_tables first_seen_order (scenario_db true)
           (str "python developer") 1 2 250 (1 # 4)%Q 800 true = Ok resp
    ∧ candidate_stream stable_engine (scenario_db true) 250
                       (effective_weight (scenario_db true) (1 # 4)) = Ok scored
    ∧ item ∈ results resp ∧ c ∈ scored
    ∧ (vacancy_id c ∉ map item_vacancy_id (results resp))
    ∧ (item_best_score item <= score c)%Q.
Proof.
  assert (Hnot : (1 : Z) ∉ [2 : Z]).
  { intros Hin%list_elem_of_singleton. discriminate. }
  eexists _, _, _, _. split; [vm_compute; reflexivity|].
  split; [vm_compute; reflexivity|].
  split; [apply list_elem_of_here|].
  split; [apply list_elem_of_further, list_elem_of_here|].
  split; [exact Hnot|].
  eapply (results_are_the_best_vacancies
            stable_engine ascii_tables first_seen_order (scenario_db true)
            (str "python developer") 1 2 250 (1 # 4)%Q 800 true);
    [vm_compute; reflexivity | vm_compute; reflexivity
     | apply list_elem_of_here
     | apply list_elem_of_further, list_elem_of_here
     | exact Hnot].
Defined.

(** * Properties of the chunking script *)

Section chunk_text_facts.
Context (text : pystr) (max_chars overlap : Z).

Local Abbreviation n := (Z.of_nat (length text)).

Lemma chunk_loop_more_fuel (fuel : nat) :
  ∀ fuel' start chunks r,
    chunk_loop fuel text max_chars overlap start chunks = Some r →
    (fuel ≤ fuel')%nat →
    chunk_loop fuel' text max_chars overlap start chunks = Some r.
Proof.
  induction fuel as [|fuel IH]; intros fuel' start chunks r; [done|].
  destruct fuel' as [|fuel']; [lia|]. simpl.
  destruct (start <? Z.of_nat (length text)); [|done].
  destruct (Z.min _ _ =? _); [done|]. intros Hr Hle. apply (IH fuel'); [done|lia].
Qed.

Lemma chunk_loop_terminates (fuel : nat) :
  ∀ start chunks,
    overlap < max_chars → 0 ≤ start →
    Z.max 0 (n - start) < Z.of_nat fuel →
    ∃ r, chunk_loop fuel text max_chars overlap start chunks = Some r.
Proof.
  induction fuel as [|fuel IH]; intros start chunks Hov Hstart Hfuel; [lia|].
  simpl. destruct (Z.ltb_spec start n) as [Hlt|Hge]; [|by eexists].
  destruct (Z.eqb_spec (Z.min n (start + max_chars)) n) as [Heq|Hne];
    [by eexists|].
  apply IH; lia.
Qed.

Lemma chunk_loop_diverges (fuel : nat) :
  ∀ chunks,
    max_chars ≤ overlap → 0 < n → max_chars < n →
    chunk_loop fuel text max_chars overlap 0 chunks = None.
Proof.
  induction fuel as [|fuel IH]; intros chunks Hov Hn Hlong; [done|].
  simpl. destruct (Z.ltb_spec 0 n) as [_|?]; [|lia].
  destruct (Z.eqb_spec (Z.min n (0 + max_chars)) n) as [Heq|Hne]; [lia|].
  replace (Z.max 0 (Z.min n (0 + max_chars) - overlap)) with 0 by lia.
  by apply IH.
Qed.

Lemma slice_infix (i j : Z) : ∃ a b, text = a ++ slice i j text ++ b.
Proof.
  unfold slice.
  exists (take (slice_index i (length text)) (take (slice_index j (length text)) text)),
         (drop (slice_index j (length text)) text).
  by rewrite app_assoc, !take_drop.
Qed.

Lemma slice_length (i j : Z) :
  0 ≤ i → 0 ≤ j →
  Z.of_nat (length (slice i j text)) ≤ Z.max 0 (j - i).
Proof.
  intros Hi Hj. unfold slice, slice_index.
  rewrite length_drop, length_take.
  destruct (Z.ltb_spec i 0); [lia|]. destruct (Z.ltb_spec j 0); lia.
Qed.

Lemma strip_length (t : pystr) : (length (strip t) ≤ length t)%nat.
Proof.
  destruct (strip_infix t) as (a & b & Ht). rewrite Ht at 2.
  rewrite !length_app. lia.
Qed.

Lemma strip_strip (t : pystr) : strip (strip t) = strip t.
Proof. apply strip_fixed; [apply strip_head | apply strip_last]. Qed.

Lemma strip_non_space (t : pystr) :
  filter (λ c, is_space c = false) (strip t)
  = filter (λ c, is_space c = false) t.
Proof.
  unfold strip.
  rewrite rev_reverse, filter_reverse, lstrip_non_space.
  rewrite rev_reverse, filter_reverse, reverse_involutive.
  apply lstrip_non_space.
Qed.

Lemma chunk_loop_shape (fuel : nat) :
  ∀ start chunks r,
    0 ≤ max_chars → 0 ≤ start →
    Forall (chunk_ok text max_chars) chunks →
    chunk_loop fuel text max_chars overlap start chunks = Some r →
    Forall (chunk_ok text max_chars) r.
Proof.
  induction fuel as [|fuel IH]; intros start chunks r Hmax Hstart Hall; [done|].
  simpl. destruct (Z.ltb_spec start n) as [Hlt|Hge];
    [|by intros [= <-]].
  assert (Hnew : Forall (chunk_ok text max_chars)
                   (chunks ++ [strip (slice start (Z.min n (start + max_chars))
                                            text)])).
  { apply Forall_app. split; [done|]. apply Forall_singleton.
    split; [|split].
    - pose proof (strip_length (slice start (Z.min n (start + max_chars)) text)).
      pose proof (slice_length start (Z.min n (start + max_chars))). lia.
    - apply strip_strip.
    - destruct (slice_infix start (Z.min n (start + max_chars))) as (a & b & Hs).
      destruct (strip_infix (slice start (Z.min n (start + max_chars)) text))
        as (a' & b' & Hs').
      exists (a ++ a'), (b' ++ b). rewrite Hs at 1. rewrite Hs' at 1.
      by rewrite <- !app_assoc. }
  destruct (Z.eqb_spec (Z.min n (start + max_chars)) n) as [Heq|Hne].
  - by intros [= <-].
  - apply IH; [done | lia | done].
Qed.

Lemma slice_take_drop (i j : Z) :
  0 ≤ i ≤ j → j ≤ n →
  slice i j text = drop (Z.to_nat i) (take (Z.to_nat j) text).
Proof.
  intros Hi Hj. unfold slice, slice_index.
  destruct (Z.ltb_spec i 0); [lia|]. destruct (Z.ltb_spec j 0); [lia|].
  by rewrite !Z.min_l by lia.
Qed.

Lemma chunk_loop_keeps_non_space (fuel : nat) :
  ∀ start chunks r,
    0 < max_chars → overlap = 0 → 0 ≤ start ≤ n →
    filter (λ c, is_space c = false) (concat chunks)
    = filter (λ c, is_space c = false) (take (Z.to_nat start) text) →
    chunk_loop fuel text max_chars overlap start chunks = Some r →
    filter (λ c, is_space c = false) (concat r)
    = filter (λ c, is_space c = false) text.
Proof.
  induction fuel as [|fuel IH]; intros start chunks r Hmax Hov Hstart Hinv;
    [done|].
  simpl. destruct (Z.ltb_spec start n) as [Hlt|Hge].
  - set (e := Z.min n (start + max_chars)).
    assert (Hstep :
      filter (λ c, is_space c = false)
             (concat (chunks ++ [strip (slice start e text)]))
      = filter (λ c, is_space c = false) (take (Z.to_nat e) text)).
    { rewrite concat_app, filter_app, Hinv. simpl. rewrite app_nil_r.
      rewrite strip_non_space, <- filter_app. f_equal.
      rewrite slice_take_drop by (unfold e; lia).
      rewrite <- (take_drop (Z.to_nat start) (take (Z.to_nat e) text)) at 2.
      f_equal. rewrite take_take. f_equal. unfold e. lia. }
    destruct (Z.eqb_spec e n) as [Heq|Hne].
    + intros [= <-]. rewrite Hstep, Heq. by rewrite Nat2Z.id, firstn_all.
    + apply IH; [done | done | unfold e in *; lia |].
      rewrite Hstep. do 2 f_equal. unfold e in *. lia.
  - intros [= <-]. rewrite Hinv. assert (start = n) as -> by lia.
    by rewrite Nat2Z.id, firstn_all.
Qed.

End chunk_text_facts.

(** X19: [chunk_text] returns whenever [overlap] is smaller than
    [max_chars]: as many turns of the loop as the text has characters, and
    one more, suffice, and the result does not depend on the bound. *)
Theorem chunk_text_terminates (text : pystr) (max_chars overlap : Z) :
  overlap < max_chars →
  ∃ chunks, ∀ fuel, (length text < fuel)%nat →
                    chunk_text fuel text max_chars overlap = Some chunks.
Proof.
  intros Hov. unfold chunk_text.
  destruct (bool_decide (strip text = [])); [by exists []|].
  destruct (chunk_loop_terminates (strip text) max_chars overlap
              (S (length (strip text))) 0 [] Hov) as [r Hr]; [lia..|].
  exists r. intros fuel Hfuel.
  apply (chunk_loop_more_fuel _ _ _ _ _ _ _ _ Hr).
  pose proof (strip_length text). lia.
Qed.

(** The default window of the script on a short text. *)
Lemma chunk_text_terminates_witness :
  200 < 1200
  ∧ ∃ chunks, ∀ fuel, (length (str "  Vacancy: Java developer  ") < fuel)%nat →
                      chunk_text fuel (str "  Vacancy: Java developer  ") 1200 200
                      = Some chunks.
Proof.
  split; [lia|].
  apply (chunk_text_terminates (str "  Vacancy: Java developer  ") 1200 200).
  lia.
Defined.

(** X20: [chunk_text] does not return when [overlap] is not smaller than
    [max_chars] and the stripped text is not empty and longer than
    [max_chars]: the window starts at 0 again and again, so no number of
    turns suffices. *)
Theorem chunk_text_diverges (text : pystr) (max_chars overlap : Z) :
  max_chars ≤ overlap → strip text ≠ [] →
  max_chars < Z.of_nat (length (strip text)) →
  ∀ fuel, chunk_text fuel text max_chars overlap = None.
Proof.
  intros Hov Hne Hlong fuel. unfold chunk_text.
  rewrite bool_decide_eq_false_2 by done.
  apply chunk_loop_diverges; [done| |done].
  destruct (strip text); [done|simpl; lia].
Qed.

(** A window of 4 characters with an overlap of 4 on a text of 7. *)
Lemma chunk_text_diverges_witness :
  4 ≤ 4 ∧ strip (str "abc def") ≠ []
  ∧ 4 < Z.of_nat (length (strip (str "abc def")))
  ∧ ∀ fuel, chunk_text fuel (str "abc def") 4 4 = None.
Proof.
  assert (H1 : strip (str "abc def") ≠ []) by (by vm_compute).
  assert (H2 : 4 < Z.of_nat (length (strip (str "abc def")))) by (by vm_compute).
  split; [lia|]. split; [exact H1|]. split; [exact H2|].
  apply (chunk_text_diverges (str "abc def") 4 4); [lia | exact H1 | exact H2].
Defined.

(** X21: with a window that is not negative, every chunk [chunk_text]
    returns is at most [max_chars] long, has no white space at either end
    and is a contiguous part of the stripped text; a text that is not
    blank gives at least one chunk. *)
Theorem chunk_text_chunks (fuel : nat) (text : pystr) (max_chars overlap : Z)
    (chunks : list pystr) :
  0 ≤ max_chars →
  chunk_text fuel text max_chars overlap = Some chunks →
  (∀ ch, ch ∈ chunks →
         Z.of_nat (length ch) ≤ max_chars
         ∧ strip ch = ch
         ∧ ∃ a b, strip text = a ++ ch ++ b)
  ∧ (chunks = [] ↔ strip text = []).
Proof.
  intros Hmax. unfold chunk_text.
  destruct (decide (strip text = [])) as [Hnil|Hne].
  - rewrite bool_decide_eq_true_2 by done. intros [= <-].
    split; [by intros ? ?%elem_of_nil | done].
  - rewrite bool_decide_eq_false_2 by done. intros Hloop. split.
    + pose proof (chunk_loop_shape (strip text) max_chars overlap fuel 0 []
                    chunks Hmax (Z.le_refl 0) (Forall_nil_2 _) Hloop) as Hall.
      rewrite Forall_forall in Hall. intros ch Hch. by apply Hall.
    + split; [|done]. intros ->. exfalso.
      destruct fuel as [|fuel]; [done|]. simpl in Hloop.
      destruct (0 <? Z.of_nat (length (strip text))) eqn:Hlt.
      * destruct (Z.min _ _ =? _).
        -- injection Hloop as Hloop. by destruct (strip (slice _ _ _)).
        -- clear -Hloop.
           assert (Hgrow : ∀ fuel start chunks r,
                     chunk_loop fuel (strip text) max_chars overlap start chunks
                     = Some r → (length chunks ≤ length r)%nat).
           { clear. induction fuel as [|fuel IH]; intros start chunks r; [done|].
             simpl. destruct (start <? _); [|by intros [= <-]].
             destruct (Z.min _ _ =? _).
             - intros [= <-]. rewrite length_app. lia.
             - intros Hr%IH. rewrite length_app in Hr. lia. }
           apply Hgrow in Hloop. simpl in Hloop. lia.
      * apply Z.ltb_ge in Hlt. destruct (strip text); [done|simpl in Hlt; lia].
Qed.

(** A window of 5 characters with an overlap of 2. *)
Lemma chunk_text_chunks_witness :
  0 ≤ 5
  ∧ chunk_text 10 (str " ab cd efg hi ") 5 2
    = Some [str "ab cd"; str "cd ef"; str "efg h"; str "hi"]
  ∧ (∀ ch, ch ∈ [str "ab cd"; str "cd ef"; str "efg h"; str "hi"] →
           Z.of_nat (length ch) ≤ 5
           ∧ strip ch = ch
           ∧ ∃ a b, strip (str " ab cd efg hi ") = a ++ ch ++ b)
  ∧ ([str "ab cd"; str "cd ef"; str "efg h"; str "hi"] = []
     ↔ strip (str " ab cd efg hi ") = []).
Proof.
  assert (H : chunk_text 10 (str " ab cd efg hi ") 5 2
              = Some [str "ab cd"; str "cd ef"; str "efg h"; str "hi"])
    by (by vm_compute).
  split; [lia|]. split; [exact H|].
  apply (chunk_text_chunks 10 (str " ab cd efg hi ") 5 2); [lia | exact H].
Defined.

(** X22: without overlap and with a positive window, the chunks hold the
    characters of the text that are not white space, each once and in
    order: chunking loses white space only. *)
Theorem chunk_text_keeps_non_space (fuel : nat) (text : pystr) (max_chars : Z)
    (chunks : list pystr) :
  0 < max_chars →
  chunk_text fuel text max_chars 0 = Some chunks →
  filter (λ c, is_space c = false) (concat chunks)
  = filter (λ c, is_space c = false) text.
Proof.
  intros Hmax. unfold chunk_text.
  rewrite <- (strip_non_space text).
  destruct (decide (strip text = [])) as [Hnil|Hne].
  - rewrite bool_decide_eq_true_2 by done. intros [= <-]. by rewrite Hnil.
  - rewrite bool_decide_eq_false_2 by done.
    apply chunk_loop_keeps_non_space; [done | done | lia | done].
Qed.

(** A window of 5 characters. *)
Lemma chunk_text_keeps_non_space_witness :
  0 < 5
  ∧ chunk_text 10 (str " ab cd efg hi ") 5 0
    = Some [str "ab cd"; str "efg"; str "hi"]
  ∧ filter (λ c, is_space c = false)
           (concat [str "ab cd"; str "efg"; str "hi"])
    = filter (λ c, is_space c = false) (str " ab cd efg hi ").
Proof.
  assert (H : chunk_text 10 (str " ab cd efg hi ") 5 0
              = Some [str "ab cd"; str "efg"; str "hi"]) by (by vm_compute).
  split; [lia|]. split; [exact H|].
  apply (chunk_text_keeps_non_space 10 (str " ab cd efg hi ") 5); [lia | exact H].
Defined.

(** * Properties of [ask] *)

Section ask_facts.
Context (E : SqlEngine) (U : Unicode) (so : SetOrder) (db : store) (q : pystr).
Context (k per_vac candidates : Z) (kw_weight : Q).
Context (max_quote : Z) (do_highlight : bool).

Let keywords : list pystr := extract_query_keywords U (Some q) 12.

Lemma mapM_lookup_fmap {B} (f : vac_item → B) (m : gmap Z vac_item)
    (l : list Z) :
  mapM (λ vid, match m !! vid with
               | Some item => Ok (f item)
               | None => Err KeyError
               end) l
  = match mapM (λ vid, match m !! vid with
                       | Some item => Ok item
                       | None => Err KeyError
                       end) l with
    | Ok items => Ok (map f items)
    | Err e => Err e
    end.
Proof.
  induction l as [|vid l IH]; [done|]. simpl.
  destruct (m !! vid) as [item|]; [|done]. simpl. rewrite IH.
  match goal with |- context [mapM ?g l] => by destruct (mapM g l) end.
Qed.

Lemma search_items :
  search E U so db q k per_vac candidates kw_weight max_quote do_highlight
  = match retrieved_items E db k per_vac candidates kw_weight with
    | Ok (items, trgm, kw_used) =>
        Ok {| resp_query := q;
              hybrid_used := trgm && is_positive kw_used;
              kw_weight_used := kw_used;
              resp_k := k;
              resp_per_vac := per_vac;
              results :=
                map (format_item U so keywords max_quote do_highlight) items |}
    | Err e => Err e
    end.
Proof.
  unfold search, retrieved_items.
  destruct (retrieve_vacancies E db k per_vac candidates kw_weight)
    as [[[[vac_order vac_map] trgm] kw_used]|e]; [|done].
  simpl. fold keywords.
  rewrite (mapM_lookup_fmap (format_item U so keywords max_quote do_highlight)).
  match goal with |- context [mapM ?g vac_order] => by destruct (mapM g vac_order) end.
Qed.

Lemma ask_items :
  ask E U so db q k per_vac candidates kw_weight max_quote do_highlight
  = match retrieved_items E db k per_vac candidates kw_weight with
    | Ok (items, trgm, kw_used) =>
        Ok {| ask_query := q;
              ask_hybrid_used := trgm && is_positive kw_used;
              ask_kw_weight_used := kw_used;
              ask_k := k;
              ask_per_vac := per_vac;
              ask_summary :=
                summary_of keywords
                  (map fst (most_common 10
                              (Counter (concat (map (tech_terms_of U) items)))));
              ask_results :=
                map (ask_item_of U so keywords max_quote do_highlight) items |}
    | Err e => Err e
    end.
Proof.
  unfold ask, retrieved_items.
  destruct (retrieve_vacancies E db k per_vac candidates kw_weight)
    as [[[[vac_order vac_map] trgm] kw_used]|e]; [|done].
  simpl. fold keywords.
  rewrite (mapM_lookup_fmap (tech_terms_of U)).
  rewrite (mapM_lookup_fmap (ask_item_of U so keywords max_quote do_highlight)).
  match goal with |- context [mapM ?g vac_order] => by destruct (mapM g vac_order) end.
Qed.

End ask_facts.

Lemma is_prefix_spec (p : pystr) : ∀ s, is_prefix p s = true → ∃ c, s = p ++ c.
Proof.
  induction p as [|a p IH]; intros s; simpl; [by exists s|].
  destruct s as [|b s]; [done|].
  intros [->%bool_decide_eq_true [c ->]%IH]%andb_true_iff. by exists c.
Qed.

Lemma contains_spec (sub : pystr) (s : pystr) :
  contains sub s = true → ∃ a c, s = a ++ sub ++ c.
Proof.
  induction s as [|x s IH]; simpl.
  - rewrite orb_false_r. intros [c ->]%is_prefix_spec. by exists [], c.
  - intros [[c Hc]%is_prefix_spec|(a & c & ->)%IH]%orb_true_iff.
    + exists [], c. by rewrite Hc.
    + by exists (x :: a), c.
Qed.

(** X23: [ask] answers only where [search] does, and then alike: it
    returns the vacancies of [search] in the same order with the same
    formatted evidence and the same query, flags and limits; where
    [search] fails, [ask] fails with the same error. *)
Theorem ask_agrees_with_search
    (E : SqlEngine) (U : Unicode) (so : SetOrder) (db : store) (q : pystr)
    (k per_vac candidates : Z) (kw_weight : Q) (max_quote : Z)
    (do_highlight : bool) :
  match search E U so db q k per_vac candidates kw_weight max_quote do_highlight,
        ask E U so db q k per_vac candidates kw_weight max_quote do_highlight
  with
  | Ok resp, Ok a =>
      map ask_vacancy (ask_results a) = results resp
      ∧ ask_query a = resp_query resp
      ∧ ask_hybrid_used a = hybrid_used resp
      ∧ ask_kw_weight_used a = kw_weight_used resp
      ∧ ask_k a = resp_k resp ∧ ask_per_vac a = resp_per_vac resp
  | Err e, Err e' => e = e'
  | Ok _, Err _ => True
  | Err _, Ok _ => False
  end.
Proof.
  rewrite search_items, ask_items.
  destruct (retrieved_items E db k per_vac candidates kw_weight)
    as [[[items trgm] kw_used]|e]; [|done].
  simpl. split; [|done]. rewrite map_map. by apply map_ext.
Qed.

(** X24: the reasons [ask] gives for a vacancy: a block is never empty; a
    [query_match] block lists at most ten keywords, in the order of the
    keyword list, each occurring in the lower-cased joined evidence; a
    [tech_terms] block lists the first twelve terms [extract_tech_terms]
    finds in that text: terms of the pattern table, in table order and
    without repetition, which occur in that text when the evidence is
    ASCII. *)
Theorem why_of_well_formed (U : Unicode) (keywords : list pystr) (item : vac_item)
    (b : why_block) :
  b ∈ why_of U keywords item →
  why_items b ≠ []
  ∧ ((why_type b = str "query_match"
      ∧ why_items b `sublist_of` keywords
      ∧ (length (why_items b) ≤ 10)%nat
      ∧ ∀ x, x ∈ why_items b → ∃ a c, joined_evidence U item = a ++ x ++ c)
     ∨ (why_type b = str "tech_terms"
        ∧ why_items b
          = take 12 (extract_tech_terms U (Some (joined_evidence U item)))
        ∧ why_items b `sublist_of` map term_of TECH_PATTERNS
        ∧ NoDup (why_items b)
        ∧ (length (why_items b) ≤ 12)%nat
        ∧ (forallb is_ascii
                   (str_join (str " ") (map ev_text (item_evidence item)))
           = true →
           ∀ x, x ∈ why_items b →
                ∃ a c, joined_evidence U item = a ++ x ++ c))).
Proof.
  unfold why_of. fold (joined_evidence U item).
  set (hit_kw := take 10 (filter (λ kw, contains kw (joined_evidence U item) = true)
                                 keywords)).
  set (hit_tech := take 12 (extract_tech_terms U (Some (joined_evidence U item)))).
  intros [Hb|Hb]%elem_of_app.
  - destruct (decide (hit_kw = [])) as [Hnil|Hne].
    + rewrite bool_decide_eq_true_2 in Hb by done. by apply elem_of_nil in Hb.
    + rewrite bool_decide_eq_false_2 in Hb by done.
      apply list_elem_of_singleton in Hb as ->. cbn [why_items why_type].
      split; [done|]. left. split; [done|]. split; [|split].
      * etrans; [apply sublist_take | apply sublist_filter].
      * unfold hit_kw. rewrite length_take. lia.
      * intros x Hx. apply elem_of_take in Hx as (i & Hx & _).
        apply list_elem_of_lookup_2 in Hx.
        apply list_elem_of_filter in Hx as [Hx _]. by apply contains_spec.
  - destruct (decide (hit_tech = [])) as [Hnil|Hne].
    + rewrite bool_decide_eq_true_2 in Hb by done. by apply elem_of_nil in Hb.
    + rewrite bool_decide_eq_false_2 in Hb by done.
      apply list_elem_of_singleton in Hb as ->. cbn [why_items why_type].
      split; [done|]. right. split; [done|]. split; [done|].
      destruct (fromkeys_spec
                  (map term_of
                     (filter (λ p, re_search U (parse_pattern false p)
                                     (lower U (or_empty (Some (joined_evidence U item))))
                                   = true)
                             TECH_PATTERNS)) ∅) as (Hnd & Hsub & _).
      split; [|split; [|split]].
      * etrans; [apply sublist_take|]. etrans; [exact Hsub|].
        apply fmap_sublist, sublist_filter.
      * eapply sublist_NoDup; [exact Hnd | apply sublist_take].
      * unfold hit_tech. rewrite length_take. lia.
      * intros Hascii x Hx. apply elem_of_take in Hx as (i & Hx & _).
        apply list_elem_of_lookup_2 in Hx.
        apply tech_terms_found in Hx as (p & Hp & -> & Hsearch).
        assert (Hj : forallb is_ascii (joined_evidence U item) = true).
        { unfold joined_evidence. rewrite lower_ascii by done.
          by apply forallb_ascii_lower. }
        apply (re_search_infix U p (joined_evidence U item)) in Hsearch;
          [|done..].
        unfold joined_evidence in Hsearch |- *.
        by rewrite lower_lower in Hsearch.
Qed.

(** A keyword and a technology in the evidence of one vacancy. *)
Lemma why_of_well_formed_witness :
  ∃ item b,
    item_evidence item
    = [ {| ev_chunk_no := 0; ev_text := str "Senior Python developer, SQL";
           ev_dist := (1 # 10)%Q; ev_kw_sim := 0%Q; ev_score := (1 # 10)%Q;
           ev_rank_in_vacancy := 1 |} ]
    ∧ b ∈ why_of ascii_tables [str "python"; str "remote"] item
    ∧ why_items b ≠ []
    ∧ ((why_type b = str "query_match"
        ∧ why_items b `sublist_of` [str "python"; str "remote"]
        ∧ (length (why_items b) ≤ 10)%nat
        ∧ ∀ x, x ∈ why_items b →
               ∃ a c, joined_evidence ascii_tables item = a ++ x ++ c)
       ∨ (why_type b = str "tech_terms"
          ∧ why_items b
            = take 12 (extract_tech_terms ascii_tables
                         (Some (joined_evidence ascii_tables item)))
          ∧ why_items b `sublist_of` map term_of TECH_PATTERNS
          ∧ NoDup (why_items b)
          ∧ (length (why_items b) ≤ 12)%nat
          ∧ (forallb is_ascii
                     (str_join (str " ") (map ev_text (item_evidence item)))
             = true →
             ∀ x, x ∈ why_items b →
                  ∃ a c, joined_evidence ascii_tables item = a ++ x ++ c))).
Proof.
  set (item := {| item_vacancy_id := 1; item_name := "A";
                  item_employer_name := "employer"; item_area_name := "area";
                  item_url := "url"; item_best_score := (1 # 10)%Q;
                  item_evidence :=
                    [ {| ev_chunk_no := 0;
                         ev_text := str "Senior Python developer, SQL";
                         ev_dist := (1 # 10)%Q; ev_kw_sim := 0%Q;
                         ev_score := (1 # 10)%Q;
                         ev_rank_in_vacancy := 1 |} ] |}).
  set (b := {| why_type := str "query_match"; why_items := [str "python"] |}).
  assert (Hb : b ∈ why_of ascii_tables [str "python"; str "remote"] item).
  { replace (why_of ascii_tables [str "python"; str "remote"] item)
      with [b; {| why_type := str "tech_terms";
                  why_items := [str "python"; str "sql"] |}]
      by (by vm_compute).
    apply list_elem_of_here. }
  exists item, b. split; [reflexivity|]. split; [exact Hb|].
  exact (why_of_well_formed ascii_tables [str "python"; str "remote"] item b Hb).
Defined.

Lemma elem_of_concat {A} (x : A) (ls : list (list A)) :
  x ∈ concat ls ↔ ∃ l, l ∈ ls ∧ x ∈ l.
Proof.
  rewrite list_elem_of_In, in_concat. split.
  - intros (l & Hl & Hx). exists l. by rewrite !list_elem_of_In.
  - intros (l & Hl & Hx). exists l. by rewrite <- !list_elem_of_In.
Qed.

Section ask_summary_facts.
Context (E : SqlEngine) (db : store).
Context (k per_vac candidates : Z) (kw_weight : Q).

Lemma mapM_lookup_items (rows : list out_row) (vac_map : gmap Z vac_item)
    (l : list out_row) :
  (∀ v, vac_map !! v = item_of (rows_of v rows)) →
  (∀ r0, r0 ∈ l → ∃ rest, rows_of (row_vid r0) rows = r0 :: rest) →
  mapM (λ vid,
          match vac_map !! vid with
          | Some item => Ok item
          | None => Err KeyError
          end) (map row_vid l)
  = Ok (map (built rows) l).
Proof.
  intros Hm. induction l as [|r0 l IH]; intros Hl; [done|].
  simpl. rewrite Hm.
  destruct (Hl r0) as [rest Hrest]; [apply list_elem_of_here|].
  rewrite IH by (intros ? ?; by apply Hl, list_elem_of_further).
  unfold built. rewrite Hrest. simpl. done.
Qed.

Lemma retrieved_items_inv (items : list vac_item) (trgm : bool) (kw_used : Q) :
  retrieved_items E db k per_vac candidates kw_weight
  = Ok (items, trgm, kw_used) →
  ∃ rows, statement E db k per_vac candidates (effective_weight db kw_weight)
          = Ok rows
          ∧ items = map (built rows) (first_rows [] rows).
Proof.
  unfold retrieved_items, retrieve_vacancies, statement.
  fold (effective_weight db kw_weight).
  destruct (if has_pg_trgm db && is_positive _ then _ else _)
    as [rows|e]; [|done].
  simpl. destruct (foldl add_row (∅, []) rows) as [vac_map vac_order] eqn:Hfold.
  apply add_rows_spec in Hfold as [-> Hm]. simpl.
  rewrite unique_order_id;
    [|apply first_rows_NoDup | intros; apply not_elem_of_empty].
  rewrite (mapM_lookup_items rows); [| done | intros r0; apply first_rows_head].
  simpl. intros [= <- <- <-]. by exists rows.
Qed.

End ask_summary_facts.

(** X25: the summary of [ask]: [query_keywords] are the keywords of the
    query; [tech_signals] holds at most ten terms of the pattern table,
    none twice, each found by [extract_tech_terms] in the text of a
    stored fragment that has an embedding; without results there is no
    signal. *)
Theorem ask_summary_well_formed
    (E : SqlEngine) (U : Unicode) (so : SetOrder) (db : store) (q : pystr)
    (k per_vac candidates : Z) (kw_weight : Q) (max_quote : Z)
    (do_highlight : bool) (a : ask_response) :
  ask E U so db q k per_vac candidates kw_weight max_quote do_highlight = Ok a →
  query_keywords (ask_summary a) = extract_query_keywords U (Some q) 12
  ∧ NoDup (tech_signals (ask_summary a))
  ∧ (length (tech_signals (ask_summary a)) ≤ 10)%nat
  ∧ (∀ t, t ∈ tech_signals (ask_summary a) →
          t ∈ map term_of TECH_PATTERNS
          ∧ ∃ c, c ∈ vacancy_chunks db ∧ is_Some (c_dist c)
                 ∧ t ∈ extract_tech_terms U (Some (c_text c)))
  ∧ (ask_results a = [] → tech_signals (ask_summary a) = []).
Proof.
  rewrite ask_items.
  destruct (retrieved_items E db k per_vac candidates kw_weight)
    as [[[items trgm] kw_used]|e] eqn:Hitems; [|done].
  intros [= <-].
  cbn [ask_summary ask_results summary_of tech_signals query_keywords].
  set (terms := concat (map (tech_terms_of U) items)).
  destruct (most_common_spec 10 (Counter terms)) as (sorted & Hperm & _ & ->).
  destruct (Counter_spec terms) as [Hnd Hiff].
  split; [done|]. split; [|split; [|split]].
  - eapply sublist_NoDup; [|apply fmap_sublist, sublist_take]. by rewrite Hperm.
  - rewrite length_fmap, length_take. lia.
  - intros t ([t' cnt] & -> & Hin)%list_elem_of_fmap. cbn [fst].
    apply elem_of_take in Hin as (i & Hin & _).
    apply list_elem_of_lookup_2 in Hin. rewrite Hperm in Hin.
    apply Hiff in Hin as [-> Hpos]. apply count_of_pos in Hpos.
    unfold terms in Hpos. apply elem_of_concat in Hpos as (l & Hl & Ht).
    apply list_elem_of_fmap in Hl as (item & -> & Hitem).
    unfold tech_terms_of in Ht. apply list_elem_of_bind in Ht as (ev & Ht & Hev).
    split.
    { apply tech_terms_found in Ht as (p & Hp & -> & _).
      apply list_elem_of_fmap. by exists p. }
    apply retrieved_items_inv in Hitems as (rows & Hst & ->).
    apply statement_inv in Hst as [->|(scored & Hsc & Hsel)];
      [by apply elem_of_nil in Hitem|].
    pose proof (candidate_stream_meta _ _ _ _ _ Hsc) as Hmeta.
    apply list_elem_of_fmap in Hitem as (r0 & -> & Hr0). simpl in Hev.
    apply list_elem_of_fmap in Hev as (o & -> & Ho).
    apply list_elem_of_filter in Ho as [_ Ho].
    destruct (rows_elem E scored Hmeta k per_vac rows Hsel o Ho) as (Hr & _ & _).
    apply (ranked_elem E) in Hr.
    destruct (candidate_stream_chunk _ _ _ _ _ _ Hsc Hr)
      as (c & v & Hc & _ & Hd & _ & _ & Htxt & _).
    exists c. split; [done|]. split; [by rewrite Hd|].
    simpl in Ht. by rewrite <- Htxt.
  - intros Hnil. apply fmap_nil_inv in Hnil. subst items.
    assert (sorted = []) as ->; [|done].
    apply Permutation_nil_r. by rewrite Hperm.
Qed.

(** The scenario store has no technology of the table in its texts but
    "python". *)
Lemma ask_summary_well_formed_witness :
  ∃ a,
    ask stable_engine ascii_tables first_seen_order (scenario_db true)
        (str "python developer") 2 2 250 (1 # 4)%Q 800 true = Ok a
    ∧ tech_signals (ask_summary a) = [str "python"]
    ∧ query_keywords (ask_summary a)
      = extract_query_keywords ascii_tables (Some (str "python developer")) 12
    ∧ NoDup (tech_signals (ask_summary a))
    ∧ (length (tech_signals (ask_summary a)) ≤ 10)%nat
    ∧ (∀ t, t ∈ tech_signals (ask_summary a) →
            t ∈ map term_of TECH_PATTERNS
            ∧ ∃ c, c ∈ vacancy_chunks (scenario_db true)
                   ∧ is_Some (c_dist c)
                   ∧ t ∈ extract_tech_terms ascii_tables (Some (c_text c)))
    ∧ (ask_results a = [] → tech_signals (ask_summary a) = []).
Proof.
  eexists. split; [vm_compute; reflexivity|].
  split; [vm_compute; reflexivity|].
  eapply (ask_summary_well_formed
            stable_engine ascii_tables first_seen_order (scenario_db true)
            (str "python developer") 2 2 250 (1 # 4)%Q 800 true).
  vm_compute; reflexivity.
Defined.

(** * The console script and the API *)

(** X26: the script's [extract_tech_terms], which does not remove
    duplicates, returns what the API's does: the terms of the table are
    pairwise different, so there is no duplicate to remove. *)
Theorem cli_extract_tech_terms_same (U : Unicode) (text : option pystr) :
  Cli.extract_tech_terms U text = extract_tech_terms U text.
Proof.
  unfold Cli.extract_tech_terms, extract_tech_terms.
  change Cli.TECH_PATTERNS with TECH_PATTERNS.
  set (found := map term_of (filter _ TECH_PATTERNS)).
  assert (Hnd : NoDup found).
  { apply (sublist_NoDup _ (map term_of TECH_PATTERNS)).
    - apply (bool_decide_unpack (NoDup (map term_of TECH_PATTERNS))).
      by vm_compute.
    - apply fmap_sublist, sublist_filter. }
  symmetry. clearbody found.
  assert (Hgen : ∀ seen : gset pystr,
            (∀ x, x ∈ found → x ∉ seen) → fromkeys seen found = found).
  { induction Hnd as [|x l Hx Hnd IH]; intros seen Hseen; [done|]. simpl.
    rewrite decide_False by (apply Hseen, list_elem_of_here). f_equal.
    apply IH. intros y Hy [->%elem_of_singleton|Hin]%elem_of_union; [done|].
    by apply (Hseen y); [apply list_elem_of_further|]. }
  apply Hgen. intros; apply not_elem_of_empty.
Qed.

(** X27: the script's [extract_query_keywords] returns what the API's
    does on every query: the two pairs of stop lists differ, but not
    their unions. *)
Theorem cli_extract_query_keywords_same (U : Unicode) (query : pystr) (max_words : Z) :
  Cli.extract_query_keywords U query max_words
  = extract_query_keywords U (Some query) max_words.
Proof.
  unfold Cli.extract_query_keywords, extract_query_keywords. simpl.
  do 3 f_equal. apply list_filter_iff. intros t.
  assert (H1 : Forall (λ x, x ∈ RU_STOP ++ EN_STOP) (Cli.RU_STOP ++ Cli.EN_STOP)).
  { apply (bool_decide_unpack
             (Forall (λ x, x ∈ RU_STOP ++ EN_STOP) (Cli.RU_STOP ++ Cli.EN_STOP))).
    by vm_compute. }
  assert (H2 : Forall (λ x, x ∈ Cli.RU_STOP ++ Cli.EN_STOP) (RU_STOP ++ EN_STOP)).
  { apply (bool_decide_unpack
             (Forall (λ x, x ∈ Cli.RU_STOP ++ Cli.EN_STOP) (RU_STOP ++ EN_STOP))).
    by vm_compute. }
  rewrite Forall_forall in H1, H2.
  pose proof (H1 t) as H1t. pose proof (H2 t) as H2t.
  rewrite !elem_of_app in H1t, H2t. tauto.
Qed.

Section cli_retrieve_facts.
Context (E : SqlEngine) (db : store).

(** The loop of the script and the loop of the API on the same rows. *)
Lemma cli_add_rows_spec (rows : list out_row) :
  ∀ vac_map vac_order,
    foldl Cli.add_row (∅, []) rows = (vac_map, vac_order) →
    vac_order = map row_vid (first_rows [] rows)
    ∧ ∀ v, vac_map !! v = entry_of <$> item_of (rows_of v rows).
Proof.
  induction rows as [|r p IH] using rev_ind; intros vac_map vac_order.
  - simpl. intros [= <- <-]. split; [done|]. intros v. by rewrite lookup_empty.
  - rewrite foldl_snoc.
    destruct (foldl Cli.add_row (∅, []) p) as [m o] eqn:Hp.
    destruct (IH m o eq_refl) as [Ho Hm]. clear IH.
    unfold Cli.add_row. set (vr := vacancy_id (r_row (o_r r))).
    assert (Hvr : row_vid r = vr) by done.
    rewrite first_rows_snoc. simpl.
    pose proof (Hm vr) as Hmv.
    destruct (rows_of vr p) as [|r0 rest] eqn:Hrows.
    + simpl in Hmv. rewrite Hmv. simpl. intros [= <- <-].
      assert (Hnin : row_vid r ∉ map row_vid p).
      { rewrite Hvr. by apply rows_of_nil_iff. }
      rewrite decide_False by done. rewrite map_app, Ho. split; [done|].
      intros v. rewrite rows_of_app.
      destruct (decide (vr = v)) as [<-|Hne].
      * rewrite lookup_insert_eq, Hrows. simpl.
        unfold rows_of. rewrite filter_cons_True by done.
        by rewrite filter_nil.
      * rewrite lookup_insert_ne by done. rewrite Hm.
        unfold rows_of at 3. rewrite filter_cons_False by congruence.
        by rewrite filter_nil, app_nil_r.
    + simpl in Hmv. rewrite Hmv. simpl. intros [= <- <-].
      assert (Hin : row_vid r ∈ map row_vid p).
      { rewrite Hvr. destruct (decide (vr ∈ map row_vid p)) as [|Hn]; [done|].
        apply rows_of_nil_iff in Hn. congruence. }
      rewrite decide_True by done. rewrite app_nil_r. split; [done|].
      intros v. rewrite rows_of_app.
      destruct (decide (vr = v)) as [<-|Hne].
      * rewrite lookup_insert_eq, Hrows. simpl.
        unfold rows_of at 1. rewrite filter_cons_True by done.
        rewrite filter_nil. unfold entry_of. simpl. by rewrite !map_app.
      * rewrite lookup_insert_ne by done. rewrite Hm.
        unfold rows_of at 3. rewrite filter_cons_False by congruence.
        by rewrite filter_nil, app_nil_r.
Qed.

End cli_retrieve_facts.

(** X28: when [pg_trgm] is missing or the weight is positive, the
    script's [retrieve] answers wherever the API's [retrieve_vacancies]
    does, and alike: they return the same order, the same flag and
    dictionaries that hold, for every vacancy, the same metadata and the
    same fragments with the same numbers; where the script fails, the API
    fails with the same error. *)
Theorem cli_retrieve_agrees
    (E : SqlEngine) (db : store) (k per_vac candidates : Z) (kw_weight : Q) :
  has_pg_trgm db = false ∨ (0 < kw_weight)%Q →
  match Cli.retrieve E db k per_vac candidates kw_weight,
        retrieve_vacancies E db k per_vac candidates kw_weight with
  | Ok (vac_order, vac_map, trgm), Ok (vac_order', vac_map', trgm', _) =>
      vac_order = vac_order' ∧ trgm = trgm'
      ∧ ∀ v, vac_map !! v = entry_of <$> vac_map' !! v
  | Err e, Err e' => e = e'
  | Ok _, Err _ => True
  | Err _, Ok _ => False
  end.
Proof.
  intros Hsame. unfold Cli.retrieve, retrieve_vacancies.
  assert (Hst :
    (if has_pg_trgm db
     then SQL_V2_WITH_TRGM E db (if negb (has_pg_trgm db) then 0%Q else kw_weight)
                           candidates k per_vac
     else SQL_V2_NO_TRGM E db candidates k per_vac)
    = (if has_pg_trgm db
          && is_positive (if negb (has_pg_trgm db) then 0%Q else kw_weight)
       then SQL_V2_WITH_TRGM E db
              (if negb (has_pg_trgm db) then 0%Q else kw_weight)
              candidates k per_vac
       else SQL_V2_NO_TRGM E db candidates k per_vac)).
  { destruct (has_pg_trgm db); [|done]. simpl.
    destruct Hsame as [?|Hpos]; [done|]. unfold is_positive.
    destruct (Qle_bool kw_weight 0) eqn:Hle; [|done].
    apply Qle_bool_iff in Hle. exfalso. by eapply Qlt_not_le. }
  rewrite Hst.
  destruct (if has_pg_trgm db && is_positive _ then _ else _)
    as [rows|e]; [|done].
  simpl.
  destruct (foldl Cli.add_row (∅, []) rows) as [m o] eqn:Hcli.
  destruct (foldl add_row (∅, []) rows) as [m' o'] eqn:Hapi.
  apply cli_add_rows_spec in Hcli as [-> Hm].
  apply add_rows_spec in Hapi as [-> Hm']. simpl.
  split; [done|]. split; [done|]. intros v. by rewrite Hm, Hm'.
Qed.

(** Weight 0.25 on the scenario store. *)
Lemma cli_retrieve_agrees_witness :
  (has_pg_trgm (scenario_db true) = false ∨ (0 < 1 # 4)%Q)
  ∧ match Cli.retrieve stable_engine (scenario_db true) 2 2 250 (1 # 4),
          retrieve_vacancies stable_engine (scenario_db true) 2 2 250 (1 # 4)
    with
    | Ok (vac_order, vac_map, trgm), Ok (vac_order', vac_map', trgm', _) =>
        vac_order = vac_order' ∧ trgm = trgm'
        ∧ ∀ v, vac_map !! v = entry_of <$> vac_map' !! v
    | Err e, Err e' => e = e'
    | Ok _, Err _ => True
    | Err _, Ok _ => False
    end.
Proof.
  split; [right; reflexivity|].
  apply (cli_retrieve_agrees stable_engine (scenario_db true) 2 2 250 (1 # 4)).
  right; reflexivity.
Defined.

(** * Properties of the market endpoints *)

Lemma count_of_app (x : pystr) (l1 l2 : list pystr) :
  count_of x (l1 ++ l2) = (count_of x l1 + count_of x l2)%nat.
Proof. unfold count_of. by rewrite filter_app, length_app. Qed.

Lemma count_of_NoDup (x : pystr) (l : list pystr) :
  NoDup l → count_of x l = if decide (x ∈ l) then 1%nat else 0%nat.
Proof.
  unfold count_of. induction 1 as [|y l Hy Hnd IH]; [done|].
  rewrite filter_cons. destruct (decide (y = x)) as [->|Hne].
  - simpl. rewrite IH. rewrite decide_False by done.
    by rewrite decide_True by apply list_elem_of_here.
  - rewrite IH. destruct (decide (x ∈ l)) as [Hin|Hin].
    + by rewrite decide_True by (by apply list_elem_of_further).
    + rewrite decide_False; [done|]. intros [->|?]%elem_of_cons; done.
Qed.

(** Counting a term over texts that each hold it at most once counts the
    texts that hold it. *)
Lemma count_of_concat {A} (g : A → list pystr) (x : pystr) (l : list A) :
  (∀ a, NoDup (g a)) →
  count_of x (concat (map g l)) = length (filter (λ a, x ∈ g a) l).
Proof.
  intros Hg. induction l as [|a l IH]; [done|].
  simpl. rewrite count_of_app, IH, (count_of_NoDup x (g a)) by done.
  rewrite filter_cons. by destruct (decide (x ∈ g a)).
Qed.

(** X30: [market_tech_top] counts fragments: the count of a term is the
    number of stored fragments whose text holds it, whatever order the
    fragments are read in; the terms of [top] are terms of the pattern
    table, pairwise different, with counts of at least one that do not
    increase down the list; [top] has at most [limit] entries and at most
    [unique_terms], which is at most the size of the table. *)
Theorem market_tech_top_counts (U : Unicode) (E : SqlEngine) (db : store) (limit : Z) :
  (∀ term cnt, (term, cnt) ∈ (market_tech_top E U db limit).1 →
     term ∈ map term_of TECH_PATTERNS
     ∧ (1 ≤ cnt)%nat
     ∧ cnt = length (filter (λ c, term ∈ extract_tech_terms U (Some (c_text c)))
                            (vacancy_chunks db)))
  ∧ NoDup (map fst (market_tech_top E U db limit).1)
  ∧ StronglySorted (λ a b, (b.2 ≤ a.2)%nat) (market_tech_top E U db limit).1
  ∧ Z.of_nat (length (market_tech_top E U db limit).1) ≤ Z.max 0 limit
  ∧ (length (market_tech_top E U db limit).1 ≤ (market_tech_top E U db limit).2
     ≤ length TECH_PATTERNS)%nat.
Proof.
  unfold market_tech_top, chunk_texts. cbn [fst snd].
  rewrite map_map.
  set (g := λ c : chunk, extract_tech_terms U (Some (c_text c))).
  set (scan := order_by E (λ _ _ : chunk, true) (vacancy_chunks db)).
  set (terms := concat (map g scan)).
  destruct (most_common_spec limit (Counter terms))
    as (sorted & Hperm & Hsorted & ->).
  destruct (Counter_spec terms) as [Hnd Hiff].
  assert (Hg : ∀ c, NoDup (g c)).
  { intros c. unfold g, extract_tech_terms.
    by destruct (fromkeys_spec
                   (map term_of
                      (filter (λ p, re_search U (parse_pattern false p)
                                      (lower U (or_empty (Some (c_text c)))) = true)
                              TECH_PATTERNS)) ∅) as (? & _ & _). }
  assert (Hterm : ∀ t, t ∈ terms → t ∈ map term_of TECH_PATTERNS).
  { intros t (l & (c & -> & _)%list_elem_of_fmap & Ht)%elem_of_concat.
    apply tech_terms_found in Ht as (p & Hp & -> & _).
    apply list_elem_of_fmap. by exists p. }
  assert (Hcount : ∀ t, count_of t terms
                        = length (filter (λ c, t ∈ g c) (vacancy_chunks db))).
  { intros t. unfold terms. rewrite count_of_concat by done.
    apply Permutation_length, filter_Permutation, (order_by_perm E). }
  assert (Hkeys : (length (Counter terms) ≤ length TECH_PATTERNS)%nat).
  { rewrite <- (length_fmap fst (Counter terms)),
      <- (length_fmap term_of TECH_PATTERNS).
    apply submseteq_length, NoDup_submseteq; [done|].
    intros t ([t' cnt] & -> & Hin)%list_elem_of_fmap.
    apply Hiff in Hin as [-> Hpos]. simpl.
    apply Hterm. by apply count_of_pos. }
  split; [|split; [|split; [|split]]].
  - intros term cnt Hin. apply elem_of_take in Hin as (i & Hin & _).
    apply list_elem_of_lookup_2 in Hin. rewrite Hperm in Hin.
    apply Hiff in Hin as [-> Hpos].
    split; [apply Hterm; by apply count_of_pos|]. split; [lia|]. apply Hcount.
  - eapply sublist_NoDup; [|apply fmap_sublist, sublist_take]. by rewrite Hperm.
  - eapply StronglySorted_sublist; [apply sublist_take | exact Hsorted].
  - rewrite length_take. lia.
  - split; [|exact Hkeys].
    rewrite length_take, <- (Permutation_length Hperm). lia.
Qed.
